(** * ts-serialize-closures: the graph serializer, embedded and verified

    A shallow embedding of [SerializedGraph] (the class that turns a
    JavaScript value into a flat array of content records and back) together
    with the properties its specification states about it.

    The embedding follows the TypeScript source method by method.  The
    JavaScript heap is explicit: every object has an identity (its location),
    a class, a prototype link and an ordered list of own properties.  The two
    passes of the class thread the heap and the fields of the graph object
    ([indexMap], [contentArray]) through a small state-and-exception monad.
    Recursion through the value graph is bounded by a fuel argument that
    counts the nesting depth of [add] (resp. [get]) calls. *)

From Stdlib Require Import ZArith String List Bool Lia Ascii.
From stdpp Require Import base list.
Import ListNotations.
Local Open Scope string_scope.
Local Open Scope list_scope.

(** ** JavaScript values *)

(** Numbers.  The serializer never computes with numbers; it only compares
    them with [===].  [Num z] stands for an ordinary double, and the two
    doubles on which [===] is not the identity are kept apart: [NaN]
    (not equal to itself) and [NegZero] (equal to [Num 0]). *)
Inductive number :=
| NaN
| NegZero
| Num (z : Z).

Inductive prim :=
| PUndefined
| PNull
| PBoolean (b : bool)
| PNumber (n : number)
| PString (s : string).

(** A location is the identity of an object. *)
Abbreviation loc := nat.

Inductive value :=
| VPrim (p : prim)
| VRef (l : loc).

Definition undefined : value := VPrim PUndefined.

Definition number_strict_equals (a b : number) : bool :=
  match a, b with
  | NaN, _ | _, NaN => false
  | NegZero, NegZero => true
  | NegZero, Num z | Num z, NegZero => Z.eqb z 0
  | Num x, Num y => Z.eqb x y
  end.

Definition prim_strict_equals (a b : prim) : bool :=
  match a, b with
  | PUndefined, PUndefined => true
  | PNull, PNull => true
  | PBoolean x, PBoolean y => Bool.eqb x y
  | PNumber x, PNumber y => number_strict_equals x y
  | PString x, PString y => String.eqb x y
  | _, _ => false
  end.

(** [a === b] *)
Definition strict_equals (a b : value) : bool :=
  match a, b with
  | VPrim p, VPrim q => prim_strict_equals p q
  | VRef l, VRef k => Nat.eqb l k
  | _, _ => false
  end.

(** ToBoolean, as used by [if (x)] and [!x]. *)
Definition truthy (v : value) : bool :=
  match v with
  | VRef _ => true
  | VPrim PUndefined | VPrim PNull => false
  | VPrim (PBoolean b) => b
  | VPrim (PNumber NaN) | VPrim (PNumber NegZero) => false
  | VPrim (PNumber (Num z)) => negb (Z.eqb z 0)
  | VPrim (PString s) => negb (String.eqb s "")
  end.

(** ** Objects and the heap *)

(** What calling a function object does, as far as the serializer can tell.
    - [Opaque]: a function of the program; only its source text is known.
    - [Snapshot vars]: the accessor the closure transform stores under
      [__closure]; a call returns a fresh plain object holding [vars].
    - [Forwarding]: the decoder's thunk, which calls its own [__impl].
    - [Applied code args]: the value of [eval(code).apply(undefined, args)]. *)
Inductive behaviour :=
| Opaque
| Snapshot (vars : list (string * value))
| Forwarding
| Applied (code : string) (args : list value).

Inductive class :=
| ObjectClass
| ArrayClass (elements : list value)
| FunctionClass (source : string) (b : behaviour)
| DateClass (iso : string)
| RegExpClass (literal : string).

(** An own property: a data property or an accessor property. *)
Inductive property :=
| Data (v : value) (writable enumerable configurable : bool)
| Accessor (getter setter : value) (enumerable configurable : bool).

Record object := mkObject {
  class_of : class;
  prototype_of : value;
  properties : list (string * property)
}.

Abbreviation heap := (list object).

(** A property descriptor object, as [Object.getOwnPropertyDescriptor]
    returns it and as [Object.defineProperty] takes it: every field may be
    absent. *)
Record PropertyDescriptor := mkPD {
  pd_get : option value;
  pd_set : option value;
  pd_value : option value;
  pd_configurable : option bool;
  pd_writable : option bool;
  pd_enumerable : option bool
}.

Definition getOwnPropertyDescriptor (p : property) : PropertyDescriptor :=
  match p with
  | Data v w e c => mkPD None None (Some v) (Some c) (Some w) (Some e)
  | Accessor g s e c => mkPD (Some g) (Some s) None (Some c) None (Some e)
  end.

(** ** JavaScript objects used as string-keyed maps

    [refs] and [descriptions] are plain objects filled with [m[key] = x] and
    read with [for (key in m)]; an association list in insertion order. *)
Section Assoc.
Context {V : Type}.

Fixpoint assoc_get (k : string) (m : list (string * V)) : option V :=
  match m with
  | [] => None
  | (k', x) :: m' => if String.eqb k' k then Some x else assoc_get k m'
  end.

Fixpoint assoc_set (k : string) (x : V) (m : list (string * V)) : list (string * V) :=
  match m with
  | [] => [(k, x)]
  | (k', y) :: m' =>
      if String.eqb k' k then (k, x) :: m' else (k', y) :: assoc_set k x m'
  end.
End Assoc.

(** ** Content records *)

(** The serialized form of a property descriptor: [get], [set] and [value]
    hold indices into the content array. *)
Record description := mkDescription {
  d_get : option nat;
  d_set : option nat;
  d_value : option nat;
  d_configurable : option bool;
  d_writable : option bool;
  d_enumerable : option bool
}.

(** [let serializedDesc: any = {}] *)
Definition empty_description : description :=
  mkDescription None None None None None None.

(** A content record, by its [kind].  [CUnrecognized k] is a record whose
    kind [k] is none of the seven the decoder knows. *)
Inductive content :=
| CPrimitive (v : prim)
| CArray (refs : list nat)
| CFunction (source : string) (closure prototype : nat)
    (refs : list (string * nat)) (descriptions : list (string * description))
| CObject (prototype : nat)
    (refs : list (string * nat)) (descriptions : list (string * description))
| CBuiltin (name : string)
| CDate (v : string)
| CRegex (v : string)
| CUnrecognized (kind : string).

(** The fields of a [SerializedGraph].  A slot of [contentArray] is [None]
    while it holds the [undefined] that [add] pushes before it fills it.
    The constructor is private and both producers overwrite [rootIndex]
    before the graph escapes, so its initial [-1] is never observed. *)
Record SerializedGraph := mkGraph {
  indexMap : list (value * nat);
  rootIndex : nat;
  contentArray : list (option content)
}.

(** The wire format: [{ root, data }]. *)
Record JSON := mkJSON {
  json_root : nat;
  json_data : list (option content)
}.

(** ** The host: builtin registry and intrinsic prototypes

    [./builtins] is not part of the sources at hand; its two lookups are
    parameters, like the prototypes that literals and [new] attach. *)
Record Host := mkHost {
  getNameOfBuiltin : value -> option string;
  getBuiltinByName : string -> option value;
  ObjectPrototype : value;
  ArrayPrototype : value;
  FunctionPrototype : value;
  DatePrototype : value;
  RegExpPrototype : value
}.

(** ** The monad: heap and graph fields threaded, exceptions, fuel *)

Inductive error :=
| Error (message : string)        (* [throw new Error(message)] in the source *)
| TypeError (message : string)    (* raised by the runtime *)
| SyntaxError (message : string). (* raised by [JSON.parse] *)

Record world := mkWorld {
  heap_of : heap;
  this : SerializedGraph
}.

(** An exception does not undo the mutations made before it: [Throw]
    carries the world at the point of the throw. *)
Inductive outcome (A : Type) :=
| Return (a : A) (w : world)
| Throw (e : error) (w : world)
| OutOfFuel.
Arguments Return {A} a w.
Arguments Throw {A} e w.
Arguments OutOfFuel {A}.

Definition M (A : Type) := world -> outcome A.

Definition ret {A} (a : A) : M A := fun w => Return a w.

Definition bind {A B} (m : M A) (k : A -> M B) : M B :=
  fun w =>
    match m w with
    | Return a w' => k a w'
    | Throw e w' => Throw e w'
    | OutOfFuel => OutOfFuel
    end.

Notation "'let*' x := m 'in' k" := (bind m (fun x => k))
  (at level 10, x name, m at level 100, k at level 200).
Notation "m ;; k" := (bind m (fun _ => k))
  (at level 100, k at level 200, right associativity).

Definition throw {A} (e : error) : M A := fun w => Throw e w.
Definition out_of_fuel {A} : M A := fun _ => OutOfFuel.

Definition get_this : M SerializedGraph := fun w => Return (this w) w.
Definition get_heap : M heap := fun w => Return (heap_of w) w.

Definition set_indexMap (im : list (value * nat)) : M unit :=
  fun w => Return tt
    (mkWorld (heap_of w) (mkGraph im (rootIndex (this w)) (contentArray (this w)))).

Definition set_contentArray (ca : list (option content)) : M unit :=
  fun w => Return tt
    (mkWorld (heap_of w) (mkGraph (indexMap (this w)) (rootIndex (this w)) ca)).

Definition set_heap (h : heap) : M unit :=
  fun w => Return tt (mkWorld h (this w)).

(** [this.indexMap.push({ element, index })] *)
Definition indexMap_push (element : value) (index : nat) : M unit :=
  let* g := get_this in set_indexMap (indexMap g ++ [(element, index)]).

(** A new object: its location is the next free one. *)
Definition alloc (o : object) : M loc :=
  let* h := get_heap in
  set_heap (h ++ [o]) ;; ret (length h).

(** No JavaScript value is a dangling reference; the model reports one as a
    [TypeError]. *)
Definition read (l : loc) : M object :=
  let* h := get_heap in
  match h !! l with
  | Some o => ret o
  | None => throw (TypeError "dangling reference")
  end.

Definition write (l : loc) (o : object) : M unit :=
  let* h := get_heap in set_heap (<[l := o]> h).

(** Monadic iteration over a list, left to right. *)
Fixpoint mapM {A B} (f : A -> M B) (xs : list A) : M (list B) :=
  match xs with
  | [] => ret []
  | x :: xs' => let* y := f x in let* ys := mapM f xs' in ret (y :: ys)
  end.

Fixpoint foldM {A B} (f : B -> A -> M B) (acc : B) (xs : list A) : M B :=
  match xs with
  | [] => ret acc
  | x :: xs' => let* acc' := f acc x in foldM f acc' xs'
  end.

Fixpoint forM_ {A} (f : A -> M unit) (xs : list A) : M unit :=
  match xs with
  | [] => ret tt
  | x :: xs' => f x ;; forM_ f xs'
  end.

(** ** Object primitives of the runtime *)

(** SameValue: [===] except that NaN equals itself and the two zeros differ. *)
Definition same_value (a b : value) : bool :=
  match a, b with
  | VPrim (PNumber NaN), VPrim (PNumber NaN) => true
  | VPrim (PNumber NegZero), VPrim (PNumber NegZero) => true
  | VPrim (PNumber NegZero), _ | _, VPrim (PNumber NegZero) => false
  | _, _ => strict_equals a b
  end.

Definition IsCallable (h : heap) (v : value) : bool :=
  match v with
  | VRef l =>
      match h !! l with
      | Some (mkObject (FunctionClass _ _) _ _) => true
      | _ => false
      end
  | VPrim _ => false
  end.

(** [o.key] for the two reads the serializer makes on function objects
    ([__closure] and [prototype]): the value of the own data property, or
    [undefined].  Inherited properties and getters are outside the model. *)
Definition get_property (o : object) (key : string) : value :=
  match assoc_get key (properties o) with
  | Some (Data v _ _ _) => v
  | _ => undefined
  end.

(** [target[key] = v] in strict mode, on the object's own properties: an
    existing writable data property is updated, a read-only one raises, a
    missing one is created plain.  The decoder only assigns to objects it has
    just created; properties inherited through the prototype chain, which the
    runtime would consult for setters and read-only flags, are outside the
    model, and so is the effect of running an own setter. *)
Definition put (target : value) (key : string) (v : value) : M unit :=
  match target with
  | VPrim _ => throw (TypeError "Cannot create property on a primitive")
  | VRef l =>
      let* o := read l in
      match assoc_get key (properties o) with
      | Some (Data _ true e c) =>
          write l (mkObject (class_of o) (prototype_of o)
                     (assoc_set key (Data v true e c) (properties o)))
      | Some (Data _ false _ _) =>
          throw (TypeError "Cannot assign to read only property")
      | Some (Accessor _ setter _ _) =>
          if truthy setter then ret tt
          else throw (TypeError "Cannot set property which has only a getter")
      | None =>
          write l (mkObject (class_of o) (prototype_of o)
                     (assoc_set key (Data v true true true) (properties o)))
      end
  end.

(** [results.push(x)] *)
Definition array_push (results : loc) (x : value) : M unit :=
  let* o := read results in
  match class_of o with
  | ArrayClass elements =>
      write results (mkObject (ArrayClass (elements ++ [x])) (prototype_of o) (properties o))
  | _ => throw (TypeError "push is not a function")
  end.

(** [Object.create(proto)] *)
Definition Object_create (proto : value) : M loc :=
  match proto with
  | VRef _ | VPrim PNull => alloc (mkObject ObjectClass proto [])
  | VPrim _ => throw (TypeError "Object prototype may only be an Object or null")
  end.

(** The keys [for (key in v)] visits with the values [v[key]] reads: the own
    enumerable properties in order.  Inherited enumerable properties are
    outside the model; the value a getter would return stands as
    [undefined]. *)
Definition for_in (v : value) : M (list (string * value)) :=
  match v with
  | VPrim _ => ret []
  | VRef l =>
      let* o := read l in
      ret (omap (fun '(k, p) =>
                   match p with
                   | Data x _ true _ => Some (k, x)
                   | Accessor _ _ true _ => Some (k, undefined)
                   | _ => None
                   end) (properties o))
  end.

Definition is_accessor_descriptor (d : PropertyDescriptor) : bool :=
  match pd_get d, pd_set d with None, None => false | _, _ => true end.

Definition is_data_descriptor (d : PropertyDescriptor) : bool :=
  match pd_value d, pd_writable d with None, None => false | _, _ => true end.

Definition field_or {A} (o : option A) (a : A) : A :=
  match o with Some x => x | None => a end.

(** The checks of ToPropertyDescriptor. *)
Definition valid_descriptor (h : heap) (d : PropertyDescriptor) : bool :=
  let callable_or_undefined o :=
    match o with
    | None => true
    | Some v => IsCallable h v || strict_equals v undefined
    end in
  callable_or_undefined (pd_get d) && callable_or_undefined (pd_set d)
  && negb (is_accessor_descriptor d && is_data_descriptor d).

Definition same_opt (o : option value) (cur : value) : bool :=
  match o with None => true | Some v => same_value v cur end.

Definition agrees (o : option bool) (cur : bool) : bool :=
  match o with None => true | Some b => Bool.eqb b cur end.

(** ValidateAndApplyPropertyDescriptor on an extensible object: the property
    that results, or [None] when the definition is rejected. *)
Definition apply_descriptor (current : option property) (d : PropertyDescriptor)
  : option property :=
  match current with
  | None =>
      if is_accessor_descriptor d
      then Some (Accessor (field_or (pd_get d) undefined) (field_or (pd_set d) undefined)
                   (field_or (pd_enumerable d) false) (field_or (pd_configurable d) false))
      else Some (Data (field_or (pd_value d) undefined) (field_or (pd_writable d) false)
                   (field_or (pd_enumerable d) false) (field_or (pd_configurable d) false))
  | Some (Data v w e c) =>
      let allowed :=
        c || (negb (field_or (pd_configurable d) false) && agrees (pd_enumerable d) e
              && negb (is_accessor_descriptor d)
              && (w || (negb (field_or (pd_writable d) false) && same_opt (pd_value d) v))) in
      if negb allowed then None
      else if is_accessor_descriptor d
      then Some (Accessor (field_or (pd_get d) undefined) (field_or (pd_set d) undefined)
                   (field_or (pd_enumerable d) e) (field_or (pd_configurable d) c))
      else Some (Data (field_or (pd_value d) v) (field_or (pd_writable d) w)
                   (field_or (pd_enumerable d) e) (field_or (pd_configurable d) c))
  | Some (Accessor g s e c) =>
      let allowed :=
        c || (negb (field_or (pd_configurable d) false) && agrees (pd_enumerable d) e
              && negb (is_data_descriptor d)
              && same_opt (pd_get d) g && same_opt (pd_set d) s) in
      if negb allowed then None
      else if is_data_descriptor d
      then Some (Data (field_or (pd_value d) undefined) (field_or (pd_writable d) false)
                   (field_or (pd_enumerable d) e) (field_or (pd_configurable d) c))
      else Some (Accessor (field_or (pd_get d) g) (field_or (pd_set d) s)
                   (field_or (pd_enumerable d) e) (field_or (pd_configurable d) c))
  end.

(** [Object.defineProperty(target, key, d)] *)
Definition defineProperty (target : value) (key : string) (d : PropertyDescriptor)
  : M unit :=
  match target with
  | VPrim _ => throw (TypeError "Object.defineProperty called on non-object")
  | VRef l =>
      let* o := read l in
      let* h := get_heap in
      if negb (valid_descriptor h d)
      then throw (TypeError "Invalid property descriptor")
      else
        match apply_descriptor (assoc_get key (properties o)) d with
        | Some p =>
            write l (mkObject (class_of o) (prototype_of o)
                       (assoc_set key p (properties o)))
        | None => throw (TypeError "Cannot redefine property")
        end
  end.

Definition quote : string := String (ascii_of_nat 34) EmptyString.

(** [JSON.stringify] of a date: its ISO text between double quotes. *)
Definition JSON_stringify_date (iso : string) : string :=
  (quote ++ iso ++ quote)%string.

(** [JSON.parse] on the text of a string literal without escapes, the only
    shape the encoder emits for dates.  Any other text is reported as a
    [SyntaxError] here, although [JSON.parse] accepts further JSON texts. *)
Definition JSON_parse_string (text : string) : option string :=
  match text with
  | String c rest =>
      if (Ascii.eqb c (ascii_of_nat 34) && Nat.leb 1 (String.length rest)
          && String.eqb (substring (String.length rest - 1) 1 rest) quote)%bool
      then Some (substring 0 (String.length rest - 1) rest)
      else None
  | EmptyString => None
  end.

(** ** The class [SerializedGraph] *)

(** The loop that opens [add]: the index of the first entry whose element is
    [===] to the value. *)
Fixpoint find_element (im : list (value * nat)) (v : value) : option nat :=
  match im with
  | [] => None
  | (element, index) :: im' =>
      if strict_equals element v then Some index else find_element im' v
  end.

(** The loop that opens [get]: the element of the first entry with the
    index. *)
Fixpoint find_index (im : list (value * nat)) (valueIndex : nat) : option value :=
  match im with
  | [] => None
  | (element, index) :: im' =>
      if Nat.eqb valueIndex index then Some element else find_index im' valueIndex
  end.

Definition is_true (o : option bool) : bool :=
  match o with Some true => true | _ => false end.

Definition is_Some_b {A} (o : option A) : bool :=
  match o with Some _ => true | None => false end.

Definition opt_truthy (o : option value) : bool :=
  match o with Some v => truthy v | None => false end.

Definition with_get (i : nat) (d : description) : description :=
  mkDescription (Some i) (d_set d) (d_value d) (d_configurable d) (d_writable d) (d_enumerable d).
Definition with_set (i : nat) (d : description) : description :=
  mkDescription (d_get d) (Some i) (d_value d) (d_configurable d) (d_writable d) (d_enumerable d).
Definition with_value (i : nat) (d : description) : description :=
  mkDescription (d_get d) (d_set d) (Some i) (d_configurable d) (d_writable d) (d_enumerable d).
Definition with_configurable (b : option bool) (d : description) : description :=
  mkDescription (d_get d) (d_set d) (d_value d) b (d_writable d) (d_enumerable d).
Definition with_writable (b : option bool) (d : description) : description :=
  mkDescription (d_get d) (d_set d) (d_value d) (d_configurable d) b (d_enumerable d).
Definition with_enumerable (b : option bool) (d : description) : description :=
  mkDescription (d_get d) (d_set d) (d_value d) (d_configurable d) (d_writable d) b.

Definition thunk_source : string :=
  "function () { return thunk.__impl.apply(this, arguments); }".

(** [`(function(${capturedVarKeys.join(", ")}) { return (${source}); })`] *)
Definition synthesize (capturedVarKeys : list string) (source : string) : string :=
  ("(function(" ++ String.concat ", " capturedVarKeys ++ ") { return ("
     ++ source ++ "); })")%string.

(** [{ ...desc }]: the stored indices are copied as the numbers they are. *)
Definition index_value (i : nat) : value := VPrim (PNumber (Num (Z.of_nat i))).

Definition spread (desc : description) : PropertyDescriptor :=
  mkPD (index_value <$> d_get desc) (index_value <$> d_set desc)
       (index_value <$> d_value desc)
       (d_configurable desc) (d_writable desc) (d_enumerable desc).

(** [if (i)] on a stored index: present and not zero. *)
Definition index_truthy (o : option nat) : option nat :=
  match o with
  | Some i => if truthy (index_value i) then Some i else None
  | None => None
  end.

(** An object literal [{ k1: v1, ... }]. *)
Definition object_literal (host : Host) (fields : list (string * value)) : object :=
  mkObject ObjectClass (ObjectPrototype host)
    (fold_left (fun m '(k, v) => assoc_set k (Data v true true true) m) fields []).

Section Methods.
Variable host : Host.

(** *** Encoding.  The three [serialize*] methods and [add] are mutually
    recursive; each takes the recursive [add] as its first argument. *)

(** One round of the loop of [serializeProperties]. *)
Definition serializeProperty (add : value -> M nat)
    (acc : list (string * nat) * list (string * description))
    (entry : string * property)
  : M (list (string * nat) * list (string * description)) :=
  let '(refs, descriptions) := acc in
  let '(key, p) := entry in
  if String.eqb key "__closure" then ret acc
  else
    let desc := getOwnPropertyDescriptor p in
    if is_Some_b (pd_value desc) && is_true (pd_configurable desc)
       && is_true (pd_writable desc) && is_true (pd_enumerable desc)
    then
      (* [refs[key] = this.add(value[key])] *)
      let* i := add (field_or (pd_value desc) undefined) in
      ret (assoc_set key i refs, descriptions)
    else
      let serializedDesc := empty_description in
      let* serializedDesc :=
        if opt_truthy (pd_get desc)
        then let* i := add (field_or (pd_get desc) undefined) in
             ret (with_get i serializedDesc)
        else ret serializedDesc in
      let* serializedDesc :=
        if opt_truthy (pd_set desc)
        then let* i := add (field_or (pd_set desc) undefined) in
             ret (with_set i serializedDesc)
        else ret serializedDesc in
      let* serializedDesc :=
        match pd_value desc with
        | Some v => let* i := add v in ret (with_value i serializedDesc)
        | None => ret serializedDesc
        end in
      let serializedDesc := with_configurable (pd_configurable desc) serializedDesc in
      let serializedDesc :=
        match d_writable serializedDesc with
        | Some _ => with_writable (pd_writable desc) serializedDesc
        | None => serializedDesc
        end in
      let serializedDesc := with_enumerable (pd_enumerable desc) serializedDesc in
      ret (refs, assoc_set key serializedDesc descriptions).

(** [serializeProperties(value, serializedValue)]: the [refs] and the
    [descriptions] it stores into [serializedValue]. *)
Definition serializeProperties (add : value -> M nat) (o : object)
  : M (list (string * nat) * list (string * description)) :=
  foldM (serializeProperty add) ([], []) (properties o).

(** [closure()], for the [closure] that [serializeFunction] ends up with. *)
Definition call_closure (closure : value) : M value :=
  if negb (truthy closure)
  then
    (* [closure = () => ({})] *)
    let* l := alloc (object_literal host []) in ret (VRef l)
  else
    match closure with
    | VRef c =>
        let* f := read c in
        match class_of f with
        | FunctionClass _ (Snapshot vars) =>
            let* l := alloc (object_literal host vars) in ret (VRef l)
        | FunctionClass _ _ =>
            throw (TypeError "__closure is not a closure-snapshot accessor")
        | _ => throw (TypeError "closure is not a function")
        end
    | VPrim _ => throw (TypeError "closure is not a function")
    end.

Definition serializeFunction (add : value -> M nat) (o : object) (source : string)
  : M content :=
  let closure := get_property o "__closure" in
  let* snapshot := call_closure closure in
  let* closure_index := add snapshot in
  let* prototype_index := add (get_property o "prototype") in
  let* rd := serializeProperties add o in
  ret (CFunction source closure_index prototype_index (fst rd) (snd rd)).

Definition serializeObject (add : value -> M nat) (o : object) : M content :=
  let* prototype_index := add (prototype_of o) in
  let* rd := serializeProperties add o in
  ret (CObject prototype_index (fst rd) (snd rd)).

(** The private method [serialize(value)]. *)
Definition serialize (add : value -> M nat) (v : value) : M content :=
  match getNameOfBuiltin host v with
  | Some builtinName => ret (CBuiltin builtinName)
  | None =>
      match v with
      | VPrim p => ret (CPrimitive p)
      | VRef l =>
          let* o := read l in
          match class_of o with
          | ArrayClass elements =>
              let* refs := mapM add elements in ret (CArray refs)
          | FunctionClass source _ => serializeFunction add o source
          | DateClass iso => ret (CDate (JSON_stringify_date iso))
          | RegExpClass literal => ret (CRegex literal)
          | ObjectClass => serializeObject add o
          end
      end
  end.

Fixpoint add (fuel : nat) (v : value) : M nat :=
  match fuel with
  | 0 => out_of_fuel
  | S fuel' =>
      let* g := get_this in
      match find_element (indexMap g) v with
      | Some index => ret index
      | None =>
          let index := length (contentArray g) in
          set_contentArray (contentArray g ++ [None]) ;;
          indexMap_push v index ;;
          let* c := serialize (add fuel') v in
          let* g' := get_this in
          set_contentArray (<[index := Some c]> (contentArray g')) ;;
          ret index
      end
  end.

(** [new SerializedGraph()] *)
Definition new_SerializedGraph : SerializedGraph := mkGraph [] 0 [].

Definition set_rootIndex (i : nat) : M unit :=
  fun w => Return tt
    (mkWorld (heap_of w) (mkGraph (indexMap (this w)) i (contentArray (this w)))).

(** The static [serialize(value)]: run in a heap, it leaves the new graph
    as [this] of the resulting world. *)
Definition SerializedGraph_serialize (fuel : nat) (v : value) (h : heap)
  : outcome unit :=
  (let* i := add fuel v in set_rootIndex i) (mkWorld h new_SerializedGraph).

Definition fromJSON (json : JSON) : SerializedGraph :=
  mkGraph [] (json_root json) (json_data json).

Definition toJSON (g : SerializedGraph) : JSON :=
  mkJSON (rootIndex g) (contentArray g).

(** *** Decoding *)

Definition deserializeRef (get : nat -> M value) (deserializedValue : value)
    (entry : string * nat) : M unit :=
  let* x := get (snd entry) in
  put deserializedValue (fst entry) x.

Definition with_pd_get (v : value) (d : PropertyDescriptor) : PropertyDescriptor :=
  mkPD (Some v) (pd_set d) (pd_value d) (pd_configurable d) (pd_writable d) (pd_enumerable d).
Definition with_pd_set (v : value) (d : PropertyDescriptor) : PropertyDescriptor :=
  mkPD (pd_get d) (Some v) (pd_value d) (pd_configurable d) (pd_writable d) (pd_enumerable d).
Definition with_pd_value (v : value) (d : PropertyDescriptor) : PropertyDescriptor :=
  mkPD (pd_get d) (pd_set d) (Some v) (pd_configurable d) (pd_writable d) (pd_enumerable d).

Definition deserializeDescription (get : nat -> M value) (deserializedValue : value)
    (entry : string * description) : M unit :=
  let '(key, desc) := entry in
  let parsedDesc := spread desc in
  let* parsedDesc :=
    match index_truthy (d_get desc) with
    | Some i => let* x := get i in ret (with_pd_get x parsedDesc)
    | None => ret parsedDesc
    end in
  let* parsedDesc :=
    match index_truthy (d_set desc) with
    | Some i => let* x := get i in ret (with_pd_set x parsedDesc)
    | None => ret parsedDesc
    end in
  let* parsedDesc :=
    match index_truthy (d_value desc) with
    | Some i => let* x := get i in ret (with_pd_value x parsedDesc)
    | None => ret parsedDesc
    end in
  defineProperty deserializedValue key parsedDesc.

Definition deserializeProperties (get : nat -> M value)
    (refs : list (string * nat)) (descriptions : list (string * description))
    (deserializedValue : value) : M unit :=
  forM_ (deserializeRef get deserializedValue) refs ;;
  forM_ (deserializeDescription get deserializedValue) descriptions.

Definition unknown_builtin (name : string) : error :=
  Error ("Cannot deserialize unknown builtin '" ++ name ++ "'.")%string.

Definition unrecognized_kind (kind : string) : error :=
  Error ("Cannot deserialize unrecognized content kind '" ++ kind ++ "'.")%string.

Fixpoint get (fuel : nat) (valueIndex : nat) : M value :=
  match fuel with
  | 0 => out_of_fuel
  | S fuel' =>
      let* g := get_this in
      match find_index (indexMap g) valueIndex with
      | Some element => ret element
      | None =>
          match contentArray g !! valueIndex with
          | Some (Some (CPrimitive v)) =>
              indexMap_push (VPrim v) valueIndex ;;
              ret (VPrim v)
          | Some (Some (CArray refs)) =>
              let* results := alloc (mkObject (ArrayClass []) (ArrayPrototype host) []) in
              indexMap_push (VRef results) valueIndex ;;
              forM_ (fun ref => let* x := get fuel' ref in array_push results x) refs ;;
              ret (VRef results)
          | Some (Some (CObject prototype refs descriptions)) =>
              let* proto := get fuel' prototype in
              let* results := Object_create proto in
              indexMap_push (VRef results) valueIndex ;;
              deserializeProperties (get fuel') refs descriptions (VRef results) ;;
              ret (VRef results)
          | Some (Some (CFunction source closure prototype refs descriptions)) =>
              let* thunk :=
                alloc (mkObject (FunctionClass thunk_source Forwarding)
                         (FunctionPrototype host) []) in
              indexMap_push (VRef thunk) valueIndex ;;
              let* deserializedClosure := get fuel' closure in
              let* captured := for_in deserializedClosure in
              let capturedVarKeys := map fst captured in
              let capturedVarVals := map snd captured in
              let code := synthesize capturedVarKeys source in
              let* impl :=
                alloc (mkObject (FunctionClass source (Applied code capturedVarVals))
                         (FunctionPrototype host) []) in
              let* p := get fuel' prototype in
              put (VRef impl) "prototype" p ;;
              put (VRef thunk) "__impl" (VRef impl) ;;
              let* i := read impl in
              put (VRef thunk) "prototype" (get_property i "prototype") ;;
              deserializeProperties (get fuel') refs descriptions (VRef thunk) ;;
              ret (VRef thunk)
          | Some (Some (CBuiltin name)) =>
              match getBuiltinByName host name with
              | None => throw (unknown_builtin name)
              | Some builtin =>
                  indexMap_push builtin valueIndex ;;
                  ret builtin
              end
          | Some (Some (CDate text)) =>
              match JSON_parse_string text with
              | Some iso =>
                  let* result := alloc (mkObject (DateClass iso) (DatePrototype host) []) in
                  indexMap_push (VRef result) valueIndex ;;
                  ret (VRef result)
              | None => throw (SyntaxError "Unexpected token in JSON")
              end
          | Some (Some (CRegex literal)) =>
              let* result := alloc (mkObject (RegExpClass literal) (RegExpPrototype host) []) in
              indexMap_push (VRef result) valueIndex ;;
              ret (VRef result)
          | Some (Some (CUnrecognized kind)) =>
              throw (unrecognized_kind kind)
          | Some None | None =>
              throw (TypeError "Cannot read properties of undefined (reading 'kind')")
          end
      end
  end.

(** The accessor [root]. *)
Definition root (fuel : nat) : M value :=
  let* g := get_this in get fuel (rootIndex g).

End Methods.

(** ** Specifications of monadic computations *)

(** Partial correctness: [Q] holds of a returned value, [E] of a thrown
    error, each with the world it leaves. *)
Definition spec {A} (m : M A) (w : world)
    (Q : A -> world -> Prop) (E : error -> world -> Prop) : Prop :=
  match m w with
  | Return a w' => Q a w'
  | Throw e w' => E e w'
  | OutOfFuel => True
  end.

(** Total correctness: the computation returns, and [Q] holds. *)
Definition returns {A} (m : M A) (w : world) (Q : A -> world -> Prop) : Prop :=
  match m w with
  | Return a w' => Q a w'
  | _ => False
  end.

(** ** The descriptors a graph stores *)

Definition descriptions_of (c : content) : list (string * description) :=
  match c with
  | CFunction _ _ _ _ ds | CObject _ _ ds => ds
  | _ => []
  end.

(** No stored descriptor has a [writable] field. *)
Definition drops_writable (ds : list (string * description)) : Prop :=
  Forall (fun kd => d_writable (snd kd) = None) ds.

Definition graph_drops_writable (ca : list (option content)) : Prop :=
  Forall (fun slot =>
            match slot with
            | Some c => drops_writable (descriptions_of c)
            | None => True
            end) ca.

(** ** How the world evolves *)

(** The heap, the index map and the content array only grow at the end. *)
Definition extends (w w' : world) : Prop :=
  heap_of w `prefix_of` heap_of w'
  /\ indexMap (this w) `prefix_of` indexMap (this w')
  /\ contentArray (this w) `prefix_of` contentArray (this w').

(** Decoding moreover leaves the content array and the root index alone. *)
Definition decode_step (w w' : world) : Prop :=
  heap_of w `prefix_of` heap_of w'
  /\ indexMap (this w) `prefix_of` indexMap (this w')
  /\ contentArray (this w') = contentArray (this w)
  /\ rootIndex (this w') = rootIndex (this w).

(** What a decoding step started in [w0] with the table [im0] maintains,
    and what holds when it fails with an error of the class [P]. *)
Definition decode_frame (w0 : world) (im0 : list (value * nat)) (w : world) : Prop :=
  decode_step w0 w /\ im0 `prefix_of` indexMap (this w).

Definition decode_frame_error (w0 : world) (im0 : list (value * nat))
    (P : error -> Prop) (e : error) (w : world) : Prop :=
  decode_frame w0 im0 w /\ P e.

(** No record of the graph stores a [writable] field. *)
Definition no_writable (w : world) : Prop :=
  graph_drops_writable (contentArray (this w)).

#[global] Arguments put : simpl never.
#[global] Arguments array_push : simpl never.
#[global] Arguments defineProperty : simpl never.
#[global] Arguments for_in : simpl never.
#[global] Arguments Object_create : simpl never.
#[global] Arguments read : simpl never.
#[global] Arguments write : simpl never.
#[global] Arguments alloc : simpl never.
#[global] Arguments indexMap_push : simpl never.
#[global] Arguments set_contentArray : simpl never.
#[global] Arguments get_this : simpl never.
#[global] Arguments get_heap : simpl never.
#[global] Arguments call_closure : simpl never.
#[global] Arguments serializeProperties : simpl never.
#[global] Arguments deserializeProperties : simpl never.

(** ** The errors of the decoder *)

(** [e] is one of the two errors the decoder throws itself, and [data] holds
    the record that is its cause. *)
Definition bad_record (host : Host) (data : list (option content)) (e : error) : Prop :=
  exists i,
    (exists kind, data !! i = Some (Some (CUnrecognized kind))
                  /\ e = unrecognized_kind kind)
    \/ (exists name, data !! i = Some (Some (CBuiltin name))
                     /\ getBuiltinByName host name = None
                     /\ e = unknown_builtin name).

(** Errors of class [Error] (not the runtime's [TypeError] or
    [SyntaxError]) only come from such a record. *)
Definition error_sound (host : Host) (data : list (option content)) (e : error) : Prop :=
  forall message, e = Error message -> bad_record host data e.

(** ** A concrete host, for the examples

    The heap of a realm whose five intrinsic prototypes sit at the
    locations 0 to 4, and a registry that knows them by name. *)
Definition realm : heap :=
  [ mkObject ObjectClass (VPrim PNull) [];
    mkObject (ArrayClass []) (VRef 0) [];
    mkObject (FunctionClass "function () { [native code] }" Opaque) (VRef 0) [];
    mkObject ObjectClass (VRef 0) [];
    mkObject ObjectClass (VRef 0) [] ].

Definition registry : list (string * value) :=
  [ ("Object.prototype", VRef 0); ("Array.prototype", VRef 1);
    ("Function.prototype", VRef 2); ("Date.prototype", VRef 3);
    ("RegExp.prototype", VRef 4) ].

Fixpoint name_of (entries : list (string * value)) (v : value) : option string :=
  match entries with
  | [] => None
  | (name, builtin) :: rest =>
      if strict_equals builtin v then Some name else name_of rest v
  end.

Definition node : Host :=
  mkHost (name_of registry) (fun name => assoc_get name registry)
    (VRef 0) (VRef 1) (VRef 2) (VRef 3) (VRef 4).

(** A decode of the graph as it comes out of [fromJSON (toJSON g)]: same
    content and root, empty table. *)
Definition over_the_wire (w : world) : world :=
  mkWorld (heap_of w) (fromJSON (toJSON (this w))).

(** Serialize, send over the wire, read [root]. *)
Definition roundtrip (host : Host) (fuel : nat) (v : value) (h : heap) : outcome value :=
  match SerializedGraph_serialize host fuel v h with
  | Return _ w => root host fuel (over_the_wire w)
  | Throw e w => Throw e w
  | OutOfFuel => OutOfFuel
  end.

(** ** The claims the code does not meet, as the specification states them *)

(** "Each access of [root] walks from the stored root index using a table
    not shared with any prior encode or decode call on the same graph, and
    the graph is immutable once returned": an access that returns leaves the
    graph as it was, and returns what a decode with an empty table returns. *)
Definition root_is_private (host : Host) (fuel : nat) (w : world) : Prop :=
  forall v w', root host fuel w = Return v w' ->
    this w' = this w
    /\ exists w'', root host fuel (over_the_wire w) = Return v w''.

(** "Decoding raises an error exactly when it encounters a content record
    whose kind is not recognized or a builtin record whose name is absent
    from the registry": every error [root] raises has such a record as its
    cause. *)
Definition raises_only_for_bad_records (host : Host) (fuel : nat) (w : world) : Prop :=
  forall e w', root host fuel w = Throw e w' ->
    bad_record host (contentArray (this w)) e.

(** An empty array at location 5 of the realm. *)
Definition heap_with_empty_array : heap :=
  realm ++ [mkObject (ArrayClass []) (VRef 1) []].

(** The graph [serialize([])] leaves behind. *)
Definition serialized_empty_array : world :=
  mkWorld heap_with_empty_array
    (mkGraph [(VRef 5, 0)] 0 [Some (CArray [])]).

(** [{ root: 0, data: [] }] *)
Definition empty_graph : world := mkWorld realm (fromJSON (mkJSON 0 [])).

(** [{ root: 0, data: [{kind: 'array', refs: [1]},
                        {kind: 'builtin', name: 'nope'}] }] *)
Definition graph_with_unknown_builtin : world :=
  mkWorld realm (fromJSON (mkJSON 0 [Some (CArray [1]); Some (CBuiltin "nope")])).

(** ** Well-formed value graphs, and their size *)

(** The values an object refers to. *)
Definition property_values (p : property) : list value :=
  match p with
  | Data v _ _ _ => [v]
  | Accessor g s _ _ => [g; s]
  end.

Definition class_values (c : class) : list value :=
  match c with
  | ArrayClass elements => elements
  | FunctionClass _ (Snapshot vars) => map snd vars
  | FunctionClass _ (Applied _ args) => args
  | _ => []
  end.

Definition object_values (o : object) : list value :=
  prototype_of o :: class_values (class_of o)
    ++ flat_map (fun kp => property_values (snd kp)) (properties o).

(** [v] is a primitive or one of the objects [S]. *)
Definition within (S : list loc) (v : value) : Prop :=
  match v with
  | VPrim _ => True
  | VRef l => l ∈ S
  end.

(** [S] is a value graph of the heap: a set of objects of the heap that
    holds every object its members refer to.  Registered builtins are its
    leaves: what they refer to need not be in [S]. *)
Definition value_graph (host : Host) (h : heap) (S : list loc) : Prop :=
  forall l, l ∈ S ->
    exists o, h !! l = Some o
              /\ (getNameOfBuiltin host (VRef l) = None ->
                  Forall (within S) (object_values o)).

(** The closure-snapshot convention: where a function of the graph has a
    truthy [__closure], it is a snapshot accessor, and the variables it
    reports are values of the graph. *)
Definition follows_convention (h : heap) (S : list loc) : Prop :=
  forall l o source b,
    l ∈ S -> h !! l = Some o -> class_of o = FunctionClass source b ->
    truthy (get_property o "__closure") = true ->
    exists c f source' vars,
      get_property o "__closure" = VRef c
      /\ h !! c = Some f /\ class_of f = FunctionClass source' (Snapshot vars)
      /\ Forall (within S) (map snd vars).

(** A function weighs two identities: itself and the snapshot object that
    its accessor creates when the function is serialized. *)
Definition weight (h : heap) (l : loc) : nat :=
  match h !! l with
  | Some (mkObject (FunctionClass _ _) _ _) => 2
  | _ => 1
  end.

(** The number of distinct identities of the value graph [S]. *)
Definition identities (h : heap) (S : list loc) : nat :=
  sum_list (map (weight h) S).

Definition registered (im : list (value * nat)) (l : loc) : bool :=
  is_Some_b (find_element im (VRef l)).

(** The identities that [add] has not met yet. *)
Definition pending (h : heap) (im : list (value * nat)) (S : list loc) : nat :=
  sum_list (map (fun l => if registered im l then 0 else weight h l) S).

(** What [serialize] asks of its input: [S] is a value graph that holds the
    value and [Object.prototype], and follows the closure-snapshot
    convention. *)
Definition representable (host : Host) (h : heap) (S : list loc) (v : value) : Prop :=
  value_graph host h S /\ follows_convention h S
  /\ within S (ObjectPrototype host) /\ within S v.

(** The invariant of the encoder's recursion: some value graph [S] that
    extends [S0] is well formed, and at most [n] of its identities are
    pending. *)
Definition good (host : Host) (h : heap) (S : list loc) : Prop :=
  value_graph host h S /\ follows_convention h S /\ within S (ObjectPrototype host).

Definition Inv (host : Host) (n : nat) (S0 : list loc) (w : world) : Prop :=
  exists S, good host (heap_of w) S /\ S0 ⊆ S
            /\ pending (heap_of w) (indexMap (this w)) S <= n.

(** A function [() => x] at location 5 that captures [x = 5]; its
    [__closure] accessor is at location 6. *)
Definition five : value := VPrim (PNumber (Num 5)).

Definition heap_with_closure : heap :=
  realm ++
  [ mkObject (FunctionClass "() => x" Opaque) (VRef 2)
      [ ("length", Data (VPrim (PNumber (Num 0))) false false true);
        ("name", Data (VPrim (PString "f")) false false true);
        ("__closure", Data (VRef 6) true true true) ];
    mkObject (FunctionClass "() => ({ x })" (Snapshot [("x", five)])) (VRef 2)
      [ ("length", Data (VPrim (PNumber (Num 0))) false false true);
        ("name", Data (VPrim (PString "")) false false true) ] ].

(** ** Inputs on which the decoder goes wrong *)

(** [o = {}; Object.defineProperty(o, 'self', { value: o, writable: true,
    enumerable: false, configurable: true })], with [o] at location 5. *)
Definition heap_with_hidden_self : heap :=
  realm ++ [mkObject ObjectClass (VRef 0) [("self", Data (VRef 5) true false true)]].

(** [o = {}; Object.defineProperty(o, 'hidden', { value: 1, writable: true,
    enumerable: false, configurable: true })], with [o] at location 5. *)
Definition heap_with_hidden_writable : heap :=
  realm ++ [mkObject ObjectClass (VRef 0)
              [("hidden", Data (VPrim (PNumber (Num 1))) true false true)]].

(** [P = {}; o = Object.create(P); P.back = o], with [o] at location 5 and
    [P] at location 6. *)
Definition heap_with_back_pointer : heap :=
  realm ++ [ mkObject ObjectClass (VRef 6) [];
             mkObject ObjectClass (VRef 0) [("back", Data (VRef 5) true true true)] ].

(** [o = { __closure: 1 }], with [o] at location 5. *)
Definition heap_with_closure_key : heap :=
  realm ++ [mkObject ObjectClass (VRef 0)
              [("__closure", Data (VPrim (PNumber (Num 1))) true true true)]].

(** [o = {}; o.__closure = o], with [o] at location 5. *)
Definition heap_with_closure_self : heap :=
  realm ++ [mkObject ObjectClass (VRef 0)
              [("__closure", Data (VRef 5) true true true)]].

(** What an outcome returned, and the heap and graph it left. *)
Definition returned {A} (o : outcome A) : option A :=
  match o with Return a _ => Some a | _ => None end.

Definition final_heap {A} (o : outcome A) : heap :=
  match o with Return _ w | Throw _ w => heap_of w | OutOfFuel => [] end.

Definition final_graph {A} (o : outcome A) : option SerializedGraph :=
  match o with Return _ w | Throw _ w => Some (this w) | OutOfFuel => None end.

(** ** Plain data and its shape *)

(** The shape of a value built from primitives, arrays and plain objects.
    [SRoot] stands for a reference back to the root value; a shape without
    [SRoot] is a JSON document. *)
#[warnings="-register-all"] Inductive shape :=
| SPrim (p : prim)
| SArray (items : list shape)
| SObject (fields : list (string * shape))
| SRoot.

Fixpoint size (s : shape) : nat :=
  match s with
  | SPrim _ | SRoot => 1
  | SArray items => S (list_sum (map size items))
  | SObject fields => S (list_sum (map (fun kf => size (snd kf)) fields))
  end.

Fixpoint depth (s : shape) : nat :=
  match s with
  | SPrim _ | SRoot => 0
  | SArray items => S (list_max (map depth items))
  | SObject fields => S (list_max (map (fun kf => depth (snd kf)) fields))
  end.

(** The primitives on which [===] is the identity: every one but [NaN] and
    the negative zero, which JSON cannot write down either. *)
Definition plain_prim (p : prim) : bool :=
  match p with
  | PNumber NaN | PNumber NegZero => false
  | _ => true
  end.

(** The own properties of an object literal: each one a configurable,
    writable, enumerable data property. *)
Definition plain_props (kvs : list (string * value)) : list (string * property) :=
  map (fun kv => (fst kv, Data (snd kv) true true true)) kvs.

(** Keys that a plain object may have: distinct, and none is the reserved
    [__closure]. *)
Definition good_keys (keys : list string) : Prop :=
  NoDup keys /\ ~ In "__closure" keys.

(** [represents host root P h v s]: in the heap [h], the value [v] has the
    shape [s].  References to the object [root] are the leaves [SRoot]; every
    other object met is an array literal or an object literal that is not a
    registered builtin, and is none of the objects [P]. *)
#[warnings="-register-all"] Inductive represents (host : Host) (root : option loc) (P : list loc) (h : heap)
  : value -> shape -> Prop :=
| rep_prim p :
    plain_prim p = true -> represents host root P h (VPrim p) (SPrim p)
| rep_root l :
    root = Some l -> represents host root P h (VRef l) SRoot
| rep_array l elements items :
    root <> Some l -> ~ In l P -> getNameOfBuiltin host (VRef l) = None ->
    h !! l = Some (mkObject (ArrayClass elements) (ArrayPrototype host) []) ->
    Forall2 (represents host root P h) elements items ->
    represents host root P h (VRef l) (SArray items)
| rep_object l kvs fields :
    root <> Some l -> ~ In l P -> getNameOfBuiltin host (VRef l) = None ->
    h !! l = Some (mkObject ObjectClass (ObjectPrototype host) (plain_props kvs)) ->
    map fst kvs = map fst fields -> good_keys (map fst fields) ->
    Forall2 (represents host root P h) (map snd kvs) (map snd fields) ->
    represents host root P h (VRef l) (SObject fields).

(** The root itself: an array or a plain object whose members have the given
    shapes, [SRoot] standing for the root. *)
Definition rooted (host : Host) (h : heap) (l : loc) (s : shape) : Prop :=
  getNameOfBuiltin host (VRef l) = None
  /\ match s with
     | SArray items =>
         exists elements,
           h !! l = Some (mkObject (ArrayClass elements) (ArrayPrototype host) [])
           /\ Forall2 (represents host (Some l) [] h) elements items
     | SObject fields =>
         exists kvs,
           h !! l = Some (mkObject ObjectClass (ObjectPrototype host) (plain_props kvs))
           /\ map fst kvs = map fst fields /\ good_keys (map fst fields)
           /\ Forall2 (represents host (Some l) [] h) (map snd kvs) (map snd fields)
     | _ => False
     end.

(** [describes host iroot Q data i s]: in the content array, the record at
    index [i] has the shape [s].  The index [iroot] is the leaf [SRoot]; no
    other index met is in [Q]. *)
#[warnings="-register-all"] Inductive describes (host : Host) (iroot : option nat) (Q : list nat)
    (data : list (option content)) : nat -> shape -> Prop :=
| d_prim i p :
    iroot <> Some i -> ~ In i Q -> plain_prim p = true ->
    data !! i = Some (Some (CPrimitive p)) ->
    describes host iroot Q data i (SPrim p)
| d_builtin i name p :
    iroot <> Some i -> ~ In i Q -> plain_prim p = true ->
    data !! i = Some (Some (CBuiltin name)) ->
    getBuiltinByName host name = Some (VPrim p) ->
    describes host iroot Q data i (SPrim p)
| d_root i :
    iroot = Some i -> describes host iroot Q data i SRoot
| d_array i refs items :
    iroot <> Some i -> ~ In i Q ->
    data !! i = Some (Some (CArray refs)) ->
    Forall2 (describes host iroot Q data) refs items ->
    describes host iroot Q data i (SArray items)
| d_object i prototype name krefs fields :
    iroot <> Some i -> ~ In i Q ->
    data !! i = Some (Some (CObject prototype krefs [])) ->
    data !! prototype = Some (Some (CBuiltin name)) ->
    getBuiltinByName host name = Some (ObjectPrototype host) ->
    map fst krefs = map fst fields -> good_keys (map fst fields) ->
    Forall2 (describes host iroot Q data) (map snd krefs) (map snd fields) ->
    describes host iroot Q data i (SObject fields).

(** What the theorems on plain data ask of the registry: names lead back to
    the values they were given to, and [Object.prototype] is a registered
    object. *)
Definition well_behaved (host : Host) : Prop :=
  (forall v name, getNameOfBuiltin host v = Some name ->
                  getBuiltinByName host name = Some v)
  /\ (exists name, getNameOfBuiltin host (ObjectPrototype host) = Some name)
  /\ (exists l, ObjectPrototype host = VRef l).

(** A relation on heaps under which shapes persist: the objects outside
    [P], other than the root, stay as they are. *)
Definition agree (root : option loc) (P : list loc) (h h' : heap) : Prop :=
  forall l o, ~ In l P -> root <> Some l -> h !! l = Some o -> h' !! l = Some o.

(** The filled slots of [data] are filled alike in [data']. *)
Definition filled_alike (data data' : list (option content)) : Prop :=
  forall i c, data !! i = Some (Some c) -> data' !! i = Some (Some c).

Definition in_progress (P : list loc) (v : value) : Prop :=
  match v with
  | VRef l => In l P
  | VPrim _ => False
  end.

(** The invariant of the encoder on plain data.  The heap is the one it
    started in.  A value the table knows, unless it is the root or one of
    the objects [P] whose record is still under construction, has a record
    that describes its shape.  [Object.prototype], once met, has a builtin
    record.  The root, when there is one, is in the table at [iroot]. *)
Definition EncInv (host : Host) (h : heap) (root : option loc) (iroot : option nat)
    (P : list loc) (w : world) : Prop :=
  heap_of w = h
  /\ (forall v i s,
        find_element (indexMap (this w)) v = Some i -> ~ in_progress P v ->
        represents host root [] h v s -> s <> SRoot ->
        describes host iroot [] (contentArray (this w)) i s)
  /\ (forall i,
        find_element (indexMap (this w)) (ObjectPrototype host) = Some i ->
        exists name,
          contentArray (this w) !! i = Some (Some (CBuiltin name))
          /\ getBuiltinByName host name = Some (ObjectPrototype host))
  /\ (forall l, root = Some l ->
        exists ir, iroot = Some ir
                   /\ find_element (indexMap (this w)) (VRef l) = Some ir)
  /\ (forall ir, iroot = Some ir -> ir < length (contentArray (this w)))
  /\ (forall v i, find_element (indexMap (this w)) v = Some i ->
                  i < length (contentArray (this w))).

(** What [add] achieves on a value of shape [s]: the index it returns
    describes [s], and the invariant holds again. *)
Definition enc_post (host : Host) (h : heap) (root : option loc) (iroot : option nat)
    (P : list loc) (s : shape) (w : world) (i : nat) (w' : world) : Prop :=
  describes host iroot [] (contentArray (this w')) i s
  /\ EncInv host h root iroot P w' /\ extends w w'.

(** The invariant of the decoder on plain data.  An index the table knows,
    unless it is the root index or one of the indices [Q] whose value is
    still under construction, leads to a value of the shape its record
    describes; this value keeps clear of the objects [P] under construction.
    A builtin record leads to the builtin.  The root index, when there is
    one, leads to the root object.  The registry names no object that is yet
    to be created. *)
Definition DecInv (host : Host) (data : list (option content))
    (root' : option loc) (iroot : option nat)
    (P : list loc) (Q : list nat) (w : world) : Prop :=
  contentArray (this w) = data
  /\ (forall i e s,
        find_index (indexMap (this w)) i = Some e -> ~ In i Q ->
        describes host iroot [] data i s -> s <> SRoot ->
        represents host root' P (heap_of w) e s)
  /\ (forall i e name,
        find_index (indexMap (this w)) i = Some e ->
        data !! i = Some (Some (CBuiltin name)) ->
        getBuiltinByName host name = Some e)
  /\ (forall ir, iroot = Some ir ->
        exists r, root' = Some r
                  /\ find_index (indexMap (this w)) ir = Some (VRef r))
  /\ (forall l, In l P -> l < length (heap_of w))
  /\ (forall r, root' = Some r -> r < length (heap_of w))
  /\ (forall l, length (heap_of w) <= l -> getNameOfBuiltin host (VRef l) = None).

(** How the decoder changes the world while it builds a value: the objects
    outside [P], other than the root, stay as they are, the heap does not
    shrink and the table only grows. *)
Definition dec_rel (root' : option loc) (P : list loc) (w w' : world) : Prop :=
  agree root' P (heap_of w) (heap_of w')
  /\ length (heap_of w) <= length (heap_of w')
  /\ indexMap (this w) `prefix_of` indexMap (this w').

Definition dec_post (host : Host) (data : list (option content))
    (root' : option loc) (iroot : option nat)
    (P : list loc) (Q : list nat) (s : shape) (w : world) (v : value) (w' : world)
  : Prop :=
  represents host root' P (heap_of w') v s
  /\ DecInv host data root' iroot P Q w' /\ decode_step w w'.

(** The record at the root index [i]: an array or object record whose
    members have the given shapes, [SRoot] standing for [i]. *)
Definition describes_rooted (host : Host) (data : list (option content))
    (i : nat) (s : shape) : Prop :=
  match s with
  | SArray items =>
      exists refs,
        data !! i = Some (Some (CArray refs))
        /\ Forall2 (describes host (Some i) [] data) refs items
  | SObject fields =>
      exists prototype name krefs,
        data !! i = Some (Some (CObject prototype krefs []))
        /\ data !! prototype = Some (Some (CBuiltin name))
        /\ getBuiltinByName host name = Some (ObjectPrototype host)
        /\ map fst krefs = map fst fields /\ good_keys (map fst fields)
        /\ Forall2 (describes host (Some i) [] data) (map snd krefs) (map snd fields)
  | _ => False
  end.

(** The registry names objects of the heap only. *)
Definition names_within (host : Host) (h : heap) : Prop :=
  forall l name, getNameOfBuiltin host (VRef l) = Some name -> l < length h.

(** ** The round-trip claims, as the specification states them *)

(** A JSON document in the heap: primitives, array literals and object
    literals, nested without cycles. *)
#[warnings="-register-all"] Inductive json_value (host : Host) (h : heap) : value -> Prop :=
| jv_prim p :
    plain_prim p = true -> json_value host h (VPrim p)
| jv_array l elements :
    h !! l = Some (mkObject (ArrayClass elements) (ArrayPrototype host) []) ->
    Forall (json_value host h) elements ->
    json_value host h (VRef l)
| jv_object l kvs :
    h !! l = Some (mkObject ObjectClass (ObjectPrototype host) (plain_props kvs)) ->
    NoDup (map fst kvs) ->
    Forall (json_value host h) (map snd kvs) ->
    json_value host h (VRef l).

(** Deep equality of a value of one heap and a value of another: the same
    primitive, or arrays whose elements are deep-equal in order, or objects
    that have the same keys and deep-equal values under them. *)
#[warnings="-register-all"] Inductive deep_equal (h h' : heap) : value -> value -> Prop :=
| de_prim p : deep_equal h h' (VPrim p) (VPrim p)
| de_array l l' elements elements' proto proto' :
    h !! l = Some (mkObject (ArrayClass elements) proto []) ->
    h' !! l' = Some (mkObject (ArrayClass elements') proto' []) ->
    Forall2 (deep_equal h h') elements elements' ->
    deep_equal h h' (VRef l) (VRef l')
| de_object l l' kvs kvs' proto proto' :
    h !! l = Some (mkObject ObjectClass proto (plain_props kvs)) ->
    h' !! l' = Some (mkObject ObjectClass proto' (plain_props kvs')) ->
    map fst kvs = map fst kvs' ->
    Forall2 (deep_equal h h') (map snd kvs) (map snd kvs') ->
    deep_equal h h' (VRef l) (VRef l').

(** "For every JSON-representable value [v] ..., decoding the graph produced
    by serializing [v] yields a value deep-equal to [v]". *)
Definition round_trip_is_deep_equal (host : Host) (h : heap) (v : value) : Prop :=
  json_value host h v ->
  exists fuel v' w',
    roundtrip host fuel v h = Return v' w' /\ deep_equal h (heap_of w') v v'.

(** "For every ... self-referential object (an own attribute pointing back
    to the object) ... the reconstructed value exhibits the same
    self-reference ([result.attr === result])". *)
Definition self_reference_preserved (host : Host) (h : heap) (l : loc) (attr : string)
  : Prop :=
  (exists o, h !! l = Some o /\ get_property o attr = VRef l) ->
  exists fuel l' w' o',
    roundtrip host fuel (VRef l) h = Return (VRef l') w'
    /\ heap_of w' !! l' = Some o' /\ get_property o' attr = VRef l'.

(** [[1, { a: 'x', b: [true, null] }]], the array at location 5. *)
Definition heap_with_document : heap :=
  realm ++
  [ mkObject (ArrayClass [VPrim (PNumber (Num 1)); VRef 6]) (VRef 1) [];
    mkObject ObjectClass (VRef 0)
      (plain_props [("a", VPrim (PString "x")); ("b", VRef 7)]);
    mkObject (ArrayClass [VPrim (PBoolean true); VPrim PNull]) (VRef 1) [] ].

Definition document : shape :=
  SArray [ SPrim (PNumber (Num 1));
           SObject [ ("a", SPrim (PString "x"));
                     ("b", SArray [SPrim (PBoolean true); SPrim PNull]) ] ].

(** [a = [1]; a.push(a); a.push({ me: a })], the array at location 5. *)
Definition heap_with_self_array : heap :=
  realm ++
  [ mkObject (ArrayClass [VPrim (PNumber (Num 1)); VRef 5; VRef 6]) (VRef 1) [];
    mkObject ObjectClass (VRef 0) (plain_props [("me", VRef 5)]) ].

Definition self_array : shape :=
  SArray [SPrim (PNumber (Num 1)); SRoot; SObject [("me", SRoot)]].

(** [o = { n: 1 }; o.self = o], the object at location 5. *)
Definition heap_with_self_object : heap :=
  realm ++
  [ mkObject ObjectClass (VRef 0)
      (plain_props [("n", VPrim (PNumber (Num 1))); ("self", VRef 5)]) ].

Definition self_object : shape :=
  SObject [("n", SPrim (PNumber (Num 1))); ("self", SRoot)].

(** ** Closures *)

(** An own property that holds a primitive, whatever its flags. *)
Definition primitive_property (p : property) : Prop :=
  exists q w e c, p = Data (VPrim q) w e c /\ plain_prim q = true.

(** [closure_function host h l source vars fields]: the object [l] is a
    function with the source text [source] that follows the closure-snapshot
    convention: its [__closure] is a snapshot accessor that reports the
    captured variables [vars], plain data of the shapes [fields] in which the
    function itself may occur ([SRoot]).  Its other own properties ([length],
    [name], ...) hold primitives; it has no own [prototype], as is the case
    for arrow functions and methods. *)
Definition closure_function (host : Host) (h : heap) (l : loc) (source : string)
    (vars : list (string * value)) (fields : list (string * shape)) : Prop :=
  getNameOfBuiltin host (VRef l) = None
  /\ exists b proto props c source' proto' props',
       h !! l = Some (mkObject (FunctionClass source b) proto props)
       /\ NoDup (map fst props)
       /\ ~ In "prototype" (map fst props) /\ ~ In "__impl" (map fst props)
       /\ get_property (mkObject (FunctionClass source b) proto props) "__closure" = VRef c
       /\ Forall (fun kp => fst kp = "__closure" \/ primitive_property (snd kp)) props
       /\ h !! c = Some (mkObject (FunctionClass source' (Snapshot vars)) proto' props')
       /\ map fst vars = map fst fields /\ good_keys (map fst fields)
       /\ Forall2 (represents host (Some l) [] h) (map snd vars) (map snd fields).

(** The records of primitive-valued properties. *)
Definition primitive_index (host : Host) (data : list (option content)) (i : nat) : Prop :=
  exists q, describes host (Some 0) [] data i (SPrim q).

Definition primitive_description (host : Host) (data : list (option content))
    (d : description) : Prop :=
  d_get d = None /\ d_set d = None
  /\ exists i, d_value d = Some i /\ primitive_index host data i.

Definition primitive_records (host : Host) (data : list (option content))
    (refs : list (string * nat)) (descriptions : list (string * description)) : Prop :=
  Forall (fun ki => primitive_index host data (snd ki)) refs
  /\ Forall (fun kd => primitive_description host data (snd kd)) descriptions.

(** The record of such a function at the root index 0: the source text, the
    record of the snapshot object, no prototype, and the records of the
    other properties. *)
Definition describes_closure (host : Host) (data : list (option content))
    (source : string) (fields : list (string * shape)) : Prop :=
  exists closure prototype refs descriptions,
    data !! 0 = Some (Some (CFunction source closure prototype refs descriptions))
    /\ describes host (Some 0) [] data closure (SObject fields)
    /\ describes host (Some 0) [] data prototype (SPrim PUndefined)
    /\ NoDup ("__impl" :: "prototype" :: map fst refs ++ map fst descriptions)
    /\ primitive_records host data refs descriptions.

(** What the decoder makes of it: the object [t] is a function that forwards
    its calls to its property [__impl]; [__impl] is the function that
    results from evaluating the fragment synthesized from the names of the
    captured variables and the source text, applied to values [vals] of the
    shapes the captured variables had, in the same order.  Where a captured
    variable held the function itself, it now holds [t]. *)
Definition decoded_closure (host : Host) (h : heap) (t : loc) (source : string)
    (fields : list (string * shape)) : Prop :=
  exists impl tprops iprops vals,
    h !! t = Some (mkObject (FunctionClass thunk_source Forwarding)
                     (FunctionPrototype host) tprops)
    /\ assoc_get "__impl" tprops = Some (Data (VRef impl) true true true)
    /\ h !! impl
       = Some (mkObject
                 (FunctionClass source
                    (Applied (synthesize (map fst fields) source) vals))
                 (FunctionPrototype host) iprops)
    /\ Forall2 (represents host (Some t) [impl] h) vals (map snd fields).

(** What holds while the decoder fills the function [t] whose
    implementation is [impl]: the invariant of the decoder; [t] is the
    forwarding function, its [__impl] is [impl], its keys are [keys]; the
    object [impl] is [iobj]; the other objects of [h0] are as they were. *)
Definition thunk_inv (host : Host) (data : list (option content)) (t impl : loc)
    (iobj : object) (h0 : heap) (keys : list string) (w : world) : Prop :=
  DecInv host data (Some t) (Some 0) [impl] [] w
  /\ (exists tprops,
        heap_of w !! t
        = Some (mkObject (FunctionClass thunk_source Forwarding)
                  (FunctionPrototype host) tprops)
        /\ assoc_get "__impl" tprops = Some (Data (VRef impl) true true true)
        /\ map fst tprops = keys)
  /\ heap_of w !! impl = Some iobj
  /\ agree (Some t) [impl] h0 (heap_of w).

(** ** The graph that [serialize] returns *)

(** The indices a record holds. *)
Definition description_indices (d : description) : list nat :=
  option_list (d_get d) ++ option_list (d_set d) ++ option_list (d_value d).

Definition content_indices (c : content) : list nat :=
  match c with
  | CArray refs => refs
  | CFunction _ closure prototype refs ds =>
      closure :: prototype :: map snd refs
        ++ flat_map (fun kd => description_indices (snd kd)) ds
  | CObject prototype refs ds =>
      prototype :: map snd refs
        ++ flat_map (fun kd => description_indices (snd kd)) ds
  | _ => []
  end.

(** A record of one of the seven kinds; a builtin record holds a name that
    the registry has given to some value. *)
Definition recognized (host : Host) (c : content) : Prop :=
  match c with
  | CUnrecognized _ => False
  | CBuiltin name => exists v, getNameOfBuiltin host v = Some name
  | _ => True
  end.

(** A record fit for a content array of [n] slots. *)
Definition good_record (host : Host) (n : nat) (c : content) : Prop :=
  Forall (fun j => j < n) (content_indices c) /\ recognized host c.

(** A closed graph: the root index and every index in a record point to a
    slot of the content array, and every slot holds a record. *)
Definition closed_graph (host : Host) (g : SerializedGraph) : Prop :=
  rootIndex g < length (contentArray g)
  /\ forall i, i < length (contentArray g) ->
       exists c, contentArray g !! i = Some (Some c)
                 /\ good_record host (length (contentArray g)) c.

(** While the encoder runs: the records written so far are good, and the
    table holds indices of slots. *)
Definition bounded (host : Host) (w : world) : Prop :=
  (forall i c, contentArray (this w) !! i = Some (Some c) ->
               good_record host (length (contentArray (this w))) c)
  /\ Forall (fun ei => snd ei < length (contentArray (this w))) (indexMap (this w)).

(** From [w] to [w'] the world has grown, and the slots added hold
    records. *)
Definition settled (w w' : world) : Prop :=
  extends w w'
  /\ forall j, length (contentArray (this w)) <= j ->
               j < length (contentArray (this w')) ->
               exists c, contentArray (this w') !! j = Some (Some c).

(** The table of the encoder: the entry number [k] has the index [k], there
    are as many entries as slots, and no two elements are [===]. *)
Definition table_aligned (g : SerializedGraph) : Prop :=
  map snd (indexMap g) = seq 0 (length (contentArray g)).

Definition table_distinct (g : SerializedGraph) : Prop :=
  forall p q e e' i i',
    p < q -> indexMap g !! p = Some (e, i) -> indexMap g !! q = Some (e', i') ->
    strict_equals e e' = false.

(** ** Functions without a snapshot, prototype cycles *)

(** A function whose [__closure] is absent or falsy; its other own
    properties hold primitives and it has no own [prototype]. *)
Definition closureless_function (host : Host) (h : heap) (l : loc) (source : string)
  : Prop :=
  getNameOfBuiltin host (VRef l) = None
  /\ exists b proto props,
       h !! l = Some (mkObject (FunctionClass source b) proto props)
       /\ NoDup (map fst props)
       /\ ~ In "prototype" (map fst props) /\ ~ In "__impl" (map fst props)
       /\ truthy (get_property (mkObject (FunctionClass source b) proto props)
                    "__closure") = false
       /\ Forall (fun kp => fst kp = "__closure" \/ primitive_property (snd kp)) props.

(** A set of indices of object records, none of them in the table, that
    holds the prototype index of each of its members. *)
Definition prototype_cycle (g : SerializedGraph) (cyc : list nat) : Prop :=
  forall j, In j cyc ->
    find_index (indexMap g) j = None
    /\ exists prototype refs descriptions,
         contentArray g !! j = Some (Some (CObject prototype refs descriptions))
         /\ In prototype cyc.

(** ** The table of the decoder *)

(** A slot with a primitive or a builtin record. *)
Definition leaf_record (slot : option (option content)) : Prop :=
  match slot with
  | Some (Some (CPrimitive _)) | Some (Some (CBuiltin _)) => True
  | _ => False
  end.

(** The record at [i] is one that the decoder enters in its table before it
    decodes any other record that could lead back to [i]: any record but an
    object record, or an object record whose prototype is another record,
    a primitive or a builtin one ([null], [Object.prototype], ...). *)
Definition registers_first (data : list (option content)) (i : nat) : Prop :=
  match data !! i with
  | Some (Some (CObject prototype _ _)) =>
      prototype <> i /\ leaf_record (data !! prototype)
  | _ => True
  end.

(** ** Prototype links *)

(** A prototype that the graph can hold: [null], or an object that the
    registry knows by name. *)
Definition prototype_known (host : Host) (proto : value) : Prop :=
  match proto with
  | VPrim PNull => True
  | VRef _ => is_Some (getNameOfBuiltin host proto)
  | VPrim _ => False
  end.

(** The record of [proto]: the primitive [null], or a builtin record whose
    name leads to [proto]. *)
Definition prototype_record (host : Host) (proto : value) (c : content) : Prop :=
  (c = CPrimitive PNull /\ proto = VPrim PNull)
  \/ exists name, c = CBuiltin name /\ getBuiltinByName host name = Some proto.

(** The records of a plain object with the prototype [proto] at the root
    index 0: the prototype has the index 1. *)
Definition describes_with_prototype (host : Host) (data : list (option content))
    (proto : value) (fields : list (string * shape)) : Prop :=
  exists krefs c,
    data !! 0 = Some (Some (CObject 1 krefs []))
    /\ data !! 1 = Some (Some c) /\ prototype_record host proto c
    /\ map fst krefs = map fst fields /\ good_keys (map fst fields)
    /\ Forall2 (describes host (Some 0) [] data) (map snd krefs) (map snd fields).

(** What the loop of [get] over the indices of an array record has built
    after the indices [dn]: the array [r] holds one element for each, and an
    element whose record is entered in the table first is the entry that
    the table holds for its index. *)
Definition built (host : Host) (data : list (option content)) (r : loc)
    (dn : list nat) (w : world) : Prop :=
  exists es,
    heap_of w !! r = Some (mkObject (ArrayClass es) (ArrayPrototype host) [])
    /\ length es = length dn
    /\ forall p i, dn !! p = Some i -> registers_first data i ->
                   exists x, es !! p = Some x
                             /\ find_index (indexMap (this w)) i = Some x.

(** ** Property descriptors *)

(** A data property that is configurable, writable and enumerable: the
    "typical property" of [serializeProperties]. *)
Definition is_plain (p : property) : bool :=
  match p with
  | Data _ w e c => c && w && e
  | Accessor _ _ _ _ => false
  end.

(** What becomes of a data property: it keeps its value and its
    [enumerable] and [configurable] flags, and it stays writable only if it
    is a typical property. *)
Definition decoded_property (p : property) : property :=
  match p with
  | Data v w e c => Data v (c && w && e) e c
  | Accessor g s e c => Accessor g s e c
  end.

Definition decoded_entry (kp : string * property) : string * property :=
  (fst kp, decoded_property (snd kp)).

(** The own properties of the decoded object: the typical ones in their
    order, then the others in their order. *)
Definition decoded_properties (props : list (string * property))
  : list (string * property) :=
  map decoded_entry
    (List.filter (fun kp => is_plain (snd kp)) props
       ++ List.filter (fun kp => negb (is_plain (snd kp))) props).

(** The entry of [refs] for a typical property that holds a primitive, and
    the entry of [descriptions] for another property that holds one. *)
Definition encodes_plain (host : Host) (data : list (option content))
    (kp : string * property) (ki : string * nat) : Prop :=
  fst ki = fst kp
  /\ exists q, snd kp = Data (VPrim q) true true true
               /\ describes host (Some 0) [] data (snd ki) (SPrim q).

Definition encodes_fancy (host : Host) (data : list (option content))
    (kp : string * property) (kd : string * description) : Prop :=
  fst kd = fst kp
  /\ exists q w e c i,
       snd kp = Data (VPrim q) w e c /\ c && w && e = false
       /\ snd kd = mkDescription None None (Some i) (Some c) None (Some e)
       /\ describes host (Some 0) [] data i (SPrim q).

(** The records of an object with the prototype [proto] and the own
    properties [props], primitives all, at the root index 0. *)
Definition describes_properties (host : Host) (data : list (option content))
    (proto : value) (props : list (string * property)) : Prop :=
  exists refs descs c,
    data !! 0 = Some (Some (CObject 1 refs descs))
    /\ data !! 1 = Some (Some c) /\ prototype_record host proto c
    /\ NoDup (map fst refs ++ map fst descs)
    /\ Forall2 (encodes_plain host data)
         (List.filter (fun kp => is_plain (snd kp)) props) refs
    /\ Forall2 (encodes_fancy host data)
         (List.filter (fun kp => negb (is_plain (snd kp))) props) descs.

(** * Proofs *)

(** ** Rules for [spec] and [returns] *)

Lemma spec_ret {A} (a : A) w Q E : Q a w -> spec (ret a) w Q E.
Proof. done. Qed.

Lemma spec_throw {A} e w (Q : A -> world -> Prop) (E : error -> world -> Prop) :
  E e w -> spec (throw e) w Q E.
Proof. done. Qed.

Lemma spec_bind {A B} (m : M A) (k : A -> M B) w Q E :
  spec m w (fun a w' => spec (k a) w' Q E) E -> spec (bind m k) w Q E.
Proof. unfold spec, bind. by destruct (m w). Qed.

Lemma spec_mono {A} (m : M A) w (Q Q' : A -> world -> Prop) (E E' : error -> world -> Prop) :
  spec m w Q E ->
  (forall a w', Q a w' -> Q' a w') -> (forall e w', E e w' -> E' e w') ->
  spec m w Q' E'.
Proof. unfold spec. destruct (m w); auto. Qed.

Lemma returns_ret {A} (a : A) w Q : Q a w -> returns (ret a) w Q.
Proof. done. Qed.

Lemma returns_bind {A B} (m : M A) (k : A -> M B) w Q :
  returns m w (fun a w' => returns (k a) w' Q) -> returns (bind m k) w Q.
Proof. unfold returns, bind. by destruct (m w). Qed.

Lemma returns_mono {A} (m : M A) w (Q Q' : A -> world -> Prop) :
  returns m w Q -> (forall a w', Q a w' -> Q' a w') -> returns m w Q'.
Proof. unfold returns. destruct (m w); auto. Qed.

Lemma returns_inv {A} (m : M A) w Q :
  returns m w Q -> exists a w', m w = Return a w' /\ Q a w'.
Proof. unfold returns. destruct (m w); [eauto | done | done]. Qed.

Lemma returns_intro {A} (m : M A) w a w' (Q : A -> world -> Prop) :
  m w = Return a w' -> Q a w' -> returns m w Q.
Proof. unfold returns. by intros ->. Qed.

Lemma returns_spec {A} (m : M A) w Q Q' E :
  returns m w Q -> spec m w Q' E -> returns m w (fun a w' => Q a w' /\ Q' a w').
Proof. unfold returns, spec. destruct (m w); auto. Qed.

(** Loops.  [I] is an invariant of the world; [R] relates the world a step
    starts in to the one it leaves. *)
Section Loops.
Context {A B : Type}.
Variable I : world -> Prop.
Variable R : world -> world -> Prop.
Hypothesis R_refl : forall w, R w w.
Hypothesis R_trans : forall w1 w2 w3, R w1 w2 -> R w2 w3 -> R w1 w3.

Lemma mapM_returns (f : A -> M B) xs w :
  I w ->
  (forall x w', x ∈ xs -> I w' -> R w w' ->
     returns (f x) w' (fun _ w'' => I w'' /\ R w' w'')) ->
  returns (mapM f xs) w (fun ys w' => I w' /\ R w w' /\ length ys = length xs).
Proof.
  revert w. induction xs as [|x xs IH]; intros w HI Hf; simpl.
  - apply returns_ret. auto.
  - apply returns_bind.
    eapply returns_mono; [apply Hf; [left | done | done] |].
    intros y w1 [HI1 HR1]. simpl. apply returns_bind.
    eapply returns_mono.
    { apply IH; [done |]. intros x' w' Hx' HI' HR'.
      apply Hf; [by right | done | by eapply R_trans]. }
    intros ys w2 (HI2 & HR2 & Hlen). apply returns_ret.
    split; [done |]. split; [by eapply R_trans | simpl; by rewrite Hlen].
Qed.

Lemma foldM_returns (f : B -> A -> M B) xs acc w :
  I w ->
  (forall x acc' w', x ∈ xs -> I w' -> R w w' ->
     returns (f acc' x) w' (fun _ w'' => I w'' /\ R w' w'')) ->
  returns (foldM f acc xs) w (fun _ w' => I w' /\ R w w').
Proof.
  revert w acc. induction xs as [|x xs IH]; intros w acc HI Hf; simpl.
  - apply returns_ret. auto.
  - apply returns_bind.
    eapply returns_mono; [apply Hf; [left | done | done] |].
    intros y w1 [HI1 HR1]. simpl.
    eapply returns_mono.
    { apply IH; [done |]. intros x' acc' w' Hx' HI' HR'.
      apply Hf; [by right | done | by eapply R_trans]. }
    intros ys w2 (HI2 & HR2). split; [done | by eapply R_trans].
Qed.

Variable E : error -> world -> Prop.

Lemma mapM_spec (f : A -> M B) (P : B -> Prop) xs w :
  I w ->
  (forall x w', I w' -> spec (f x) w' (fun y w'' => I w'' /\ P y) E) ->
  spec (mapM f xs) w (fun ys w' => I w' /\ Forall P ys) E.
Proof.
  revert w. induction xs as [|x xs IH]; intros w HI Hf; simpl.
  - apply spec_ret. auto.
  - apply spec_bind. eapply spec_mono; [by apply Hf | | done].
    intros y w1 [HI1 Hy]. simpl. apply spec_bind.
    eapply spec_mono; [by apply IH | | done].
    intros ys w2 [HI2 Hys]. apply spec_ret. auto.
Qed.

Lemma foldM_spec (f : B -> A -> M B) (P : B -> Prop) xs acc w :
  I w -> P acc ->
  (forall x acc' w', I w' -> P acc' ->
     spec (f acc' x) w' (fun y w'' => I w'' /\ P y) E) ->
  spec (foldM f acc xs) w (fun y w' => I w' /\ P y) E.
Proof.
  revert w acc. induction xs as [|x xs IH]; intros w acc HI HP Hf; simpl.
  - apply spec_ret. auto.
  - apply spec_bind. eapply spec_mono; [by apply Hf | | done].
    intros y w1 [HI1 Hy]. simpl. by apply IH.
Qed.

Lemma forM_spec (f : A -> M unit) xs w :
  I w ->
  (forall x w', I w' -> spec (f x) w' (fun _ w'' => I w'') E) ->
  spec (forM_ f xs) w (fun _ w' => I w') E.
Proof.
  revert w. induction xs as [|x xs IH]; intros w HI Hf; simpl.
  - by apply spec_ret.
  - apply spec_bind. eapply spec_mono; [by apply Hf | | done].
    intros y w1 HI1. simpl. by apply IH.
Qed.
End Loops.

(** Rules for the primitive operations *)

Lemma spec_get_this w Q E : Q (this w) w -> spec get_this w Q E.
Proof. done. Qed.
Lemma spec_get_heap w Q E : Q (heap_of w) w -> spec get_heap w Q E.
Proof. done. Qed.
Lemma spec_set_contentArray ca w Q E :
  Q tt (mkWorld (heap_of w) (mkGraph (indexMap (this w)) (rootIndex (this w)) ca)) ->
  spec (set_contentArray ca) w Q E.
Proof. done. Qed.
Lemma spec_set_heap h w Q E : Q tt (mkWorld h (this w)) -> spec (set_heap h) w Q E.
Proof. done. Qed.
Lemma spec_indexMap_push element index w Q E :
  Q tt (mkWorld (heap_of w)
          (mkGraph (indexMap (this w) ++ [(element, index)]) (rootIndex (this w))
             (contentArray (this w)))) ->
  spec (indexMap_push element index) w Q E.
Proof. done. Qed.

Lemma spec_read l w Q E :
  (forall o, heap_of w !! l = Some o -> Q o w) ->
  (heap_of w !! l = None -> E (TypeError "dangling reference") w) ->
  spec (read l) w Q E.
Proof.
  intros HQ HE. unfold spec, read, bind, get_heap. simpl.
  destruct (heap_of w !! l) eqn:Hl; simpl; auto.
Qed.


(** ** Association lists *)

Lemma assoc_set_Forall {V} (P : string * V -> Prop) k x (m : list (string * V)) :
  Forall P m -> P (k, x) -> Forall P (assoc_set k x m).
Proof.
  induction 1 as [|[k' y] m Hy Hm IH]; intros Hx; simpl.
  - by constructor.
  - destruct (String.eqb k' k); constructor; auto.
Qed.


Lemma spec_alloc o w Q E :
  Q (length (heap_of w)) (mkWorld (heap_of w ++ [o]) (this w)) -> spec (alloc o) w Q E.
Proof. done. Qed.

Lemma spec_write l o w Q E :
  Q tt (mkWorld (<[l:=o]> (heap_of w)) (this w)) -> spec (write l o) w Q E.
Proof. done. Qed.

Lemma returns_get_this w Q : Q (this w) w -> returns get_this w Q.
Proof. done. Qed.
Lemma returns_get_heap w Q : Q (heap_of w) w -> returns get_heap w Q.
Proof. done. Qed.
Lemma returns_set_contentArray ca w Q :
  Q tt (mkWorld (heap_of w) (mkGraph (indexMap (this w)) (rootIndex (this w)) ca)) ->
  returns (set_contentArray ca) w Q.
Proof. done. Qed.
Lemma returns_indexMap_push element index w Q :
  Q tt (mkWorld (heap_of w)
          (mkGraph (indexMap (this w) ++ [(element, index)]) (rootIndex (this w))
             (contentArray (this w)))) ->
  returns (indexMap_push element index) w Q.
Proof. done. Qed.
Lemma returns_alloc o w Q :
  Q (length (heap_of w)) (mkWorld (heap_of w ++ [o]) (this w)) -> returns (alloc o) w Q.
Proof. done. Qed.
Lemma returns_write l o w Q :
  Q tt (mkWorld (<[l:=o]> (heap_of w)) (this w)) -> returns (write l o) w Q.
Proof. done. Qed.
Lemma returns_read l o w Q :
  heap_of w !! l = Some o -> Q o w -> returns (read l) w Q.
Proof.
  intros Hl HQ. unfold returns, read, bind, get_heap. simpl. by rewrite Hl.
Qed.

(** ** Frame properties: what a pass leaves untouched *)

Lemma extends_refl w : extends w w.
Proof. by repeat split. Qed.

Lemma extends_trans w1 w2 w3 : extends w1 w2 -> extends w2 w3 -> extends w1 w3.
Proof.
  intros (? & ? & ?) (? & ? & ?). repeat split; by etrans.
Qed.

Lemma decode_step_refl w : decode_step w w.
Proof. by repeat split. Qed.

Lemma decode_step_trans w1 w2 w3 :
  decode_step w1 w2 -> decode_step w2 w3 -> decode_step w1 w3.
Proof.
  intros (? & ? & ? & ?) (? & ? & ? & ?).
  repeat split; [by etrans | by etrans | congruence | congruence].
Qed.

Lemma prefix_insert_ge {A} (l0 l : list A) i x :
  l0 `prefix_of` l -> length l0 <= i -> l0 `prefix_of` <[i:=x]> l.
Proof.
  intros [k ->] Hi. rewrite insert_app_r_alt by done. by eexists.
Qed.

Section EncodeInvariant.
Variable host : Host.
Variable I : world -> Prop.
Hypothesis I_alloc : forall w o, I w -> I (mkWorld (heap_of w ++ [o]) (this w)).
Variable add : value -> M nat.
Hypothesis add_I : forall v w, I w -> spec (add v) w (fun _ => I) (fun _ => I).

Lemma add_inv_step {B} v w (k : nat -> M B) Q :
  I w -> (forall i w', I w' -> spec (k i) w' Q (fun _ => I)) ->
  spec (bind (add v) k) w Q (fun _ => I).
Proof.
  intros Hw Hk. apply spec_bind. eapply spec_mono; [by apply add_I | | done].
  intros i w' Hw'. by apply Hk.
Qed.

Lemma serializeProperty_inv acc entry w :
  I w -> spec (serializeProperty add acc entry) w (fun _ => I) (fun _ => I).
Proof.
  intros Hw. destruct acc as [refs descs], entry as [key p].
  unfold serializeProperty.
  destruct (String.eqb key "__closure"); [by apply spec_ret |].
  destruct (_ && _ && _ && _).
  - apply add_inv_step; [done |]. intros. by apply spec_ret.
  - apply spec_bind. eapply (spec_mono _ _ (fun _ => I)).
    { destruct (opt_truthy _); [| by apply spec_ret].
      apply add_inv_step; [done |]. intros. by apply spec_ret. }
    2: done.
    intros d1 w1 H1. simpl. apply spec_bind. eapply (spec_mono _ _ (fun _ => I)).
    { destruct (opt_truthy _); [| by apply spec_ret].
      apply add_inv_step; [done |]. intros. by apply spec_ret. }
    2: done.
    intros d2 w2 H2. simpl. apply spec_bind. eapply (spec_mono _ _ (fun _ => I)).
    { destruct (pd_value _); [| by apply spec_ret].
      apply add_inv_step; [done |]. intros. by apply spec_ret. }
    2: done.
    intros d3 w3 H3. simpl. by apply spec_ret.
Qed.

Lemma serializeProperties_inv o w :
  I w -> spec (serializeProperties add o) w (fun _ => I) (fun _ => I).
Proof.
  intros Hw. unfold serializeProperties.
  eapply spec_mono;
    [apply (foldM_spec I (fun _ => I) _ (fun _ => True)); [done | done |] | | done].
  - intros x acc' w' Hw' _. eapply spec_mono; [by apply serializeProperty_inv | | done].
    by intros.
  - by intros ? ? [? _].
Qed.

Lemma call_closure_inv c w :
  I w -> spec (call_closure host c) w (fun _ => I) (fun _ => I).
Proof.
  intros Hw. unfold call_closure.
  destruct (negb (truthy c)).
  { apply spec_bind, spec_alloc. by apply spec_ret, I_alloc. }
  destruct c as [p | l]; [done |].
  apply spec_bind, spec_read; [| done].
  intros o _. destruct (class_of o) as [| | ? []| |]; try done.
  apply spec_bind, spec_alloc. by apply spec_ret, I_alloc.
Qed.

Lemma serialize_inv v w :
  I w -> spec (serialize host add v) w (fun _ => I) (fun _ => I).
Proof.
  intros Hw. unfold serialize.
  destruct (getNameOfBuiltin host v); [by apply spec_ret |].
  destruct v as [p | l]; [by apply spec_ret |].
  apply spec_bind, spec_read; [| done].
  intros o _. destruct (class_of o) as [| elements | source b | iso | literal].
  - unfold serializeObject. apply add_inv_step; [done |].
    intros pi w1 H1. apply spec_bind.
    eapply spec_mono; [by apply serializeProperties_inv | | done].
    intros rd w2 H2. by apply spec_ret.
  - apply spec_bind.
    eapply spec_mono;
      [apply (mapM_spec I (fun _ => I) _ (fun _ => True)); [done |] | | done].
    + intros x w' Hw'. eapply spec_mono; [by apply add_I | | done]. by intros.
    + intros refs w1 [H1 _]. by apply spec_ret.
  - unfold serializeFunction. apply spec_bind.
    eapply spec_mono; [by apply call_closure_inv | | done].
    intros snapshot w1 H1. simpl. apply add_inv_step; [done |].
    intros ci w2 H2. apply add_inv_step; [done |].
    intros pi w3 H3. apply spec_bind.
    eapply spec_mono; [by apply serializeProperties_inv | | done].
    intros rd w4 H4. by apply spec_ret.
  - by apply spec_ret.
  - by apply spec_ret.
Qed.
End EncodeInvariant.

Lemma add_extends host fuel v w :
  spec (add host fuel v) w (fun _ w' => extends w w') (fun _ w' => extends w w').
Proof.
  revert v w. induction fuel as [|fuel IH]; intros v w; [done |].
  simpl. apply spec_bind, spec_get_this.
  destruct (find_element _ v); [apply spec_ret, extends_refl |].
  apply spec_bind, spec_set_contentArray.
  apply spec_bind, spec_indexMap_push. simpl.
  set (w1 := mkWorld _ _).
  assert (extends w w1) as Hw1.
  { repeat split; simpl; [done | by apply prefix_app_r ..]. }
  apply spec_bind.
  eapply spec_mono; [apply (serialize_inv host (fun w' => extends w1 w')) | |].
  - intros w' o (? & ? & ?). repeat split; simpl; [by apply prefix_app_r | done | done].
  - intros v' w' Hw'. eapply spec_mono; [apply IH | |]; simpl; intros; by eapply extends_trans.
  - apply extends_refl.
  - intros c w2 H2. simpl. apply spec_bind, spec_get_this.
    apply spec_bind, spec_set_contentArray. apply spec_ret.
    destruct H2 as (Hh & Hi & Hc). repeat split; simpl.
    + by etrans.
    + etrans; [| done]. by apply prefix_app_r.
    + apply prefix_insert_ge; [| done]. etrans; [| done]. by apply prefix_app_r.
  - simpl. intros. by eapply extends_trans.
Qed.

Lemma decode_step_world w0 w h im ca r :
  decode_step w0 w ->
  heap_of w `prefix_of` h -> indexMap (this w) `prefix_of` im ->
  ca = contentArray (this w) -> r = rootIndex (this w) ->
  decode_step w0 (mkWorld h (mkGraph im r ca)).
Proof.
  intros (? & ? & ? & ?) ? ? -> ->. repeat split; simpl; try done; by etrans.
Qed.

Ltac frame :=
  eapply decode_step_world;
  [eassumption | simpl; try done; try (by apply prefix_app_r) ..].

Lemma spec_mono_error {A} (m : M A) w Q (E E' : error -> world -> Prop) :
  spec m w Q E -> (forall e w', E e w' -> E' e w') -> spec m w Q E'.
Proof. intros H HE. eapply spec_mono; [done | done | done]. Qed.

Section DecodeFrame.
Variable w0 : world.
Variable im0 : list (value * nat).
Variable P : error -> Prop.
Hypothesis P_TypeError : forall m, P (TypeError m).

Local Abbreviation J := (decode_frame w0 im0).
Local Abbreviation E := (decode_frame_error w0 im0 P).

Lemma J_write w l o :
  J w -> length (heap_of w0) <= l -> J (mkWorld (<[l:=o]> (heap_of w)) (this w)).
Proof.
  intros [(? & ? & ? & ?) ?] ?. repeat split; simpl; try done. by apply prefix_insert_ge.
Qed.

Lemma J_alloc w o : J w -> J (mkWorld (heap_of w ++ [o]) (this w)).
Proof.
  intros [(? & ? & ? & ?) ?]. repeat split; simpl; try done. by apply prefix_app_r.
Qed.

Lemma J_push w e :
  J w ->
  J (mkWorld (heap_of w)
       (mkGraph (indexMap (this w) ++ [e]) (rootIndex (this w)) (contentArray (this w)))).
Proof.
  intros [(? & ? & ? & ?) ?]. repeat split; simpl; try done; by apply prefix_app_r.
Qed.

Lemma put_J l key v w :
  J w -> length (heap_of w0) <= l ->
  spec (put (VRef l) key v) w (fun _ => J) E.
Proof.
  intros Hw Hl. unfold put. apply spec_bind, spec_read; [| by split].
  intros o _. destruct (assoc_get key (properties o)) as [[? [] ? ?|? s ? ?]|].
  - by apply spec_write, J_write.
  - by split.
  - destruct (truthy s); [done | by split].
  - by apply spec_write, J_write.
Qed.

Lemma array_push_J l x w :
  J w -> length (heap_of w0) <= l ->
  spec (array_push l x) w (fun _ => J) E.
Proof.
  intros Hw Hl. unfold array_push. apply spec_bind, spec_read; [| by split].
  intros o _. destruct (class_of o); try (by split). by apply spec_write, J_write.
Qed.

Lemma defineProperty_J l key d w :
  J w -> length (heap_of w0) <= l ->
  spec (defineProperty (VRef l) key d) w (fun _ => J) E.
Proof.
  intros Hw Hl. unfold defineProperty. apply spec_bind, spec_read; [| by split].
  intros o _. apply spec_bind, spec_get_heap.
  destruct (negb _); [by split |].
  destruct (apply_descriptor _ _); [| by split]. by apply spec_write, J_write.
Qed.

Lemma for_in_J v w Q :
  J w -> (forall kvs, Q kvs w) -> spec (for_in v) w Q E.
Proof.
  intros Hw HQ. destruct v as [p | l]; [apply HQ |].
  unfold for_in. apply spec_bind, spec_read; [| by split]. intros o _. apply HQ.
Qed.

Variable get : nat -> M value.
Hypothesis get_J : forall i w, J w -> spec (get i) w (fun _ => J) E.

Lemma get_J_step {B} i w (k : value -> M B) Q :
  J w -> (forall x w', J w' -> spec (k x) w' Q E) ->
  spec (bind (get i) k) w Q E.
Proof.
  intros Hw Hk. apply spec_bind. eapply spec_mono; [by apply get_J | | done].
  intros x w' Hw'. by apply Hk.
Qed.

Lemma deserializeProperties_J refs descriptions l w :
  J w -> length (heap_of w0) <= l ->
  spec (deserializeProperties get refs descriptions (VRef l)) w (fun _ => J) E.
Proof.
  intros Hw Hl. unfold deserializeProperties. apply spec_bind.
  eapply spec_mono; [apply (forM_spec J E); [done |] | | done].
  { intros [key i] w' Hw'. unfold deserializeRef. apply get_J_step; [done |].
    intros x w'' Hw''. by apply put_J. }
  intros ? w1 H1. simpl.
  apply (forM_spec J E); [done |].
  intros [key desc] w' Hw'. unfold deserializeDescription.
  apply spec_bind. eapply (spec_mono _ _ (fun _ => J)).
  { destruct (index_truthy _); [| by apply spec_ret].
    apply get_J_step; [done |]. intros. by apply spec_ret. }
  2: done.
  intros d1 w2 H2. simpl. apply spec_bind. eapply (spec_mono _ _ (fun _ => J)).
  { destruct (index_truthy _); [| by apply spec_ret].
    apply get_J_step; [done |]. intros. by apply spec_ret. }
  2: done.
  intros d2 w3 H3. simpl. apply spec_bind. eapply (spec_mono _ _ (fun _ => J)).
  { destruct (index_truthy _); [| by apply spec_ret].
    apply get_J_step; [done |]. intros. by apply spec_ret. }
  2: done.
  intros d3 w4 H4. simpl. by apply defineProperty_J.
Qed.
End DecodeFrame.

Lemma find_index_app im im' i :
  find_index (im ++ im') i
  = match find_index im i with Some e => Some e | None => find_index im' i end.
Proof.
  induction im as [|[e j] im IH]; simpl; [done |]. by destruct (Nat.eqb i j).
Qed.

Lemma find_index_prefix im im' i e :
  im `prefix_of` im' -> find_index im i = Some e -> find_index im' i = Some e.
Proof. intros [k ->] H. by rewrite find_index_app, H. Qed.

Lemma find_index_push im e i : is_Some (find_index (im ++ [(e, i)]) i).
Proof.
  rewrite find_index_app. destruct (find_index im i); [done |].
  simpl. by rewrite Nat.eqb_refl.
Qed.

Lemma bad_record_same host ca ca' e :
  ca' = ca -> error_sound host ca' e -> error_sound host ca e.
Proof. by intros ->. Qed.

(** The general frame property of [get]: the heap and the table only grow,
    the content array is not touched, the index asked for is in the table
    when the call returns, and an [Error] has its cause in the content
    array. *)
Lemma get_decode_step host fuel i w :
  spec (get host fuel i) w
    (fun _ w' => decode_step w w' /\ is_Some (find_index (indexMap (this w')) i))
    (fun e w' => decode_step w w' /\ error_sound host (contentArray (this w)) e).
Proof.
  revert i w. induction fuel as [|fuel IH]; intros i w; [done |].
  set (P := error_sound host (contentArray (this w))).
  assert (forall m, P (TypeError m)) as HP by done.
  assert (forall im0 i' w',
            decode_step w w' /\ im0 `prefix_of` indexMap (this w') ->
            spec (get host fuel i') w'
              (fun _ w'' => decode_step w w'' /\ im0 `prefix_of` indexMap (this w''))
              (fun e w'' => (decode_step w w'' /\ im0 `prefix_of` indexMap (this w''))
                            /\ P e))
    as Hget.
  { intros im0 i' w' [Hw' Him]. eapply spec_mono; [apply IH | |]; simpl.
    - intros _ w'' [Hs _]. split; [by eapply decode_step_trans |].
      etrans; [done |]. apply Hs.
    - intros e w'' [Hs He]. split; [split |].
      + by eapply decode_step_trans.
      + etrans; [done |]. apply Hs.
      + eapply bad_record_same; [| done]. apply Hw'. }
  pose proof (decode_step_refl w) as Hw.
  simpl. apply spec_bind, spec_get_this.
  destruct (find_index _ i) eqn:Hfind; [apply spec_ret; by rewrite Hfind |].
  destruct (contentArray (this w) !! i) as [[c|]|] eqn:Hc; [| done | done].
  assert (forall v,
            (fun w' => decode_step w w'
                       /\ (indexMap (this w) ++ [(v, i)]) `prefix_of` indexMap (this w'))
              (mkWorld (heap_of w)
                 (mkGraph (indexMap (this w) ++ [(v, i)]) (rootIndex (this w))
                    (contentArray (this w))))) as Hpush.
  { intros v. split; [frame | done]. }
  assert (forall v w',
            decode_step w w'
            /\ (indexMap (this w) ++ [(v, i)]) `prefix_of` indexMap (this w') ->
            decode_step w w' /\ is_Some (find_index (indexMap (this w')) i)) as Hfin.
  { intros v w' [Hs [k Hk]]. split; [done |]. rewrite Hk, find_index_app.
    by destruct (find_index_push (indexMap (this w)) v i) as [x ->]. }
  destruct c as [p | refs | source closure prototype refs descs
                | prototype refs descs | name | text | literal | kind].
  - apply spec_bind, spec_indexMap_push. apply spec_ret. apply (Hfin (VPrim p)), Hpush.
  - apply spec_bind, spec_alloc. apply spec_bind, spec_indexMap_push. simpl.
    set (r := length (heap_of w)).
    set (J := fun w' => decode_step w w'
                        /\ (indexMap (this w) ++ [(VRef r, i)]) `prefix_of` indexMap (this w')).
    apply spec_bind.
    eapply spec_mono; [apply (forM_spec J (fun e w' => J w' /\ P e)) | |].
    + split; [frame | done].
    + intros ref w' Hw'.
      apply (get_J_step w (indexMap (this w) ++ [(VRef r, i)]) P); [by apply Hget | done |].
      intros x w'' Hw''.
      apply (array_push_J w (indexMap (this w) ++ [(VRef r, i)]) P);
        [done | done | unfold r; lia].
    + intros ? w1 H1. apply spec_ret. apply (Hfin (VRef r)), H1.
    + by intros e w' [[? _] ?].
  - apply spec_bind, spec_alloc. apply spec_bind, spec_indexMap_push. simpl.
    set (thunk := length (heap_of w)).
    set (J := fun w' => decode_step w w'
                        /\ (indexMap (this w) ++ [(VRef thunk, i)])
                             `prefix_of` indexMap (this w')).
    assert (forall e w', J w' /\ P e -> decode_step w w' /\ P e) as HE
      by (by intros e w' [[? _] ?]).
    eapply spec_mono_error; [| apply HE].
    apply (get_J_step w (indexMap (this w) ++ [(VRef thunk, i)]) P); [by apply Hget | split; [frame | done] |].
    intros dc w1 H1. apply spec_bind, (for_in_J w (indexMap (this w) ++ [(VRef thunk, i)]) P); [done | done |].
    intros captured. apply spec_bind, spec_alloc.
    assert (length (heap_of w) <= length (heap_of w1)) as Hlen.
    { destruct H1 as [[H1 _] _]. by apply prefix_length. }
    apply (get_J_step w (indexMap (this w) ++ [(VRef thunk, i)]) P); [by apply Hget | by apply (J_alloc w (indexMap (this w) ++ [(VRef thunk, i)])) |].
    intros p w2 H2.
    apply spec_bind. eapply spec_mono; [apply (put_J w (indexMap (this w) ++ [(VRef thunk, i)]) P); [done | done | simpl; lia] | | done].
    intros ? w3 H3. simpl.
    apply spec_bind.
    eapply spec_mono; [apply (put_J w (indexMap (this w) ++ [(VRef thunk, i)]) P); [done | done | unfold thunk; lia] | | done].
    intros ? w4 H4. simpl.
    apply spec_bind, spec_read; [| by split]. intros io _.
    apply spec_bind.
    eapply spec_mono; [apply (put_J w (indexMap (this w) ++ [(VRef thunk, i)]) P); [done | done | unfold thunk; lia] | | done].
    intros ? w5 H5. simpl.
    apply spec_bind.
    eapply spec_mono;
      [apply (deserializeProperties_J w (indexMap (this w) ++ [(VRef thunk, i)]) P); [done | by apply Hget | done | unfold thunk; lia]
      | | done].
    intros ? w6 H6. apply spec_ret. apply (Hfin (VRef thunk)), H6.
  - set (J0 := fun w' => decode_step w w'
                         /\ indexMap (this w) `prefix_of` indexMap (this w')).
    assert (forall e w', J0 w' /\ P e -> decode_step w w' /\ P e) as HE
      by (by intros e w' [[? _] ?]).
    eapply spec_mono_error; [| apply HE].
    apply (get_J_step w (indexMap (this w)) P); [by apply Hget | split; [done | done] |].
    intros proto w1 H1. apply spec_bind.
    assert (length (heap_of w) <= length (heap_of w1)) as Hlen.
    { destruct H1 as [[H1 _] _]. by apply prefix_length. }
    assert (spec (alloc (mkObject ObjectClass proto [])) w1
              (fun results w' =>
                 spec (indexMap_push (VRef results) i;;
                       deserializeProperties (get host fuel) refs descs (VRef results);;
                       ret (VRef results)) w'
                   (fun _ w' => decode_step w w'
                                /\ is_Some (find_index (indexMap (this w')) i))
                   (fun e w' => J0 w' /\ P e))
              (fun e w' => J0 w' /\ P e)) as Halloc.
    { apply spec_alloc. apply spec_bind, spec_indexMap_push. simpl.
      set (r := length (heap_of w1)).
      set (J := fun w' => decode_step w w'
                          /\ (indexMap (this w1) ++ [(VRef r, i)])
                               `prefix_of` indexMap (this w')).
      assert (forall w', J w' -> J0 w') as HJ.
      { intros w' [? ?]. split; [done | apply H]. }
      apply spec_bind.
      eapply spec_mono;
        [apply (deserializeProperties_J w (indexMap (this w1) ++ [(VRef r, i)]) P) | |].
      - done.
      - by apply Hget.
      - destruct H1 as [H1 _]. split; [frame | done].
      - unfold r. lia.
      - intros ? w2 [H2 [k Hk]]. apply spec_ret. split; [done |].
        rewrite Hk, find_index_app.
        by destruct (find_index_push (indexMap (this w1)) (VRef r) i) as [x ->].
      - intros e w' [? ?]. split; [by apply HJ | done]. }
    destruct proto as [[]|]; simpl; try done; by split.
  - destruct (getBuiltinByName host name) eqn:Hname.
    + apply spec_bind, spec_indexMap_push. apply spec_ret. apply (Hfin v), Hpush.
    + split; [done |]. intros msg Hmsg. exists i. right. by exists name.
  - destruct (JSON_parse_string text); [| done].
    apply spec_bind, spec_alloc. apply spec_bind, spec_indexMap_push.
    apply spec_ret. simpl. apply (Hfin (VRef (length (heap_of w)))).
    split; [frame | done].
  - apply spec_bind, spec_alloc. apply spec_bind, spec_indexMap_push.
    apply spec_ret. simpl. apply (Hfin (VRef (length (heap_of w)))).
    split; [frame | done].
  - split; [done |]. intros msg Hmsg. exists i. left. by exists kind.
Qed.

(** ** The encoder stores no [writable] field *)

Section NoWritable.
Variable host : Host.

Local Abbreviation NW := no_writable.

Lemma serializeProperty_drops_writable add acc entry w :
  NW w -> drops_writable (snd acc) ->
  (forall v w', NW w' -> spec (add v) w' (fun _ w'' => NW w'') (fun _ w'' => NW w'')) ->
  spec (serializeProperty add acc entry) w
    (fun acc' w' => NW w' /\ drops_writable (snd acc')) (fun _ w' => NW w').
Proof.
  intros HNW Hacc Hadd. destruct acc as [refs descs], entry as [key p].
  unfold serializeProperty.
  destruct (String.eqb key "__closure"); [by apply spec_ret |].
  destruct (_ && _ && _ && _).
  - apply spec_bind. eapply spec_mono; [by apply Hadd | | done].
    intros i w1 H1. by apply spec_ret.
  - apply spec_bind.
    eapply (spec_mono _ _ (fun d w' => NW w' /\ d_writable d = None)).
    { destruct (opt_truthy _); [| by apply spec_ret].
      apply spec_bind. eapply spec_mono; [by apply Hadd | | done].
      intros i w1 H1. by apply spec_ret. }
    2: done.
    intros d1 w1 [H1 Hd1]. simpl. apply spec_bind.
    eapply (spec_mono _ _ (fun d w' => NW w' /\ d_writable d = None)).
    { destruct (opt_truthy _); [| by apply spec_ret].
      apply spec_bind. eapply spec_mono; [by apply Hadd | | done].
      intros i w2 H2. by apply spec_ret. }
    2: done.
    intros d2 w2 [H2 Hd2]. simpl. apply spec_bind.
    eapply (spec_mono _ _ (fun d w' => NW w' /\ d_writable d = None)).
    { destruct (pd_value _); [| by apply spec_ret].
      apply spec_bind. eapply spec_mono; [by apply Hadd | | done].
      intros i w3 H3. by apply spec_ret. }
    2: done.
    intros d3 w3 [H3 Hd3]. simpl. apply spec_ret. split; [done |].
    simpl. rewrite Hd3. simpl. by apply assoc_set_Forall.
Qed.

Lemma serializeProperties_drops_writable add o w :
  NW w ->
  (forall v w', NW w' -> spec (add v) w' (fun _ w'' => NW w'') (fun _ w'' => NW w'')) ->
  spec (serializeProperties add o) w
    (fun acc' w' => NW w' /\ drops_writable (snd acc')) (fun _ w' => NW w').
Proof.
  intros HNW Hadd. unfold serializeProperties.
  apply (foldM_spec NW); [done | by constructor |].
  intros x acc' w' HI HP. by apply serializeProperty_drops_writable.
Qed.

Lemma call_closure_NW c w :
  NW w -> spec (call_closure host c) w (fun _ w' => NW w') (fun _ w' => NW w').
Proof.
  intros HNW. unfold call_closure.
  destruct (negb (truthy c)); [done |].
  destruct c as [p | l]; [done |].
  apply spec_bind, spec_read; [| done].
  intros o _. by destruct (class_of o) as [| | ? []| |].
Qed.

Lemma serialize_drops_writable add v w :
  NW w ->
  (forall v w', NW w' -> spec (add v) w' (fun _ w'' => NW w'') (fun _ w'' => NW w'')) ->
  spec (serialize host add v) w
    (fun c w' => NW w' /\ drops_writable (descriptions_of c)) (fun _ w' => NW w').
Proof.
  intros HNW Hadd. unfold serialize.
  destruct (getNameOfBuiltin host v).
  { apply spec_ret. split; [done | constructor]. }
  destruct v as [p | l].
  { apply spec_ret. split; [done | constructor]. }
  apply spec_bind, spec_read; [| done].
  intros o _. destruct (class_of o) as [| elements | source b | iso | literal].
  - unfold serializeObject. apply spec_bind.
    eapply spec_mono; [by apply Hadd | | done].
    intros pi w1 H1. simpl. apply spec_bind.
    eapply spec_mono; [by apply serializeProperties_drops_writable | | done].
    intros rd w2 [H2 Hrd]. by apply spec_ret.
  - apply spec_bind.
    eapply spec_mono;
      [apply (mapM_spec NW (fun _ w' => NW w') _ (fun _ => True)); [done |] | | done].
    + intros x w' Hw'. eapply spec_mono; [by apply Hadd | | done]. by intros.
    + intros refs w1 [H1 _]. apply spec_ret. split; [done | constructor].
  - unfold serializeFunction. apply spec_bind.
    eapply spec_mono; [by apply call_closure_NW | | done].
    intros snapshot w1 H1. simpl. apply spec_bind.
    eapply spec_mono; [by apply Hadd | | done].
    intros ci w2 H2. simpl. apply spec_bind.
    eapply spec_mono; [by apply Hadd | | done].
    intros pi w3 H3. simpl. apply spec_bind.
    eapply spec_mono; [by apply serializeProperties_drops_writable | | done].
    intros rd w4 [H4 Hrd]. by apply spec_ret.
  - apply spec_ret. split; [done | constructor].
  - apply spec_ret. split; [done | constructor].
Qed.

Lemma add_drops_writable fuel v w :
  NW w -> spec (add host fuel v) w (fun _ w' => NW w') (fun _ w' => NW w').
Proof.
  revert v w. induction fuel as [|fuel IH]; intros v w HNW; [done |].
  simpl. apply spec_bind, spec_get_this.
  destruct (find_element _ v); [done |].
  apply spec_bind, spec_set_contentArray.
  apply spec_bind, spec_indexMap_push.
  apply spec_bind.
  eapply spec_mono; [apply serialize_drops_writable | | done].
  - unfold NW, graph_drops_writable. simpl. apply Forall_app. split; [done |].
    by repeat constructor.
  - intros v' w' Hw'. by apply IH.
  - intros c w1 [H1 Hc]. simpl. apply spec_bind, spec_get_this.
    apply spec_bind, spec_set_contentArray. apply spec_ret.
    unfold NW, graph_drops_writable. simpl. by apply Forall_insert.
Qed.
End NoWritable.

(** C10.  Whatever the value, the heap and the registry, no descriptor that
    [serialize] stores in a content record has a [writable] field: the guard
    of [serializeProperties] tests the [writable] field of the descriptor
    under construction, which is still absent, so the flag of the source
    property is never copied.  This holds of the graph a finished call
    returns and of the graph an interrupted call leaves behind. *)
Theorem serialize_never_stores_writable (host : Host) (fuel : nat) (v : value) (h : heap) :
  match SerializedGraph_serialize host fuel v h with
  | Return _ w | Throw _ w => graph_drops_writable (contentArray (this w))
  | OutOfFuel => True
  end.
Proof.
  unfold SerializedGraph_serialize, bind.
  pose proof (add_drops_writable host fuel v (mkWorld h new_SerializedGraph)) as H.
  unfold spec in H.
  destruct (add host fuel v _) as [i w | e w |]; simpl; [| | done]; apply H; constructor.
Qed.

(** ** The table is a field of the graph *)

Lemma add_first_entry host fuel v h :
  spec (add host fuel v) (mkWorld h new_SerializedGraph)
    (fun i w' => i = 0 /\ [(v, 0)] `prefix_of` indexMap (this w'))
    (fun _ _ => True).
Proof.
  destruct fuel as [|fuel]; [done |].
  simpl. apply spec_bind, spec_get_this. simpl.
  apply spec_bind, spec_set_contentArray.
  apply spec_bind, spec_indexMap_push. simpl.
  set (w1 := mkWorld _ _).
  apply spec_bind.
  eapply spec_mono; [apply (serialize_inv host (fun w' => extends w1 w')) | | done].
  - intros w' o (? & ? & ?). repeat split; simpl; [by apply prefix_app_r | done | done].
  - intros v' w' Hw'. eapply spec_mono; [apply add_extends | |]; simpl; intros;
      by eapply extends_trans.
  - apply extends_refl.
  - intros c w2 (_ & H2 & _). simpl. apply spec_bind, spec_get_this.
    apply spec_bind, spec_set_contentArray. by apply spec_ret.
Qed.

Lemma get_memoized host fuel i w e :
  find_index (indexMap (this w)) i = Some e -> get host (S fuel) i w = Return e w.
Proof. intros H. simpl. unfold bind, get_this. simpl. by rewrite H. Qed.




(** ** Errors of the decoder *)




(** ** [serialize] terminates *)

Lemma find_element_app im im' v :
  find_element (im ++ im') v
  = match find_element im v with Some i => Some i | None => find_element im' v end.
Proof.
  induction im as [|[e j] im IH]; simpl; [done |]. by destruct (strict_equals e v).
Qed.

Lemma registered_push_prim im p i l :
  registered (im ++ [(VPrim p, i)]) l = registered im l.
Proof.
  unfold registered. rewrite find_element_app. simpl.
  by destruct (find_element im (VRef l)).
Qed.

Lemma registered_push_ref im l' i l :
  registered (im ++ [(VRef l', i)]) l = registered im l || Nat.eqb l' l.
Proof.
  unfold registered. rewrite find_element_app. simpl.
  destruct (find_element im (VRef l)); [done |]. simpl. by destruct (Nat.eqb l' l).
Qed.

Lemma sum_list_le_pointwise (f g : loc -> nat) (S : list loc) :
  (forall l, l ∈ S -> f l <= g l) -> sum_list (map f S) <= sum_list (map g S).
Proof.
  induction S as [|x S IH]; intros H; simpl; [done |].
  pose proof (H x ltac:(left)). pose proof (IH (fun l Hl => H l (list_elem_of_further _ _ _ Hl))).
  lia.
Qed.

Lemma sum_list_drop (f g : loc -> nat) (S : list loc) l c :
  l ∈ S -> f l + c <= g l -> (forall x, x ∈ S -> f x <= g x) ->
  sum_list (map f S) + c <= sum_list (map g S).
Proof.
  induction S as [|x S IH]; intros Hl Hc H; [by apply elem_of_nil in Hl |].
  simpl. apply elem_of_cons in Hl as [<- | Hl].
  - pose proof (sum_list_le_pointwise f g S
                  (fun y Hy => H y (list_elem_of_further _ _ _ Hy))). lia.
  - pose proof (H x ltac:(left)).
    pose proof (IH Hl Hc (fun y Hy => H y (list_elem_of_further _ _ _ Hy))). lia.
Qed.

Lemma weight_pos h l : 1 <= weight h l.
Proof. unfold weight. destruct (h !! l) as [[[] ? ?]|]; lia. Qed.

Lemma pending_register h im S l i :
  l ∈ S -> registered im l = false ->
  pending h (im ++ [(VRef l, i)]) S + weight h l <= pending h im S.
Proof.
  intros Hl Hr. unfold pending. apply (sum_list_drop _ _ S l); [done | |].
  - rewrite registered_push_ref, Hr, Nat.eqb_refl. simpl. lia.
  - intros x _. rewrite registered_push_ref. destruct (registered im x); simpl; [lia |].
    destruct (Nat.eqb l x); lia.
Qed.

Lemma pending_push_prim h im S p i :
  pending h (im ++ [(VPrim p, i)]) S = pending h im S.
Proof.
  unfold pending. f_equal. apply map_ext. intros l.
  by rewrite registered_push_prim.
Qed.

Lemma weight_alloc h o l : l < length h -> weight (h ++ [o]) l = weight h l.
Proof. intros Hl. unfold weight. by rewrite lookup_app_l. Qed.

Lemma pending_alloc h im S o :
  (forall l, l ∈ S -> l < length h) ->
  pending (h ++ [o]) im (length h :: S) <= weight (h ++ [o]) (length h) + pending h im S.
Proof.
  intros HS. unfold pending. simpl.
  assert (sum_list (map (fun l => if registered im l then 0 else weight (h ++ [o]) l) S)
          <= sum_list (map (fun l => if registered im l then 0 else weight h l) S)).
  { apply sum_list_le_pointwise. intros l Hl. destruct (registered im l); [done |].
    rewrite weight_alloc; [done | by apply HS]. }
  destruct (registered im (length h)); lia.
Qed.

Lemma identities_pending h S : pending h [] S = identities h S.
Proof. done. Qed.

Lemma within_mono S S' v : S ⊆ S' -> within S v -> within S' v.
Proof. intros HS. destruct v; simpl; [done | apply HS]. Qed.

Lemma assoc_set_values {V} (P : V -> Prop) k x (m : list (string * V)) :
  Forall (fun kv => P (snd kv)) m -> P x -> Forall (fun kv => P (snd kv)) (assoc_set k x m).
Proof. intros. by apply assoc_set_Forall. Qed.

Lemma object_literal_values host S fields :
  within S (ObjectPrototype host) -> Forall (within S) (map snd fields) ->
  Forall (within S) (object_values (object_literal host fields)).
Proof.
  intros HOP Hf. unfold object_values, object_literal. simpl. constructor; [done |].
  assert (forall m, Forall (fun kp => Forall (within S) (property_values (snd kp))) m ->
            Forall (fun kp => Forall (within S) (property_values (snd kp)))
              (fold_left (fun m '(k, v) => assoc_set k (Data v true true true) m) fields m))
    as Hfold.
  { induction fields as [|[k v] fields IH]; intros m Hm; simpl; [done |].
    apply Forall_cons in Hf as [Hv Hf]. apply IH; [done |].
    apply assoc_set_Forall; [done |]. simpl. by repeat constructor. }
  specialize (Hfold [] ltac:(constructor)).
  induction Hfold as [|kp m Hkp Hm IH]; simpl; [done |].
  apply Forall_app. by split.
Qed.

Section Termination.
Variable host : Host.

Lemma Inv_weaken n n' S0 S0' w : Inv host n S0 w -> n <= n' -> S0' ⊆ S0 -> Inv host n' S0' w.
Proof.
  intros (S & ? & ? & ?) ? ?. exists S. split; [done |]. split; [by etrans | lia].
Qed.

Lemma value_graph_in h S l : value_graph host h S -> l ∈ S -> l < length h.
Proof. intros H Hl. destruct (H l Hl) as (o & Ho & _). by eapply lookup_lt_Some. Qed.

Lemma good_alloc h S fields :
  good host h S -> Forall (within S) (map snd fields) ->
  good host (h ++ [object_literal host fields]) (length h :: S).
Proof.
  intros (Hvg & Hconv & HOP) Hf.
  assert (S ⊆ length h :: S) as Hsub by (intros x Hx; by right).
  split; [| split].
  - intros l Hl. apply elem_of_cons in Hl as [-> | Hl].
    + exists (object_literal host fields). split.
      * rewrite lookup_app_r by done. by rewrite Nat.sub_diag.
      * intros _. apply object_literal_values; [by eapply within_mono |].
        eapply Forall_impl; [done |]. intros v. by apply within_mono.
    + destruct (Hvg l Hl) as (o & Ho & Hvals). exists o. split.
      * by apply lookup_app_l_Some.
      * intros Hnb. eapply Forall_impl; [by apply Hvals |]. intros v. by apply within_mono.
  - intros l o source b Hl Ho Hclass Htruthy.
    apply elem_of_cons in Hl as [-> | Hl].
    + rewrite lookup_app_r in Ho by done. rewrite Nat.sub_diag in Ho.
      injection Ho as <-. done.
    + pose proof (value_graph_in _ _ _ Hvg Hl) as Hlt.
      rewrite lookup_app_l in Ho by done.
      destruct (Hconv l o source b Hl Ho Hclass Htruthy)
        as (c & f & s' & vars & Hc & Hf' & Hcl & Hvars).
      exists c, f, s', vars. split; [done |]. split; [by apply lookup_app_l_Some |].
      split; [done |].
      eapply Forall_impl; [done |]. intros v. by apply within_mono.
  - by eapply within_mono.
Qed.

Lemma Inv_alloc n S0 w fields :
  Inv host n S0 w ->
  (forall S, good host (heap_of w) S -> S0 ⊆ S -> Forall (within S) (map snd fields)) ->
  exists S1,
    length (heap_of w) ∈ S1 /\ S0 ⊆ S1
    /\ Inv host (S n) S1 (mkWorld (heap_of w ++ [object_literal host fields]) (this w)).
Proof.
  intros (S & Hgood & Hsub & Hpend) Hf.
  exists (length (heap_of w) :: S). split; [by left |].
  split; [intros x Hx; right; by apply Hsub |].
  exists (length (heap_of w) :: S). split; [apply good_alloc; auto |]. split; [done |].
  simpl. etrans; [apply pending_alloc |].
  - intros l Hl. eapply value_graph_in; [apply Hgood | done].
  - unfold weight. rewrite lookup_app_r by done. rewrite Nat.sub_diag. simpl. lia.
Qed.

Lemma get_property_within S o key :
  Forall (within S) (object_values o) -> within S (get_property o key).
Proof.
  unfold object_values, get_property. intros H.
  apply Forall_cons in H as [_ H]. apply Forall_app in H as [_ H].
  induction (properties o) as [|[k p] ps IH]; simpl in *; [done |].
  apply Forall_app in H as [Hp H].
  destruct (String.eqb k key); [| by apply IH].
  destruct p; simpl in *; [| done]. by apply Forall_cons in Hp as [? _].
Qed.

Lemma call_closure_returns n S0 l o source b w :
  Inv host n S0 w -> l ∈ S0 -> heap_of w !! l = Some o ->
  class_of o = FunctionClass source b ->
  returns (call_closure host (get_property o "__closure")) w
    (fun v w' => exists S1, within S1 v /\ S0 ⊆ S1 /\ Inv host (S n) S1 w').
Proof.
  intros HI Hl Ho Hclass. unfold call_closure.
  destruct (truthy (get_property o "__closure")) eqn:Htruthy; simpl.
  - destruct HI as (S & Hgood & Hsub & Hpend).
    destruct Hgood as (Hvg & Hconv & HOP).
    destruct (Hconv l o source b (Hsub _ Hl) Ho Hclass Htruthy)
      as (c & f & s' & vars & Hc & Hf & Hcl & Hvars).
    rewrite Hc. apply returns_bind. eapply returns_read; [done |]. rewrite Hcl.
    apply returns_bind, returns_alloc. apply returns_ret.
    destruct (Inv_alloc n S (mkWorld (heap_of w) (this w)) vars) as (S1 & H1 & H2 & H3).
    + exists S. by repeat split.
    + simpl. intros S' (Hvg' & Hconv' & _) HS'.
      destruct (Hconv' l o source b (HS' _ (Hsub _ Hl)) Ho Hclass Htruthy)
        as (c' & f' & s'' & vars' & Hc' & Hf' & Hcl' & Hvars').
      rewrite Hc in Hc'. injection Hc' as <-. rewrite Hf in Hf'. injection Hf' as <-.
      rewrite Hcl in Hcl'. by injection Hcl' as _ <-.
    + exists S1. split; [done |]. split; [by etrans |]. apply H3.
  - apply returns_bind, returns_alloc. apply returns_ret.
    destruct (Inv_alloc n S0 w []) as (S1 & H1 & H2 & H3); [done | by constructor |].
    by exists S1.
Qed.

Section Step.
Variable add : value -> M nat.
Variable n : nat.
Hypothesis add_ok :
  forall S0 v w, Inv host n S0 w -> within S0 v ->
                 returns (add v) w (fun _ w' => Inv host n S0 w').

Lemma add_ok_step {B} S0 v w (k : nat -> M B) Q :
  Inv host n S0 w -> within S0 v ->
  (forall i w', Inv host n S0 w' -> returns (k i) w' Q) ->
  returns (bind (add v) k) w Q.
Proof.
  intros Hw Hv Hk. apply returns_bind. eapply returns_mono; [by apply add_ok |].
  intros i w' Hw'. by apply Hk.
Qed.

Lemma serializeProperty_returns S0 acc entry w :
  Inv host n S0 w -> Forall (within S0) (property_values (snd entry)) ->
  returns (serializeProperty add acc entry) w (fun _ w' => Inv host n S0 w').
Proof.
  intros Hw Hvals. destruct acc as [refs descs], entry as [key p].
  unfold serializeProperty.
  destruct (String.eqb key "__closure"); [by apply returns_ret |].
  destruct p as [v wr en cf | g s en cf]; simpl in *.
  - apply Forall_cons in Hvals as [Hv _].
    destruct cf, wr, en; simpl;
      first
        [ apply (add_ok_step S0); [done | done |]; intros; by apply returns_ret
        | apply returns_bind, returns_ret; apply returns_bind, returns_ret;
          apply returns_bind; apply (add_ok_step S0); [done | done |];
          intros i w1 H1; apply returns_ret; simpl; by apply returns_ret ].
  - apply Forall_cons in Hvals as [Hg Hvals]. apply Forall_cons in Hvals as [Hs _].
    apply returns_bind. eapply (returns_mono _ _ (fun _ w' => Inv host n S0 w')).
    { destruct (truthy g); [| by apply returns_ret].
      apply (add_ok_step S0); [done | done |]. intros. by apply returns_ret. }
    intros d1 w1 H1. simpl. apply returns_bind.
    eapply (returns_mono _ _ (fun _ w' => Inv host n S0 w')).
    { destruct (truthy s); [| by apply returns_ret].
      apply (add_ok_step S0); [done | done |]. intros. by apply returns_ret. }
    intros d2 w2 H2. simpl. apply returns_bind, returns_ret. by apply returns_ret.
Qed.

Lemma serializeProperties_returns S0 o w :
  Inv host n S0 w -> Forall (within S0) (object_values o) ->
  returns (serializeProperties add o) w (fun _ w' => Inv host n S0 w').
Proof.
  intros Hw Hvals. unfold serializeProperties.
  eapply returns_mono;
    [apply (foldM_returns (Inv host n S0) (fun _ _ => True)); [done | done | done |] |].
  - intros x acc' w' Hx Hw' _.
    eapply returns_mono; [apply serializeProperty_returns; [done |] |]; [| done].
    unfold object_values in Hvals. apply Forall_cons in Hvals as [_ Hvals].
    apply Forall_app in Hvals as [_ Hvals].
    rewrite Forall_flat_map in Hvals. rewrite Forall_forall in Hvals. by apply Hvals.
  - by intros ? ? [? _].
Qed.
End Step.

Lemma add_terminates fuel :
  forall n S0 v w,
    Inv host n S0 w -> within S0 v -> n < fuel ->
    returns (add host fuel v) w (fun _ w' => Inv host n S0 w').
Proof.
  induction fuel as [|fuel IH]; intros n S0 v w HI Hv Hn; [lia |].
  simpl. apply returns_bind, returns_get_this.
  destruct (find_element (indexMap (this w)) v) eqn:Hfind; [by apply returns_ret |].
  apply returns_bind, returns_set_contentArray.
  apply returns_bind, returns_indexMap_push. simpl.
  set (w1 := mkWorld _ _).
  apply returns_bind.
  eapply (returns_mono _ _ (fun _ w' => Inv host n S0 w')).
  2: { intros c w2 H2. simpl. apply returns_bind, returns_get_this.
       apply returns_bind, returns_set_contentArray. by apply returns_ret. }
  destruct HI as (S & Hgood & Hsub & Hpend).
  destruct v as [p | l].
  { assert (Inv host n S0 w1) as H1.
    { exists S. split; [done |]. split; [done |]. simpl. by rewrite pending_push_prim. }
    unfold serialize. destruct (getNameOfBuiltin host (VPrim p)); by apply returns_ret. }
  simpl in Hv. pose proof (Hsub _ Hv) as Hl.
  assert (registered (indexMap (this w)) l = false) as Hreg
    by (unfold registered; by rewrite Hfind).
  pose proof (pending_register (heap_of w) (indexMap (this w)) S l
                (length (contentArray (this w))) Hl Hreg) as Hdrop.
  pose proof (weight_pos (heap_of w) l) as Hpos.
  assert (Inv host (n - weight (heap_of w) l) S w1) as H1.
  { exists S. split; [done |]. split; [done |]. simpl. lia. }
  unfold serialize. destruct (getNameOfBuiltin host (VRef l)) eqn:Hnb.
  { apply returns_ret. eapply Inv_weaken; [done | lia | done]. }
  destruct Hgood as (Hvg & Hconv & HOP).
  destruct (Hvg l Hl) as (o & Ho & Hvals). specialize (Hvals Hnb).
  apply returns_bind. eapply returns_read; [done |].
  assert (forall S0' v' w', Inv host (n - 1) S0' w' -> within S0' v' ->
            returns (add host fuel v') w' (fun _ w'' => Inv host (n - 1) S0' w'')) as Hadd.
  { intros S0' v' w' HI' Hv'. apply IH; [done | done | lia]. }
  assert (forall S' w', Inv host (n - 1) S' w' -> S ⊆ S' -> Inv host n S0 w') as Hback.
  { intros S' w' HI' HS'. eapply Inv_weaken; [done | lia | by etrans]. }
  destruct (class_of o) as [| elements | source b | iso | literal] eqn:Hclass.
  - assert (Inv host (n - 1) S w1) as H1' by (eapply Inv_weaken; [done | lia | done]).
    unfold serializeObject.
    apply (add_ok_step _ (n - 1) Hadd S); [done | |].
    { unfold object_values in Hvals. by apply Forall_cons in Hvals as [? _]. }
    intros pi w2 H2. apply returns_bind.
    eapply returns_mono; [by apply (serializeProperties_returns _ (n - 1) Hadd S) |].
    intros rd w3 H3. apply returns_ret. apply (Hback S); [done | reflexivity].
  - assert (Inv host (n - 1) S w1) as H1' by (eapply Inv_weaken; [done | lia | done]).
    apply returns_bind.
    eapply returns_mono;
      [apply (mapM_returns (Inv host (n - 1) S) (fun _ _ => True)); [done | done | done |] |].
    + intros x w' Hx Hw' _. eapply returns_mono; [apply Hadd; [done |] |]; [| done].
      unfold object_values in Hvals. apply Forall_cons in Hvals as [_ Hvals].
      apply Forall_app in Hvals as [Hvals _]. rewrite Hclass in Hvals. simpl in Hvals.
      rewrite Forall_forall in Hvals. by apply Hvals.
    + intros refs w2 [H2 _]. apply returns_ret. apply (Hback S); [done | reflexivity].
  - assert (weight (heap_of w) l = 2) as Hw2.
    { unfold weight. rewrite Ho. destruct o. simpl in Hclass. by subst. }
    rewrite Hw2 in *.
    unfold serializeFunction. apply returns_bind.
    eapply returns_mono; [by apply (call_closure_returns (n - 2) S l o source b) |].
    intros snapshot w2 (S1 & Hsnap & HS1 & H2). simpl.
    replace (Datatypes.S (n - 2)) with (n - 1) in H2 by lia.
    apply (add_ok_step _ (n - 1) Hadd S1); [done | done |].
    intros ci w3 H3.
    apply (add_ok_step _ (n - 1) Hadd S1); [done | |].
    { eapply within_mono; [done |]. by apply get_property_within. }
    intros pi w4 H4. apply returns_bind.
    eapply returns_mono; [apply (serializeProperties_returns _ (n - 1) Hadd S1); [done |] |].
    { eapply Forall_impl; [done |]. intros x. by apply within_mono. }
    intros rd w5 H5. apply returns_ret. apply (Hback S1); [done | done].
  - apply returns_ret. eapply Inv_weaken; [done | lia | done].
  - apply returns_ret. eapply Inv_weaken; [done | lia | done].
Qed.
End Termination.


Lemma closure_graph_representable :
  representable node heap_with_closure [0; 2; 5; 6] (VRef 5).
Proof.
  assert (forall l : loc, l ∈ [0; 2; 5; 6] -> l = 0 \/ l = 2 \/ l = 5 \/ l = 6) as Hcases.
  { intros l Hl. apply list_elem_of_In in Hl. simpl in Hl. intuition auto. }
  split; [| split; [| split]].
  - intros l Hl.
    destruct (Hcases l Hl) as [-> | [-> | [-> | ->]]];
      (eexists; split; [reflexivity |]); intros _; simpl;
      repeat (constructor; simpl; try done); apply list_elem_of_In; simpl; tauto.
  - intros l o source b Hl Ho Hclass Htruthy.
    destruct (Hcases l Hl) as [-> | [-> | [-> | ->]]];
      injection Ho as <-; try discriminate.
    eexists 6, _, _, _. split; [reflexivity |]. split; [reflexivity |].
    split; [reflexivity |]. by repeat constructor.
  - apply list_elem_of_In. simpl. tauto.
  - apply list_elem_of_In. simpl. tauto.
Qed.


(** ** Where the decoder departs from the specification *)

(** C6.  The decoder tests the stored index for truthiness, [if (desc.value)],
    so the index 0 counts as absent.  The root object has a hidden property
    [self] that holds the object itself; the root has index 0, which the
    encoder stores as the descriptor's value.  After the round trip [self]
    holds the number 0, the raw index, and not the reconstructed object
    (location 6). *)
Theorem index_zero_is_installed_raw :
  final_graph (SerializedGraph_serialize node 3 (VRef 5) heap_with_hidden_self)
  = Some (mkGraph [(VRef 5, 0); (VRef 0, 1)] 0
            [ Some (CObject 1 []
                      [("self", mkDescription None None (Some 0)
                                  (Some true) None (Some false))]);
              Some (CBuiltin "Object.prototype") ])
  /\ returned (roundtrip node 3 (VRef 5) heap_with_hidden_self) = Some (VRef 6)
  /\ final_heap (roundtrip node 3 (VRef 5) heap_with_hidden_self) !! 6
     = Some (mkObject ObjectClass (VRef 0)
               [("self", Data (VPrim (PNumber (Num 0))) false false true)]).
Proof. vm_compute. repeat split; reflexivity. Qed.

(** C5.  A hidden but writable property comes back read-only: the encoder
    stores no [writable] field (see the theorem on [writable] above), and
    [Object.defineProperty] takes a missing field as [false]. *)
Theorem writable_is_lost :
  returned (roundtrip node 3 (VRef 5) heap_with_hidden_writable) = Some (VRef 6)
  /\ final_heap (roundtrip node 3 (VRef 5) heap_with_hidden_writable) !! 5
     = Some (mkObject ObjectClass (VRef 0)
               [("hidden", Data (VPrim (PNumber (Num 1))) true false true)])
  /\ final_heap (roundtrip node 3 (VRef 5) heap_with_hidden_writable) !! 6
     = Some (mkObject ObjectClass (VRef 0)
               [("hidden", Data (VPrim (PNumber (Num 1))) false false true)]).
Proof. vm_compute. repeat split; reflexivity. Qed.

(** C4.  The object [o] is reachable as the root and as [back] of its own
    prototype.  The encoder gives both references the index 0.  The decoder
    reconstructs the prototype of an object before it registers the object,
    so the reference from the prototype finds no entry for index 0 and builds
    an object of its own (location 8); the root then builds a second one
    (location 9).  In the result [root.back] is not [root]. *)
Theorem shared_identity_is_split :
  final_graph (SerializedGraph_serialize node 4 (VRef 5) heap_with_back_pointer)
  = Some (mkGraph [(VRef 5, 0); (VRef 6, 1); (VRef 0, 2)] 0
            [ Some (CObject 1 [] []); Some (CObject 2 [("back", 0)] []);
              Some (CBuiltin "Object.prototype") ])
  /\ returned (roundtrip node 4 (VRef 5) heap_with_back_pointer) = Some (VRef 9)
  /\ final_heap (roundtrip node 4 (VRef 5) heap_with_back_pointer) !! 9
     = Some (mkObject ObjectClass (VRef 7) [])
  /\ final_heap (roundtrip node 4 (VRef 5) heap_with_back_pointer) !! 7
     = Some (mkObject ObjectClass (VRef 0) [("back", Data (VRef 8) true true true)]).
Proof. vm_compute. repeat split; reflexivity. Qed.

(** ** Shapes *)

Lemma size_item (s : shape) items : In s items -> size s < size (SArray items).
Proof.
  simpl. induction items as [|x items IH]; simpl; [done |].
  intros [-> | H]; [lia |]. specialize (IH H). lia.
Qed.

Lemma size_field (s : shape) fields :
  In s (map snd fields) -> size s < size (SObject fields).
Proof.
  simpl. induction fields as [|[k x] fields IH]; simpl; [done |].
  intros [-> | H]; [lia |]. specialize (IH H). lia.
Qed.

Lemma depth_item (s : shape) items : In s items -> depth s < depth (SArray items).
Proof.
  simpl. induction items as [|x items IH]; simpl; [done |].
  intros [-> | H]; [lia |]. specialize (IH H). lia.
Qed.

Lemma depth_field (s : shape) fields :
  In s (map snd fields) -> depth s < depth (SObject fields).
Proof.
  simpl. induction fields as [|[k x] fields IH]; simpl; [done |].
  intros [-> | H]; [lia |]. specialize (IH H). lia.
Qed.

(** Two lists related pointwise by a functional relation are equal. *)
Lemma Forall2_functional {A B} (R : A -> B -> Prop) xs ys ys' :
  (forall x y y', In y ys -> R x y -> R x y' -> y = y') ->
  Forall2 R xs ys -> Forall2 R xs ys' -> ys = ys'.
Proof.
  intros HR H. revert ys'. induction H as [|x y xs ys Hxy H IH]; intros ys' H'.
  - by inversion H'.
  - inversion H' as [|? y' ? ys'' Hxy' H'']; subst. f_equal.
    + eapply HR; [by left | done | done].
    + apply IH; [| done]. intros. eapply HR; [by right | done | done].
Qed.

Lemma Forall2_impl_in {A B} (R R' : A -> B -> Prop) xs ys :
  Forall2 R xs ys -> (forall x y, In y ys -> R x y -> R' x y) -> Forall2 R' xs ys.
Proof.
  induction 1 as [|x y xs ys Hxy H IH]; intros HR; constructor.
  - apply HR; [by left | done].
  - apply IH. intros. apply HR; [by right | done].
Qed.

Lemma fields_eq {A} (f g : list (string * A)) :
  map fst f = map fst g -> map snd f = map snd g -> f = g.
Proof.
  revert g. induction f as [|[k x] f IH]; intros [|[k' x'] g]; simpl; try done.
  intros [= -> Hk] [= -> Hx]. f_equal. by apply IH.
Qed.

Lemma plain_props_inj kvs kvs' : plain_props kvs = plain_props kvs' -> kvs = kvs'.
Proof.
  revert kvs'. induction kvs as [|[k v] kvs IH]; intros [|[k' v'] kvs']; simpl; try done.
  intros [= -> -> H]. f_equal. by apply IH.
Qed.

Section Represents.
Variable host : Host.
Variable root : option loc.

Lemma represents_functional P h s :
  forall v s', represents host root P h v s -> represents host root P h v s' -> s = s'.
Proof.
  remember (size s) as n eqn:Hn. revert s Hn.
  induction n as [n IH] using lt_wf_ind. intros s -> v s' H H'.
  destruct H as [p Hp | l Hl | l elements items Hr HP Hb Hl Hch
                | l kvs fields Hr HP Hb Hl Hk Hgood Hch].
  - by inversion H'.
  - inversion H'; subst; congruence.
  - inversion H' as [| | l' elements' items' ? ? ? Hl' Hch' |
                      l' kvs' fields' ? ? ? Hl' ]; subst; try congruence.
    rewrite Hl in Hl'. injection Hl' as <-. f_equal.
    eapply Forall2_functional; [| done | done].
    intros x y y' Hy. eapply IH; [| done]. by apply size_item.
  - inversion H' as [| | l' elements' items' ? ? ? Hl' Hch' |
                      l' kvs' fields' ? ? ? Hl' Hk' Hgood' Hch']; subst; try congruence.
    rewrite Hl in Hl'. injection Hl' as Hkvs. apply plain_props_inj in Hkvs as <-.
    f_equal. apply fields_eq; [congruence |].
    eapply Forall2_functional; [| done | done].
    intros x y y' Hy. eapply IH; [| done]. by apply size_field.
Qed.

Lemma represents_mono P P' h h' v s :
  (forall l, In l P' -> In l P) -> agree root P h h' ->
  represents host root P h v s -> represents host root P' h' v s.
Proof.
  intros HP Hh. remember (size s) as n eqn:Hn. revert s Hn v.
  induction n as [n IH] using lt_wf_ind. intros s -> v H.
  destruct H as [p Hp | l Hl | l elements items Hr HPl Hb Hl Hch
                | l kvs fields Hr HPl Hb Hl Hk Hgood Hch].
  - by constructor.
  - by constructor.
  - econstructor; [done | by auto | done | by apply Hh |].
    eapply Forall2_impl_in; [done |].
    intros x y Hy. eapply IH; [| done]. by apply size_item.
  - econstructor; [done | by auto | done | by apply Hh | done | done |].
    eapply Forall2_impl_in; [done |].
    intros x y Hy. eapply IH; [| done]. by apply size_field.
Qed.

Lemma agree_refl P h : agree root P h h.
Proof. by intros l o _ _ H. Qed.

Lemma agree_trans P h1 h2 h3 : agree root P h1 h2 -> agree root P h2 h3 -> agree root P h1 h3.
Proof. intros H12 H23 l o HP Hr H. by apply H23, H12. Qed.

Lemma agree_prefix P h h' : h `prefix_of` h' -> agree root P h h'.
Proof. intros Hp l o _ _ H. by eapply prefix_lookup_Some. Qed.

Lemma agree_insert P h l o : In l P \/ root = Some l -> agree root P h (<[l:=o]> h).
Proof.
  intros Hl l' o' HP Hr H. rewrite list_lookup_insert_ne; [done |].
  intros ->. destruct Hl; [done | congruence].
Qed.

Lemma agree_weaken P P' h h' :
  (forall l, In l P -> In l P') -> agree root P h h' -> agree root P' h h'.
Proof. intros HP H l o Hl. apply H. auto. Qed.

(** An object that is not in the heap yet can be excluded for free. *)
Lemma represents_fresh P h l v s :
  h !! l = None -> represents host root P h v s -> represents host root (l :: P) h v s.
Proof.
  intros Hfresh. remember (size s) as n eqn:Hn. revert s Hn v.
  induction n as [n IH] using lt_wf_ind. intros s -> v H.
  destruct H as [p Hp | l' Hl | l' elements items Hr HPl Hb Hl Hch
                | l' kvs fields Hr HPl Hb Hl Hk Hgood Hch].
  - by constructor.
  - by constructor.
  - econstructor; [done | | done | done |].
    { intros [<- | ?]; [congruence | done]. }
    eapply Forall2_impl_in; [done |].
    intros x y Hy. eapply IH; [| done]. by apply size_item.
  - econstructor; [done | | done | done | done | done |].
    { intros [<- | ?]; [congruence | done]. }
    eapply Forall2_impl_in; [done |].
    intros x y Hy. eapply IH; [| done]. by apply size_field.
Qed.

(** Shapes are finite: an object does not occur inside its own shape, so it
    can be excluded from the shapes of its members. *)
Lemma represents_exclude P h l s v' s' :
  represents host root P h (VRef l) s -> size s' < size s ->
  represents host root P h v' s' -> represents host root (l :: P) h v' s'.
Proof.
  intros Hl. remember (size s') as n eqn:Hn. revert s' Hn v'.
  induction n as [n IH] using lt_wf_ind. intros s' -> v' Hsize H.
  assert (forall l', represents host root P h (VRef l') s' -> s' <> SRoot ->
                     ~ In l' (l :: P) <-> ~ In l' P) as Hnot.
  { intros l' Hl' Hs'. split; [intros Hn Hin; apply Hn; by right |].
    intros Hn [<- | Hin]; [| done].
    pose proof (represents_functional _ _ _ _ _ Hl Hl'). subst. lia. }
  pose proof H as H0.
  destruct H as [p Hp | l' Hl' | l' elements items Hr HPl Hb Hl' Hch
                | l' kvs fields Hr HPl Hb Hl' Hk Hgood Hch].
  - by constructor.
  - by constructor.
  - econstructor; [done | by apply Hnot | done | done |].
    eapply Forall2_impl_in; [done |].
    intros x y Hy. pose proof (size_item _ _ Hy). eapply IH; [done | done | lia].
  - econstructor; [done | by apply Hnot | done | done | done | done |].
    eapply Forall2_impl_in; [done |].
    intros x y Hy. pose proof (size_field _ _ Hy). eapply IH; [done | done | lia].
Qed.
End Represents.

Section Describes.
Variable host : Host.
Variable iroot : option nat.

Lemma describes_functional Q data s :
  forall i s', describes host iroot Q data i s -> describes host iroot Q data i s' -> s = s'.
Proof.
  remember (size s) as n eqn:Hn. revert s Hn.
  induction n as [n IH] using lt_wf_ind. intros s -> i s' H H'.
  destruct H as [i p Hr HQ Hp Hi | i name p Hr HQ Hp Hi Hname | i Hi
                | i refs items Hr HQ Hi Hch
                | i prototype name krefs fields Hr HQ Hi Hpi Hname Hk Hgood Hch].
  - inversion H'; subst; congruence.
  - inversion H'; subst; congruence.
  - inversion H'; subst; congruence.
  - inversion H' as [| | | i' refs' items' ? ? Hi' Hch' |]; subst; try congruence.
    rewrite Hi in Hi'. injection Hi' as <-. f_equal.
    eapply Forall2_functional; [| done | done].
    intros x y y' Hy. eapply IH; [| done]. by apply size_item.
  - inversion H' as [| | | | i' prototype' name' krefs' fields' ? ? Hi' ? ? Hk' ? Hch'];
      subst; try congruence.
    rewrite Hi in Hi'. injection Hi' as <- <-.
    f_equal. apply fields_eq; [congruence |].
    eapply Forall2_functional; [| done | done].
    intros x y y' Hy. eapply IH; [| done]. by apply size_field.
Qed.

Lemma describes_mono Q Q' data data' i s :
  (forall j, In j Q' -> In j Q) -> filled_alike data data' ->
  describes host iroot Q data i s -> describes host iroot Q' data' i s.
Proof.
  intros HQ Hd. remember (size s) as n eqn:Hn. revert s Hn i.
  induction n as [n IH] using lt_wf_ind. intros s -> i H.
  destruct H as [i p Hr HQi Hp Hi | i name p Hr HQi Hp Hi Hname | i Hi
                | i refs items Hr HQi Hi Hch
                | i prototype name krefs fields Hr HQi Hi Hpi Hname Hk Hgood Hch].
  - apply d_prim; auto.
  - eapply d_builtin; eauto.
  - by apply d_root.
  - eapply d_array; [done | by auto | by apply Hd |].
    eapply Forall2_impl_in; [done |].
    intros x y Hy. eapply IH; [| done]. by apply size_item.
  - eapply d_object; [done | by auto | by apply Hd | by apply Hd | done | done | done |].
    eapply Forall2_impl_in; [done |].
    intros x y Hy. eapply IH; [| done]. by apply size_field.
Qed.

Lemma describes_exclude Q data i s i' s' :
  describes host iroot Q data i s -> iroot <> Some i -> size s' < size s ->
  describes host iroot Q data i' s' -> describes host iroot (i :: Q) data i' s'.
Proof.
  intros Hi Hri. remember (size s') as n eqn:Hn. revert s' Hn i'.
  induction n as [n IH] using lt_wf_ind. intros s' -> i' Hsize H.
  assert (iroot <> Some i' -> ~ In i' Q -> ~ In i' (i :: Q)) as Hnot.
  { intros Hr Hn [<- | Hin]; [| done].
    pose proof (describes_functional _ _ _ _ _ Hi H). subst. lia. }
  destruct H as [i' p Hr HQi Hp Hi' | i' name p Hr HQi Hp Hi' Hname | i' Hi'
                | i' refs items Hr HQi Hi' Hch
                | i' prototype name krefs fields Hr HQi Hi' Hpi Hname Hk Hgood Hch].
  - apply d_prim; auto.
  - eapply d_builtin; eauto.
  - by apply d_root.
  - eapply d_array; [done | by auto | done |].
    eapply Forall2_impl_in; [done |].
    intros x y Hy. pose proof (size_item _ _ Hy). eapply IH; [done | lia | lia].
  - eapply d_object; [done | by auto | done | done | done | done | done |].
    eapply Forall2_impl_in; [done |].
    intros x y Hy. pose proof (size_field _ _ Hy). eapply IH; [done | lia | lia].
Qed.
End Describes.

Lemma Forall2_common {A B C} (R : A -> C -> Prop) (R' : B -> C -> Prop)
    (D : A -> B -> Prop) xs ys zs :
  Forall2 R xs zs -> Forall2 R' ys zs ->
  (forall x y z, In z zs -> R x z -> R' y z -> D x y) ->
  Forall2 D xs ys.
Proof.
  intros H. revert ys. induction H as [|x z xs zs Hxz H IH]; intros ys H' HD.
  - inversion H'. constructor.
  - inversion H' as [|y ? ys' ? Hyz H'']; subst. constructor.
    + eapply HD; [by left | done | done].
    + apply IH; [done |]. intros. eapply HD; [by right | done | done].
Qed.

(** Values of the same shape are deep-equal. *)
Lemma represents_deep_equal host P P' h h' s :
  forall v v', represents host None P h v s -> represents host None P' h' v' s ->
               deep_equal h h' v v'.
Proof.
  remember (size s) as n eqn:Hn. revert s Hn.
  induction n as [n IH] using lt_wf_ind. intros s -> v v' H H'.
  destruct H as [p Hp | l Hl | l elements items Hr HP Hb Hl Hch
                | l kvs fields Hr HP Hb Hl Hk Hgood Hch].
  - inversion H'. constructor.
  - done.
  - inversion H' as [| | l' elements' ? ? ? ? Hl' Hch' |]; subst.
    eapply de_array; [done | done |].
    eapply Forall2_common; [done | done |].
    intros x y z Hz. eapply IH; [| done]. by apply size_item.
  - inversion H' as [| | | l' kvs' ? ? ? ? Hl' Hk' _ Hch']; subst.
    eapply de_object; [done | done | congruence |].
    eapply Forall2_common; [done | done |].
    intros x y z Hz. eapply IH; [| done]. by apply size_field.
Qed.

(** ** Encoding plain data *)

Lemma prim_strict_equals_plain p q :
  plain_prim p = true -> plain_prim q = true -> prim_strict_equals p q = true -> p = q.
Proof.
  destruct p as [| | b | [| | x] | x], q as [| | c | [| | y] | y]; simpl; try done.
  - intros _ _. destruct b, c; simpl; congruence.
  - intros _ _ H. apply Z.eqb_eq in H. by subst.
  - intros _ _ H. apply String.eqb_eq in H. by subst.
Qed.

Lemma prim_strict_equals_refl p : plain_prim p = true -> prim_strict_equals p p = true.
Proof.
  destruct p as [| | b | [| | x] | x]; simpl; try done.
  - intros _. by destruct b.
  - intros _. apply Z.eqb_refl.
  - intros _. apply String.eqb_refl.
Qed.

Lemma strict_equals_ref l v : strict_equals (VRef l) v = true -> v = VRef l.
Proof.
  destruct v as [p | l']; simpl; [done |]. intros H. apply Nat.eqb_eq in H. by subst.
Qed.

Lemma find_element_prefix im im' v i :
  im `prefix_of` im' -> find_element im v = Some i -> find_element im' v = Some i.
Proof. intros [k ->] H. by rewrite find_element_app, H. Qed.

Lemma find_element_push im e j v i :
  find_element (im ++ [(e, j)]) v = Some i ->
  find_element im v = Some i
  \/ (find_element im v = None /\ strict_equals e v = true /\ i = j).
Proof.
  rewrite find_element_app. destruct (find_element im v); [by left |].
  simpl. destruct (strict_equals e v); [| done]. intros [= <-]. by right.
Qed.

Lemma filled_alike_refl data : filled_alike data data.
Proof. by intros i c H. Qed.

Lemma filled_alike_trans d1 d2 d3 :
  filled_alike d1 d2 -> filled_alike d2 d3 -> filled_alike d1 d3.
Proof. intros H12 H23 i c H. by apply H23, H12. Qed.

Lemma filled_alike_prefix data data' : data `prefix_of` data' -> filled_alike data data'.
Proof. intros Hp i c H. by eapply prefix_lookup_Some. Qed.

Lemma filled_alike_fill data i c :
  data !! i = Some None -> filled_alike data (<[i:=Some c]> data).
Proof.
  intros Hi j c' Hj. rewrite list_lookup_insert_ne; [done |]. intros ->. congruence.
Qed.

Lemma represents_not_prim_root host root P h p s :
  represents host root P h (VPrim p) s -> s = SPrim p /\ plain_prim p = true.
Proof. by inversion 1. Qed.

Section Encode.
Variable host : Host.
Variable h : heap.
Variable root : option loc.
Variable iroot : option nat.
Hypothesis registry_ok : well_behaved host.

Lemma OP_not_plain l :
  getNameOfBuiltin host (VRef l) = None -> ObjectPrototype host <> VRef l.
Proof.
  intros Hl Heq. destruct registry_ok as (_ & [name Hname] & _).
  rewrite Heq in Hname. congruence.
Qed.

(** The table takes a new object whose record is under construction. *)
Lemma EncInv_start P w l :
  EncInv host h root iroot P w ->
  find_element (indexMap (this w)) (VRef l) = None ->
  getNameOfBuiltin host (VRef l) = None ->
  EncInv host h root iroot (l :: P)
    (mkWorld (heap_of w)
       (mkGraph (indexMap (this w) ++ [(VRef l, length (contentArray (this w)))])
          (rootIndex (this w)) (contentArray (this w) ++ [None]))).
Proof.
  intros (Hh & HA & HB & HR & HI & HL) Hfind Hnb.
  assert (filled_alike (contentArray (this w)) (contentArray (this w) ++ [None])) as Hfa
    by (apply filled_alike_prefix; by apply prefix_app_r).
  split; [done |]. simpl. split; [| split; [| split; [| split]]].
  - intros v i s Hv Hprog Hrep Hs.
    apply find_element_push in Hv as [Hv | (_ & Heq & _)].
    + eapply describes_mono; [done | done |]. eapply HA; [done | | done | done].
      destruct v; simpl in *; tauto.
    + apply strict_equals_ref in Heq as ->. simpl in Hprog. tauto.
  - intros i Hi. apply find_element_push in Hi as [Hi | (_ & Heq & _)].
    + destruct (HB i Hi) as (name & Hc & Hn). exists name. split; [| done].
      by apply lookup_app_l_Some.
    + apply strict_equals_ref in Heq. by apply OP_not_plain in Heq.
  - intros l' Hl'. destruct (HR l' Hl') as (ir & Hir & Hf). exists ir. split; [done |].
    eapply find_element_prefix; [| done]. by apply prefix_app_r.
  - intros ir Hir. rewrite length_app. specialize (HI ir Hir). simpl. lia.
  - intros v i Hv. rewrite length_app. simpl.
    apply find_element_push in Hv as [Hv | (_ & _ & ->)]; [| lia].
    specialize (HL v i Hv). lia.
Qed.

(** The record of the object is stored: the object is done. *)
Lemma EncInv_finish P w1 w l idx c s :
  EncInv host h root iroot (l :: P) w ->
  extends w1 w ->
  find_element (indexMap (this w1)) (VRef l) = Some idx ->
  contentArray (this w1) !! idx = Some None ->
  represents host root [] h (VRef l) s -> s <> SRoot ->
  (filled_alike (contentArray (this w)) (<[idx:=Some c]> (contentArray (this w))) ->
   describes host iroot [] (<[idx:=Some c]> (contentArray (this w))) idx s) ->
  EncInv host h root iroot P
    (mkWorld (heap_of w)
       (mkGraph (indexMap (this w)) (rootIndex (this w))
          (<[idx:=Some c]> (contentArray (this w)))))
  /\ describes host iroot [] (<[idx:=Some c]> (contentArray (this w))) idx s.
Proof.
  intros (Hh & HA & HB & HR & HI & HL) (_ & Him & Hca) Hidx Hslot Hrep Hs Hdesc.
  assert (contentArray (this w) !! idx = Some None) as Hslot'
    by (by eapply prefix_lookup_Some).
  pose proof (filled_alike_fill _ idx c Hslot') as Hfa.
  specialize (Hdesc Hfa). split; [| done].
  split; [done |]. simpl. split; [| split; [| split; [| split]]].
  - intros v i s' Hv Hprog Hrep' Hs'.
    assert (v = VRef l \/ ~ in_progress (l :: P) v) as [-> | Hne].
    { destruct v as [p | l']; simpl in *; [by right |].
      destruct (decide (l' = l)) as [-> | Hne]; [by left |].
      right. intros [-> | ?]; [done | tauto]. }
    + pose proof (find_element_prefix _ _ _ _ Him Hidx) as Hidx'.
      rewrite Hidx' in Hv. injection Hv as <-.
      by rewrite <- (represents_functional host root [] h s (VRef l) s' Hrep Hrep').
    + eapply describes_mono; [done | done |]. by eapply HA.
  - intros i Hi. destruct (HB i Hi) as (name & Hc & Hn). exists name. split; [| done].
    by apply Hfa.
  - done.
  - intros ir Hir. rewrite length_insert. by apply HI.
  - intros v i Hv. rewrite length_insert. by eapply HL.
Qed.

(** A primitive, or a registered builtin, gets its record at once. *)
Lemma EncInv_leaf P w v c :
  EncInv host h root iroot P w ->
  find_element (indexMap (this w)) v = None ->
  (forall s v', strict_equals v v' = true ->
                represents host root [] h v' s -> s <> SRoot ->
                forall data, data !! length (contentArray (this w)) = Some (Some c) ->
                             describes host iroot [] data (length (contentArray (this w))) s) ->
  (strict_equals v (ObjectPrototype host) = true ->
   exists name, c = CBuiltin name
                /\ getBuiltinByName host name = Some (ObjectPrototype host)) ->
  EncInv host h root iroot P
    (mkWorld (heap_of w)
       (mkGraph (indexMap (this w) ++ [(v, length (contentArray (this w)))])
          (rootIndex (this w))
          (<[length (contentArray (this w)):=Some c]> (contentArray (this w) ++ [None])))).
Proof.
  intros (Hh & HA & HB & HR & HI & HL) Hfind Hdesc HOP.
  set (data' := <[_ := _]> _).
  assert (data' = contentArray (this w) ++ [Some c]) as Hdata.
  { unfold data'. rewrite insert_app_r_alt by done. by rewrite Nat.sub_diag. }
  assert (filled_alike (contentArray (this w)) data') as Hfa.
  { rewrite Hdata. apply filled_alike_prefix. by apply prefix_app_r. }
  assert (data' !! length (contentArray (this w)) = Some (Some c)) as Hnew.
  { rewrite Hdata. rewrite lookup_app_r by done. by rewrite Nat.sub_diag. }
  split; [done |]. simpl. split; [| split; [| split; [| split]]].
  - intros v' i s Hv Hprog Hrep Hs.
    apply find_element_push in Hv as [Hv | (_ & Heq & ->)].
    + eapply describes_mono; [done | done |]. by eapply HA.
    + by eapply Hdesc.
  - intros i Hi. apply find_element_push in Hi as [Hi | (_ & Heq & ->)].
    + destruct (HB i Hi) as (name & Hc & Hn). exists name. split; [| done]. by apply Hfa.
    + destruct (HOP Heq) as (name & -> & Hn). by exists name.
  - intros l' Hl'. destruct (HR l' Hl') as (ir & Hir & Hf). exists ir. split; [done |].
    eapply find_element_prefix; [| done]. by apply prefix_app_r.
  - intros ir Hir. rewrite Hdata, length_app. specialize (HI ir Hir). simpl. lia.
  - intros v' i Hv. rewrite Hdata, length_app. simpl.
    apply find_element_push in Hv as [Hv | (_ & _ & ->)]; [| lia].
    specialize (HL v' i Hv). lia.
Qed.

Lemma extends_leaf w v c :
  extends w
    (mkWorld (heap_of w)
       (mkGraph (indexMap (this w) ++ [(v, length (contentArray (this w)))])
          (rootIndex (this w))
          (<[length (contentArray (this w)):=Some c]> (contentArray (this w) ++ [None])))).
Proof.
  repeat split; simpl; [done | by apply prefix_app_r |].
  apply prefix_insert_ge; [by apply prefix_app_r | done].
Qed.

Lemma add_ObjectPrototype P fuel w :
  EncInv host h root iroot P w ->
  returns (add host (S fuel) (ObjectPrototype host)) w
    (fun i w' =>
       (exists name, contentArray (this w') !! i = Some (Some (CBuiltin name))
                     /\ getBuiltinByName host name = Some (ObjectPrototype host))
       /\ EncInv host h root iroot P w' /\ extends w w').
Proof.
  intros HI. pose proof HI as (Hh & HA & HB & HR & HIr & HL).
  destruct registry_ok as (Hrt & [name Hname] & [lo Hlo]).
  simpl. apply returns_bind, returns_get_this.
  destruct (find_element _ _) as [i |] eqn:Hfind.
  { apply returns_ret. split; [by apply HB |]. split; [done | apply extends_refl]. }
  apply returns_bind, returns_set_contentArray.
  apply returns_bind, returns_indexMap_push. simpl.
  unfold serialize. rewrite Hname.
  apply returns_bind, returns_ret. apply returns_bind, returns_get_this.
  apply returns_bind, returns_set_contentArray. apply returns_ret. simpl.
  split; [| split; [| apply extends_leaf]].
  - exists name. split; [| by apply Hrt].
    rewrite insert_app_r_alt by done. rewrite Nat.sub_diag. simpl.
    rewrite lookup_app_r by done. by rewrite Nat.sub_diag.
  - apply EncInv_leaf; [done | done | |].
    + intros s v' Heq Hrep Hs. rewrite Hlo in Heq. apply strict_equals_ref in Heq as ->.
      rewrite <- Hlo in Hrep. inversion Hrep; subst; try done;
        exfalso; eapply OP_not_plain; try done; congruence.
    + intros _. exists name. split; [done | by apply Hrt].
Qed.

Lemma mapM_add_represents P fuel elements items w :
  Forall2 (represents host root P h) elements items ->
  (forall s v w', In s items -> represents host root P h v s ->
                  EncInv host h root iroot P w' ->
                  returns (add host fuel v) w' (enc_post host h root iroot P s w')) ->
  EncInv host h root iroot P w ->
  returns (mapM (add host fuel) elements) w
    (fun refs w' =>
       Forall2 (describes host iroot [] (contentArray (this w'))) refs items
       /\ EncInv host h root iroot P w' /\ extends w w').
Proof.
  intros H. revert w. induction H as [|v s elements items Hv H IH]; intros w Hadd HI.
  - simpl. apply returns_ret. split; [constructor |]. split; [done | apply extends_refl].
  - simpl. apply returns_bind.
    eapply returns_mono; [apply (Hadd s v w); [by left | done | done] |].
    intros i w1 (Hd1 & HI1 & He1). simpl. apply returns_bind.
    eapply returns_mono; [apply IH; [| done] |].
    { intros s' v' w' Hs'. apply Hadd. by right. }
    intros refs w2 (Hd2 & HI2 & He2). apply returns_ret.
    split; [| split; [done | by eapply extends_trans]].
    constructor; [| done].
    eapply describes_mono; [done | | done].
    apply filled_alike_prefix. apply He2.
Qed.

Lemma assoc_set_fresh {V} k (x : V) m :
  ~ In k (map fst m) -> assoc_set k x m = m ++ [(k, x)].
Proof.
  induction m as [|[k' y] m IH]; simpl; [done |]. intros Hk.
  destruct (String.eqb k' k) eqn:Heq.
  - apply String.eqb_eq in Heq. tauto.
  - f_equal. apply IH. tauto.
Qed.

Lemma foldM_serializeProperty_represents P fuel kvs :
  forall fields refs0 w,
    Forall2 (represents host root P h) (map snd kvs) (map snd fields) ->
    map fst kvs = map fst fields ->
    NoDup (map fst refs0 ++ map fst kvs) -> ~ In "__closure" (map fst kvs) ->
    (forall s v w', In s (map snd fields) -> represents host root P h v s ->
                    EncInv host h root iroot P w' ->
                    returns (add host fuel v) w' (enc_post host h root iroot P s w')) ->
    EncInv host h root iroot P w ->
    returns (foldM (serializeProperty (add host fuel)) (refs0, []) (plain_props kvs)) w
      (fun rd w' =>
         exists krefs,
           rd = (refs0 ++ krefs, [])
           /\ map fst krefs = map fst kvs
           /\ Forall2 (describes host iroot [] (contentArray (this w')))
                (map snd krefs) (map snd fields)
           /\ EncInv host h root iroot P w' /\ extends w w').
Proof.
  induction kvs as [|[k v] kvs IH]; intros fields refs0 w Hrep Hkeys Hnd Hcl Hadd HI.
  - destruct fields; [| done]. simpl. apply returns_ret. exists [].
    rewrite app_nil_r. split; [done |]. split; [done |]. split; [constructor |].
    split; [done | apply extends_refl].
  - destruct fields as [|[k' s] fields]; [done |]. simpl in *.
    injection Hkeys as <- Hkeys. apply Forall2_cons in Hrep as [Hv Hrep].
    assert (String.eqb k "__closure" = false) as ->.
    { apply String.eqb_neq. intros ->. tauto. }
    apply returns_bind. apply returns_bind.
    eapply returns_mono; [apply (Hadd s v w); [by left | done | done] |].
    intros i w1 (Hd1 & HI1 & He1). apply returns_ret. simpl.
    rewrite assoc_set_fresh.
    2: { apply NoDup_app in Hnd as (_ & Hnd & _). intros Hin. apply (Hnd k).
         - by apply list_elem_of_In.
         - left. }
    eapply returns_mono; [apply (IH fields (refs0 ++ [(k, i)]) w1); try done |].
    + rewrite map_app. simpl. by rewrite <- app_assoc.
    + tauto.
    + intros s' v' w' Hs'. apply Hadd. by right.
    + intros rd w2 (krefs & -> & Hk2 & Hd2 & HI2 & He2).
      exists ((k, i) :: krefs). rewrite <- app_assoc. simpl.
      split; [done |]. split; [by f_equal |].
      split; [| split; [done | by eapply extends_trans]].
      constructor; [| done].
      eapply describes_mono; [done | | done].
      apply filled_alike_prefix. apply He2.
Qed.

Lemma find_element_pushed im l idx :
  find_element im (VRef l) = None ->
  find_element (im ++ [(VRef l, idx)]) (VRef l) = Some idx.
Proof. intros H. rewrite find_element_app, H. simpl. by rewrite Nat.eqb_refl. Qed.

Lemma lookup_pushed_slot (data : list (option content)) :
  (data ++ [None]) !! length data = Some None.
Proof. rewrite lookup_app_r by done. by rewrite Nat.sub_diag. Qed.

Lemma extends_start w v :
  extends w
    (mkWorld (heap_of w)
       (mkGraph (indexMap (this w) ++ [(v, length (contentArray (this w)))])
          (rootIndex (this w)) (contentArray (this w) ++ [None]))).
Proof. repeat split; simpl; [done | by apply prefix_app_r ..]. Qed.

Lemma extends_fill w1 w idx c :
  extends w1 w -> length (contentArray (this w1)) <= idx ->
  extends w1
    (mkWorld (heap_of w)
       (mkGraph (indexMap (this w)) (rootIndex (this w))
          (<[idx:=Some c]> (contentArray (this w))))).
Proof.
  intros (? & ? & ?) ?. repeat split; simpl; [done | done |].
  by apply prefix_insert_ge.
Qed.

(** The encoder on plain data: [add] returns an index whose record describes
    the shape of the value. *)
Lemma add_represents s :
  forall v fuel w P,
    represents host root P h v s -> depth s < fuel ->
    EncInv host h root iroot P w ->
    returns (add host fuel v) w (enc_post host h root iroot P s w).
Proof.
  remember (size s) as n eqn:Hn. revert s Hn.
  induction n as [n IH] using lt_wf_ind. intros s -> v fuel w P Hrep Hfuel HI.
  destruct fuel as [|fuel]; [lia |].
  pose proof HI as (Hh & HA & HB & HR & HIr & HL).
  assert (represents host root [] h v s) as Hrep0.
  { eapply represents_mono; [| apply agree_refl | done]. done. }
  assert (forall i, find_element (indexMap (this w)) v = Some i -> s <> SRoot ->
                    ~ in_progress P v ->
                    returns (ret i) w (enc_post host h root iroot P s w)) as Hfound.
  { intros i Hi Hs Hprog. apply returns_ret. split; [by eapply HA |].
    split; [done | apply extends_refl]. }
  assert (forall ir, iroot = Some ir -> ir <> length (contentArray (this w))) as Hir.
  { intros ir Hir. specialize (HIr ir Hir). lia. }
  simpl. apply returns_bind, returns_get_this.
  destruct Hrep as [p Hp | l Hl | l elements items Hr HPl Hb Hl Hch
                   | l kvs fields Hr HPl Hb Hl Hk Hgood Hch].
  - (* a primitive *)
    destruct (find_element (indexMap (this w)) (VPrim p)) as [i |] eqn:Hfind;
      [apply Hfound; [done | done | simpl; tauto] |].
    apply returns_bind, returns_set_contentArray.
    apply returns_bind, returns_indexMap_push. simpl.
    set (idx := length (contentArray (this w))).
    assert (forall c,
              (forall data, data !! idx = Some (Some c) ->
                            describes host iroot [] data idx (SPrim p)) ->
              returns (let* g' := get_this in
                       set_contentArray (<[idx:=Some c]> (contentArray g'));; ret idx)
                (mkWorld (heap_of w)
                   (mkGraph (indexMap (this w) ++ [(VPrim p, idx)]) (rootIndex (this w))
                      (contentArray (this w) ++ [None])))
                (enc_post host h root iroot P (SPrim p) w)) as Hfill.
    { intros c Hc. apply returns_bind, returns_get_this.
      apply returns_bind, returns_set_contentArray. apply returns_ret. simpl.
      split; [| split; [| apply extends_leaf]].
      - apply Hc. rewrite insert_app_r_alt by done. unfold idx. rewrite Nat.sub_diag.
        simpl. rewrite lookup_app_r by done. by rewrite Nat.sub_diag.
      - apply EncInv_leaf; [done | done | | ].
        + intros s' v' Heq Hrep' Hs' data Hdata.
          destruct v' as [p' | l']; [| done].
          apply represents_not_prim_root in Hrep' as [-> Hp'].
          apply prim_strict_equals_plain in Heq as <-; [| done | done]. by apply Hc.
        + intros Heq. destruct registry_ok as (_ & _ & [lo Hlo]).
          rewrite Hlo in Heq. done. }
    unfold serialize. destruct (getNameOfBuiltin host (VPrim p)) as [name |] eqn:Hname.
    + apply returns_bind, returns_ret. apply Hfill. intros data Hdata.
      eapply d_builtin; [by intros [= ?%Hir] | by intros [] | done | done |].
      by apply registry_ok.
    + apply returns_bind, returns_ret. apply Hfill. intros data Hdata.
      eapply d_prim; [by intros [= ?%Hir] | by intros [] | done | done].
  - (* the root *)
    destruct (HR l Hl) as (ir & Hir' & Hfind). rewrite Hfind.
    apply returns_ret. split; [by apply d_root |]. split; [done | apply extends_refl].
  - (* an array *)
    destruct (find_element (indexMap (this w)) (VRef l)) as [i |] eqn:Hfind;
      [apply Hfound; [done | done | simpl; tauto] |].
    apply returns_bind, returns_set_contentArray.
    apply returns_bind, returns_indexMap_push. simpl.
    set (idx := length (contentArray (this w))).
    set (w1 := mkWorld _ _).
    pose proof (EncInv_start P w l HI Hfind Hb) as HI1. fold idx in HI1. fold w1 in HI1.
    unfold serialize. rewrite Hb.
    apply returns_bind, returns_bind. eapply returns_read; [unfold w1; simpl; rewrite Hh; exact Hl |]. simpl.
    apply returns_bind.
    eapply returns_mono;
      [apply (mapM_add_represents (l :: P) fuel elements items w1); [| | done] |].
    + eapply Forall2_impl_in; [done |]. intros x y Hy Hxy.
      eapply (represents_exclude host root P h l (SArray items));
        [by econstructor | by apply size_item | done].
    + intros s' v' w' Hs' Hrep' HI'.
      eapply IH; [by apply size_item | done | done | | done].
      pose proof (depth_item _ _ Hs'). lia.
    + intros refs wk (Hd & HIk & Hek). apply returns_ret.
      apply returns_bind, returns_get_this.
      apply returns_bind, returns_set_contentArray. apply returns_ret. simpl.
      destruct (EncInv_finish P w1 wk l idx (CArray refs) (SArray items) HIk Hek)
        as [HIf Hdf].
      * by apply find_element_pushed.
      * apply lookup_pushed_slot.
      * exact Hrep0.
      * done.
      * intros Hfa. eapply d_array; [by intros [= ?%Hir] | by intros [] | |].
        -- apply list_lookup_insert_eq. destruct Hek as (_ & _ & Hca).
           apply prefix_length in Hca. simpl in Hca. rewrite length_app in Hca.
           simpl in Hca. unfold idx. lia.
        -- eapply Forall2_impl_in; [done |]. intros x y _ Hxy.
           eapply describes_mono; [done | done | done].
      * split; [done |]. split; [done |].
        apply extends_fill; [| done].
        eapply extends_trans; [apply extends_start | done].
  - (* a plain object *)
    destruct (find_element (indexMap (this w)) (VRef l)) as [i |] eqn:Hfind;
      [apply Hfound; [done | done | simpl; tauto] |].
    apply returns_bind, returns_set_contentArray.
    apply returns_bind, returns_indexMap_push. simpl.
    set (idx := length (contentArray (this w))).
    set (w1 := mkWorld _ _).
    pose proof (EncInv_start P w l HI Hfind Hb) as HI1. fold idx in HI1. fold w1 in HI1.
    unfold serialize. rewrite Hb.
    apply returns_bind, returns_bind. eapply returns_read; [unfold w1; simpl; rewrite Hh; exact Hl |]. simpl.
    unfold serializeObject. simpl.
    destruct fuel as [|fuel]; [simpl in Hfuel; lia |].
    apply returns_bind.
    eapply returns_mono; [by apply add_ObjectPrototype |].
    intros pi w2 ((name & Hpi & Hname) & HI2 & He2). simpl.
    apply returns_bind. unfold serializeProperties. simpl.
    destruct Hgood as [Hnd Hcl].
    eapply returns_mono;
      [apply (foldM_serializeProperty_represents (l :: P) (S fuel) kvs fields [] w2);
       [| done | by rewrite Hk | by rewrite Hk | | done] |].
    + eapply Forall2_impl_in; [done |]. intros x y Hy Hxy.
      eapply (represents_exclude host root P h l (SObject fields));
        [by econstructor | by apply size_field | done].
    + intros s' v' w' Hs' Hrep' HI'.
      eapply IH; [by apply size_field | done | done | | done].
      pose proof (depth_field _ _ Hs'). lia.
    + intros rd wk (krefs & -> & Hkk & Hd & HIk & Hek). apply returns_ret. simpl.
      apply returns_bind, returns_get_this.
      apply returns_bind, returns_set_contentArray. apply returns_ret. simpl.
      assert (extends w1 wk) as He1k by (by eapply extends_trans).
      destruct (EncInv_finish P w1 wk l idx (CObject pi krefs [])
                  (SObject fields) HIk He1k) as [HIf Hdf].
      * by apply find_element_pushed.
      * apply lookup_pushed_slot.
      * exact Hrep0.
      * done.
      * intros Hfa.
        eapply d_object; [by intros [= ?%Hir] | by intros [] | | | done | | done |].
        -- apply list_lookup_insert_eq. destruct He1k as (_ & _ & Hca).
           apply prefix_length in Hca. simpl in Hca. rewrite length_app in Hca.
           simpl in Hca. unfold idx. lia.
        -- apply Hfa. eapply prefix_lookup_Some; [done |]. apply Hek.
        -- congruence.
        -- eapply Forall2_impl_in; [done |]. intros x y _ Hxy.
           eapply describes_mono; [done | done | done].
      * split; [done |]. split; [done |].
        apply extends_fill; [| done].
        eapply extends_trans; [apply extends_start | done].
Qed.
End Encode.

(** ** Decoding plain data *)

Lemma find_index_push_inv im e j i x :
  find_index (im ++ [(e, j)]) i = Some x ->
  find_index im i = Some x \/ (find_index im i = None /\ i = j /\ x = e).
Proof.
  rewrite find_index_app. destruct (find_index im i); [by left |].
  simpl. destruct (Nat.eqb i j) eqn:Heq; [| done].
  apply Nat.eqb_eq in Heq. intros [= <-]. by right.
Qed.

Lemma find_index_pushed im e i :
  find_index im i = None -> find_index (im ++ [(e, i)]) i = Some e.
Proof. intros H. rewrite find_index_app, H. simpl. by rewrite Nat.eqb_refl. Qed.

Lemma assoc_get_None {V} k (m : list (string * V)) :
  ~ In k (map fst m) -> assoc_get k m = None.
Proof.
  induction m as [|[k' y] m IH]; simpl; [done |]. intros Hk.
  destruct (String.eqb k' k) eqn:Heq.
  - apply String.eqb_eq in Heq. tauto.
  - apply IH. tauto.
Qed.

Lemma dec_rel_refl root' P w : dec_rel root' P w w.
Proof. split; [apply agree_refl | by split]. Qed.

Lemma dec_rel_trans root' P w1 w2 w3 :
  dec_rel root' P w1 w2 -> dec_rel root' P w2 w3 -> dec_rel root' P w1 w3.
Proof.
  intros (? & ? & ?) (? & ? & ?). split; [by eapply agree_trans |].
  split; [lia | by etrans].
Qed.

Lemma dec_rel_weaken root' P P' w w' :
  (forall l, In l P -> In l P') -> dec_rel root' P w w' -> dec_rel root' P' w w'.
Proof. intros HP (? & ? & ?). split; [by eapply agree_weaken | done]. Qed.

Lemma decode_step_dec_rel root' P w w' : decode_step w w' -> dec_rel root' P w w'.
Proof.
  intros (Hh & Hi & _ & _). split; [by apply agree_prefix |].
  split; [by apply prefix_length | done].
Qed.

Section Decode.
Variable host : Host.
Variable data : list (option content).
Variable root' : option loc.
Variable iroot : option nat.
Hypothesis registry_ok : well_behaved host.

Lemma DecInv_frame P Q w h' :
  DecInv host data root' iroot P Q w ->
  agree root' P (heap_of w) h' -> length (heap_of w) <= length h' ->
  DecInv host data root' iroot P Q (mkWorld h' (this w)).
Proof.
  intros (Hd & HA & HB & HR & HF & HFr & HN) Hag Hlen.
  split; [done |]. simpl. split; [| split; [done | split; [done | split; [| split]]]].
  - intros i e s Hi HQ Hdesc Hs.
    eapply represents_mono; [| done | by eapply HA]. done.
  - intros l Hl. specialize (HF l Hl). lia.
  - intros r Hr. specialize (HFr r Hr). lia.
  - intros l Hl. apply HN. lia.
Qed.

(** A new object under construction enters heap and table. *)
Lemma DecInv_start P Q w i o :
  DecInv host data root' iroot P Q w ->
  find_index (indexMap (this w)) i = None ->
  (forall name, data !! i <> Some (Some (CBuiltin name))) ->
  DecInv host data root' iroot (length (heap_of w) :: P) (i :: Q)
    (mkWorld (heap_of w ++ [o])
       (mkGraph (indexMap (this w) ++ [(VRef (length (heap_of w)), i)])
          (rootIndex (this w)) (contentArray (this w)))).
Proof.
  intros (Hd & HA & HB & HR & HF & HFr & HN) Hfind Hnb.
  split; [done |]. simpl. split; [| split; [| split; [| split; [| split]]]].
  - intros i' e s Hi' HQ Hdesc Hs.
    apply find_index_push_inv in Hi' as [Hi' | (_ & -> & _)]; [| tauto].
    eapply represents_mono; [| apply agree_prefix; by apply prefix_app_r |].
    { intros l Hl. exact Hl. }
    apply represents_fresh; [by apply lookup_ge_None_2 |].
    eapply HA; [done | tauto | done | done].
  - intros i' e name Hi' Hc.
    apply find_index_push_inv in Hi' as [Hi' | (_ & -> & _)]; [by eapply HB |].
    by apply Hnb in Hc.
  - intros ir Hir. destruct (HR ir Hir) as (r & Hr & Hf). exists r. split; [done |].
    eapply find_index_prefix; [| done]. by apply prefix_app_r.
  - intros l [<- | Hl]; rewrite length_app; simpl; [lia |]. specialize (HF l Hl). lia.
  - intros r Hr. rewrite length_app. specialize (HFr r Hr). simpl. lia.
  - intros l Hl. rewrite length_app in Hl. apply HN. lia.
Qed.

(** The object is complete. *)
Lemma DecInv_finish P Q w r i s :
  DecInv host data root' iroot (r :: P) (i :: Q) w ->
  find_index (indexMap (this w)) i = Some (VRef r) ->
  describes host iroot [] data i s ->
  represents host root' P (heap_of w) (VRef r) s ->
  DecInv host data root' iroot P Q w.
Proof.
  intros (Hd & HA & HB & HR & HF & HFr & HN) Hfind Hdesc Hrep.
  split; [done |]. split; [| split; [done | split; [done | split; [| by split]]]].
  - intros i' e s' Hi' HQ Hdesc' Hs'.
    destruct (decide (i' = i)) as [-> | Hne].
    + rewrite Hfind in Hi'. injection Hi' as <-.
      by rewrite <- (describes_functional host iroot [] data s i s' Hdesc Hdesc').
    + eapply represents_mono; [| apply agree_refl |].
      2: { eapply HA; [done | | done | done]. intros [? | ?]; [congruence | done]. }
      intros l Hl. by right.
  - intros l Hl. apply HF. by right.
Qed.

(** A primitive or a builtin enters the table. *)
Lemma DecInv_leaf P Q w i e :
  DecInv host data root' iroot P Q w ->
  find_index (indexMap (this w)) i = None ->
  (forall s, describes host iroot [] data i s -> s <> SRoot ->
             represents host root' P (heap_of w) e s) ->
  (forall name, data !! i = Some (Some (CBuiltin name)) ->
                getBuiltinByName host name = Some e) ->
  DecInv host data root' iroot P Q
    (mkWorld (heap_of w)
       (mkGraph (indexMap (this w) ++ [(e, i)]) (rootIndex (this w))
          (contentArray (this w)))).
Proof.
  intros (Hd & HA & HB & HR & HF & HFr & HN) Hfind Hrep Hb.
  split; [done |]. simpl. split; [| split; [| split; [| done]]].
  - intros i' e' s Hi' HQ Hdesc Hs.
    apply find_index_push_inv in Hi' as [Hi' | (_ & -> & ->)]; [by eapply HA |].
    by apply Hrep.
  - intros i' e' name Hi' Hc.
    apply find_index_push_inv in Hi' as [Hi' | (_ & -> & ->)]; [by eapply HB |].
    by apply Hb.
  - intros ir Hir. destruct (HR ir Hir) as (r & Hr & Hf). exists r. split; [done |].
    eapply find_index_prefix; [| done]. by apply prefix_app_r.
Qed.

Lemma dec_rel_push P w e :
  dec_rel root' P w
    (mkWorld (heap_of w)
       (mkGraph (indexMap (this w) ++ [e]) (rootIndex (this w)) (contentArray (this w)))).
Proof. split; [apply agree_refl |]. split; [done | by apply prefix_app_r]. Qed.

(** The decoder on a builtin record. *)
Lemma get_builtin P Q fuel w i name v :
  DecInv host data root' iroot P Q w ->
  data !! i = Some (Some (CBuiltin name)) ->
  getBuiltinByName host name = Some v ->
  (forall s, describes host iroot [] data i s -> s <> SRoot ->
             represents host root' P (heap_of w) v s) ->
  returns (get host (S fuel) i) w
    (fun x w' => x = v /\ DecInv host data root' iroot P Q w'
                 /\ heap_of w' = heap_of w
                 /\ (indexMap (this w') = indexMap (this w)
                     \/ indexMap (this w') = indexMap (this w) ++ [(v, i)])).
Proof.
  intros HI Hc Hname Hrep. pose proof HI as (Hd & HA & HB & HR & HF & HFr & HN).
  simpl. apply returns_bind, returns_get_this.
  destruct (find_index (indexMap (this w)) i) as [e |] eqn:Hfind.
  { apply returns_ret. split; [| split; [done | split; [done | by left]]].
    specialize (HB i e name Hfind Hc). congruence. }
  rewrite Hd, Hc, Hname. apply returns_bind, returns_indexMap_push. apply returns_ret.
  split; [done |]. split; [| split; [done | by right]].
  apply DecInv_leaf; [done | done | done |].
  intros name' Hc'. congruence.
Qed.

Lemma returns_array_push r x w elements proto props Q0 :
  heap_of w !! r = Some (mkObject (ArrayClass elements) proto props) ->
  Q0 tt (mkWorld (<[r:=mkObject (ArrayClass (elements ++ [x])) proto props]> (heap_of w))
          (this w)) ->
  returns (array_push r x) w Q0.
Proof.
  intros Hr HQ. unfold array_push. apply returns_bind.
  eapply returns_read; [done |]. simpl. by apply returns_write.
Qed.

Lemma returns_put_fresh r key x w cls proto kvs Q0 :
  heap_of w !! r = Some (mkObject cls proto (plain_props kvs)) ->
  ~ In key (map fst kvs) ->
  Q0 tt (mkWorld (<[r:=mkObject cls proto (plain_props (kvs ++ [(key, x)]))]> (heap_of w))
          (this w)) ->
  returns (put (VRef r) key x) w Q0.
Proof.
  intros Hr Hkey HQ. unfold put. apply returns_bind.
  eapply returns_read; [done |]. simpl.
  assert (map fst (plain_props kvs) = map fst kvs) as Hfst.
  { unfold plain_props. rewrite map_map. by apply map_ext. }
  rewrite assoc_get_None by (by rewrite Hfst).
  apply returns_write. rewrite assoc_set_fresh by (by rewrite Hfst).
  unfold plain_props in *. rewrite map_app in HQ. exact HQ.
Qed.

Lemma get_with_step fuel i w Q0 :
  returns (get host fuel i) w Q0 ->
  returns (get host fuel i) w (fun v w' => Q0 v w' /\ decode_step w w').
Proof.
  intros H. pose proof (returns_spec _ _ _ _ _ H (get_decode_step host fuel i w)) as H'.
  eapply returns_mono; [exact H' |].
  intros v w' [? [? _]]. by split.
Qed.

Lemma forM_get_array P Q fuel r proto refs items :
  forall w done,
    Forall2 (describes host iroot Q data) refs items ->
    (forall s i w', In s items -> describes host iroot Q data i s ->
                    DecInv host data root' iroot P Q w' ->
                    returns (get host fuel i) w'
                      (dec_post host data root' iroot P Q s w')) ->
    DecInv host data root' iroot P Q w ->
    In r P \/ root' = Some r ->
    heap_of w !! r = Some (mkObject (ArrayClass done) proto []) ->
    returns (forM_ (fun ref => let* x := get host fuel ref in array_push r x) refs) w
      (fun _ w' =>
         exists new,
           heap_of w' !! r = Some (mkObject (ArrayClass (done ++ new)) proto [])
           /\ Forall2 (represents host root' P (heap_of w')) new items
           /\ DecInv host data root' iroot P Q w' /\ dec_rel root' P w w').
Proof.
  intros w done H. revert w done.
  induction H as [|i s refs items Hi H IH]; intros w done Hget HI Hr Hlook.
  - simpl. apply returns_ret. exists []. rewrite app_nil_r.
    split; [done |]. split; [constructor |]. split; [done | apply dec_rel_refl].
  - simpl. apply returns_bind. apply returns_bind.
    eapply returns_mono; [apply (Hget s i w); [by left | done | done] |].
    intros x w1 (Hx & HI1 & Hstep).
    assert (heap_of w1 !! r = Some (mkObject (ArrayClass done) proto [])) as Hlook1.
    { eapply prefix_lookup_Some; [done |]. apply Hstep. }
    eapply returns_array_push; [done |].
    set (h2 := <[r:=_]> (heap_of w1)).
    assert (agree root' P (heap_of w1) h2) as Hag by (by apply agree_insert).
    assert (length (heap_of w1) <= length h2) as Hlen
      by (unfold h2; by rewrite length_insert).
    eapply returns_mono; [apply (IH (mkWorld h2 (this w1)) (done ++ [x])) |].
    + intros s' i' w' Hs'. apply Hget. by right.
    + by apply DecInv_frame.
    + done.
    + simpl. unfold h2. apply list_lookup_insert_eq. by eapply lookup_lt_Some.
    + simpl. intros _ w' (new & Hlook' & Hnew & HI' & Hrel').
      exists (x :: new). rewrite <- app_assoc in Hlook'. split; [done |].
      split; [| split; [done |]].
      * constructor; [| done].
        eapply represents_mono; [| | done]; [done |].
        eapply agree_trans; [done |]. apply Hrel'.
      * eapply dec_rel_trans; [by apply decode_step_dec_rel |].
        eapply dec_rel_trans; [| done]. split; [done |]. by split.
Qed.

Lemma forM_get_object P Q fuel r proto krefs :
  forall (fields : list (string * shape)) w (done : list (string * value)),
    Forall2 (describes host iroot Q data) (map snd krefs) (map snd fields) ->
    (forall s i w', In s (map snd fields) -> describes host iroot Q data i s ->
                    DecInv host data root' iroot P Q w' ->
                    returns (get host fuel i) w'
                      (dec_post host data root' iroot P Q s w')) ->
    DecInv host data root' iroot P Q w ->
    In r P \/ root' = Some r ->
    NoDup (map fst done ++ map fst krefs) ->
    heap_of w !! r = Some (mkObject ObjectClass proto (plain_props done)) ->
    returns (forM_ (deserializeRef (get host fuel) (VRef r)) krefs) w
      (fun _ w' =>
         exists new,
           heap_of w' !! r
           = Some (mkObject ObjectClass proto (plain_props (done ++ new)))
           /\ map fst new = map fst krefs
           /\ Forall2 (represents host root' P (heap_of w')) (map snd new) (map snd fields)
           /\ DecInv host data root' iroot P Q w' /\ dec_rel root' P w w').
Proof.
  induction krefs as [|[k i] krefs IH]; intros fields w done H Hget HI Hr Hnd Hlook.
  - destruct fields; [| by inversion H]. simpl. apply returns_ret. exists [].
    rewrite app_nil_r. split; [done |]. split; [done |]. split; [constructor |].
    split; [done | apply dec_rel_refl].
  - destruct fields as [|[k' s] fields]; [by inversion H |]. simpl in *.
    apply Forall2_cons in H as [Hi H].
    apply returns_bind. unfold deserializeRef at 1. simpl. apply returns_bind.
    eapply returns_mono; [apply (Hget s i w); [by left | done | done] |].
    intros x w1 (Hx & HI1 & Hstep).
    assert (heap_of w1 !! r = Some (mkObject ObjectClass proto (plain_props done)))
      as Hlook1.
    { eapply prefix_lookup_Some; [done |]. apply Hstep. }
    eapply returns_put_fresh; [done | |].
    { apply NoDup_app in Hnd as (_ & Hnd & _). intros Hin. apply (Hnd k).
      - by apply list_elem_of_In.
      - left. }
    set (h2 := <[r:=_]> (heap_of w1)).
    assert (agree root' P (heap_of w1) h2) as Hag by (by apply agree_insert).
    assert (length (heap_of w1) <= length h2) as Hlen
      by (unfold h2; by rewrite length_insert).
    eapply returns_mono;
      [apply (IH fields (mkWorld h2 (this w1)) (done ++ [(k, x)])) |].
    + done.
    + intros s' i' w' Hs'. apply Hget. by right.
    + by apply DecInv_frame.
    + done.
    + rewrite map_app. simpl. by rewrite <- app_assoc.
    + simpl. unfold h2. apply list_lookup_insert_eq. by eapply lookup_lt_Some.
    + simpl. intros _ w' (new & Hlook' & Hk' & Hnew & HI' & Hrel').
      exists ((k, x) :: new). rewrite <- app_assoc in Hlook'. split; [done |].
      split; [simpl; by f_equal |]. split; [| split; [done |]].
      * constructor; [| done].
        eapply represents_mono; [| | done]; [done |].
        eapply agree_trans; [done |]. apply Hrel'.
      * eapply dec_rel_trans; [by apply decode_step_dec_rel |].
        eapply dec_rel_trans; [| done]. split; [done |]. by split.
Qed.

Lemma lookup_alloc_here (hp : heap) o : (hp ++ [o]) !! length hp = Some o.
Proof. rewrite lookup_app_r by done. by rewrite Nat.sub_diag. Qed.

(** The decoder on plain data: [get] returns a value of the shape that the
    record describes. *)
Lemma get_represents s :
  forall i fuel w P Q,
    describes host iroot Q data i s -> depth s < fuel ->
    DecInv host data root' iroot P Q w ->
    returns (get host fuel i) w (dec_post host data root' iroot P Q s w).
Proof.
  remember (size s) as n eqn:Hn. revert s Hn.
  induction n as [n IH] using lt_wf_ind. intros s -> i fuel w P Q Hdesc Hfuel HI.
  cut (returns (get host fuel i) w
         (fun v w' => represents host root' P (heap_of w') v s
                      /\ DecInv host data root' iroot P Q w')).
  { intros H. eapply returns_mono; [apply get_with_step, H |].
    intros v w' [[? ?] ?]. split; [done | by split]. }
  destruct fuel as [|fuel]; [lia |].
  pose proof HI as (Hd & HA & HB & HR & HF & HFr & HN).
  assert (describes host iroot [] data i s) as Hdesc0.
  { eapply describes_mono; [| apply filled_alike_refl | done]. done. }
  assert (forall s', describes host iroot [] data i s' -> s' = s) as Hfun.
  { intros s' Hs'. by apply (describes_functional host iroot [] data s' i s). }
  assert (forall e, find_index (indexMap (this w)) i = Some e -> s <> SRoot -> ~ In i Q ->
                    returns (ret e) w
                      (fun v w' => represents host root' P (heap_of w') v s
                                   /\ DecInv host data root' iroot P Q w')) as Hfound.
  { intros e He Hs HQ. apply returns_ret. split; [by eapply HA | done]. }
  destruct Hdesc as [i p Hr HQi Hp Hi | i name p Hr HQi Hp Hi Hname | i Hi
                    | i refs items Hr HQi Hi Hch
                    | i prototype name krefs fields Hr HQi Hi Hpi Hname Hk Hgood Hch].
  - (* a primitive record *)
    simpl. apply returns_bind, returns_get_this.
    destruct (find_index (indexMap (this w)) i) as [e |] eqn:Hfind;
      [by apply Hfound |].
    rewrite Hd, Hi. apply returns_bind, returns_indexMap_push. apply returns_ret.
    split; [by constructor |].
    apply DecInv_leaf; [done | done | |].
    + intros s' Hs' _. rewrite (Hfun s' Hs'). by constructor.
    + intros name Hc. congruence.
  - (* a builtin record that names a primitive *)
    eapply returns_mono; [apply (get_builtin P Q fuel w i name (VPrim p)); try done |].
    + intros s' Hs' _. rewrite (Hfun s' Hs'). by constructor.
    + intros x w' (-> & HI' & _). split; [by constructor | done].
  - (* the root index *)
    destruct (HR i Hi) as (r & Hroot & Hfind).
    simpl. apply returns_bind, returns_get_this. rewrite Hfind.
    apply returns_ret. split; [by constructor | done].
  - (* an array record *)
    simpl. apply returns_bind, returns_get_this.
    destruct (find_index (indexMap (this w)) i) as [e |] eqn:Hfind;
      [by apply Hfound |].
    rewrite Hd, Hi. apply returns_bind, returns_alloc.
    apply returns_bind, returns_indexMap_push. simpl.
    set (r := length (heap_of w)).
    set (o := mkObject (ArrayClass []) (ArrayPrototype host) []).
    set (w1 := mkWorld _ _).
    assert (DecInv host data root' iroot (r :: P) (i :: Q) w1) as HI1.
    { apply (DecInv_start P Q w i o); [done | done |]. intros name Hc. congruence. }
    apply returns_bind.
    eapply returns_mono;
      [apply (forM_get_array (r :: P) (i :: Q) fuel r (ArrayPrototype host)
                refs items w1 []); [| | done | by left; left | apply lookup_alloc_here] |].
    + eapply Forall2_impl_in; [done |]. intros x y Hy Hxy.
      eapply (describes_exclude host iroot Q data i (SArray items));
        [by econstructor | done | by apply size_item | done].
    + intros s' i' w' Hs' Hdesc' HI'.
      eapply IH; [by apply size_item | done | done | | done].
      pose proof (depth_item _ _ Hs'). lia.
    + intros _ wk (new & Hlook & Hnew & HIk & Hrel). simpl in Hlook.
      apply returns_ret.
      assert (represents host root' P (heap_of wk) (VRef r) (SArray items)) as Hrep.
      { econstructor; [| | | done |].
        - intros Heq. specialize (HFr r Heq). unfold r in HFr. lia.
        - intros Hin. specialize (HF r Hin). unfold r in HF. lia.
        - apply HN. unfold r. lia.
        - eapply Forall2_impl_in; [done |]. intros x y _ Hxy.
          eapply represents_mono; [| apply agree_refl | done]. intros l Hl. by right. }
      split; [done |].
      eapply DecInv_finish; [done | | done | done].
      eapply find_index_prefix; [apply Hrel |]. simpl. by apply find_index_pushed.
  - (* an object record *)
    destruct registry_ok as (_ & _ & [lo Hlo]).
    destruct fuel as [|fuel]; [simpl in Hfuel; lia |].
    cbn [get]. apply returns_bind, returns_get_this.
    destruct (find_index (indexMap (this w)) i) as [e |] eqn:Hfind;
      [by apply Hfound |].
    rewrite Hd, Hi. apply returns_bind.
    eapply returns_mono;
      [apply (get_builtin P Q fuel w prototype name (ObjectPrototype host)); try done |].
    { intros s' Hs' Hne. exfalso. inversion Hs'; subst; congruence. }
    intros x w0 (-> & HI0 & Hheap0 & Hmemo0).
    rewrite Hlo. unfold Object_create. apply returns_bind, returns_alloc.
    apply returns_bind, returns_indexMap_push. simpl.
    assert (find_index (indexMap (this w0)) i = None) as Hfind0.
    { destruct Hmemo0 as [-> | ->]; [done |].
      rewrite find_index_app, Hfind. simpl.
      destruct (Nat.eqb i prototype) eqn:Heq; [| done].
      apply Nat.eqb_eq in Heq. subst. congruence. }
    set (r := length (heap_of w0)).
    set (o := mkObject ObjectClass (VRef lo) []).
    set (w1 := mkWorld _ _).
    assert (DecInv host data root' iroot (r :: P) (i :: Q) w1) as HI1.
    { apply (DecInv_start P Q w0 i o); [done | done |]. intros name' Hc. congruence. }
    pose proof HI0 as (_ & _ & _ & _ & HF0 & HFr0 & HN0).
    destruct Hgood as [Hnd Hcl].
    unfold deserializeProperties. apply returns_bind, returns_bind.
    eapply returns_mono;
      [apply (forM_get_object (r :: P) (i :: Q) (S fuel) r (VRef lo) krefs fields w1 []);
       [| | done | by left; left | by rewrite Hk | apply lookup_alloc_here] |].
    + eapply Forall2_impl_in; [done |]. intros x y Hy Hxy.
      eapply (describes_exclude host iroot Q data i (SObject fields));
        [by econstructor | done | by apply size_field | done].
    + intros s' i' w' Hs' Hdesc' HI'.
      eapply IH; [by apply size_field | done | done | | done].
      pose proof (depth_field _ _ Hs'). lia.
    + intros ? wk (new & Hlook & Hknew & Hnew & HIk & Hrel). simpl in Hlook.
      simpl. apply returns_ret. apply returns_ret.
      assert (represents host root' P (heap_of wk) (VRef r) (SObject fields)) as Hrep.
      { eapply (rep_object host root' P (heap_of wk) r new fields).
        - intros Heq. specialize (HFr0 r Heq). unfold r in HFr0. lia.
        - intros Hin. specialize (HF0 r Hin). unfold r in HF0. lia.
        - apply HN0. unfold r. lia.
        - by rewrite <- Hlo in Hlook.
        - congruence.
        - done.
        - eapply Forall2_impl_in; [done |]. intros x y _ Hxy.
          eapply represents_mono; [| apply agree_refl | done]. intros l Hl. by right. }
      split; [done |].
      eapply DecInv_finish; [done | | done | done].
      eapply find_index_prefix; [apply Hrel |]. simpl. by apply find_index_pushed.
Qed.
End Decode.
(** ** Round trips of plain data *)

Lemma names_within_None host h l :
  names_within host h -> length h <= l -> getNameOfBuiltin host (VRef l) = None.
Proof.
  intros H Hl. destruct (getNameOfBuiltin host (VRef l)) as [name |] eqn:Hn; [| done].
  specialize (H l name Hn). lia.
Qed.

Lemma EncInv_empty host h : EncInv host h None None [] (mkWorld h new_SerializedGraph).
Proof. repeat split; simpl; try done; intros; done. Qed.

Lemma DecInv_empty host h data i :
  names_within host h ->
  DecInv host data None None [] [] (mkWorld h (mkGraph [] i data)).
Proof.
  intros Hn. repeat split; simpl; try done.
  intros l Hl. by eapply names_within_None.
Qed.


Section Rooted.
Variable host : Host.
Hypothesis registry_ok : well_behaved host.

Lemma find_element_single l j v i :
  find_element [(VRef l, j)] v = Some i -> v = VRef l /\ i = j.
Proof.
  intros H. apply (find_element_push []) in H as [H | (_ & Heq & ->)]; [done |].
  split; [by apply strict_equals_ref | done].
Qed.

Lemma EncInv_root (h : heap) l :
  getNameOfBuiltin host (VRef l) = None ->
  EncInv host h (Some l) (Some 0) [] (mkWorld h (mkGraph [(VRef l, 0)] 0 [None])).
Proof.
  intros Hnb. split; [done |]. split; [| split; [| split; [| split]]].
  - intros v i s Hv _ Hrep Hs. apply find_element_single in Hv as [-> ->].
    inversion Hrep; subst; congruence.
  - intros i Hi. apply find_element_single in Hi as [Heq _].
    by eapply OP_not_plain in Heq.
  - intros l' [= <-]. exists 0. split; [done |]. simpl. by rewrite Nat.eqb_refl.
  - intros ir [= <-]. simpl. lia.
  - intros v i Hv. apply find_element_single in Hv as [_ ->]. simpl. lia.
Qed.

Lemma add_rooted (h : heap) l s fuel :
  rooted host h l s -> depth s < fuel ->
  returns (add host fuel (VRef l)) (mkWorld h new_SerializedGraph)
    (fun i w' => i = 0 /\ heap_of w' = h
                 /\ describes_rooted host (contentArray (this w')) 0 s).
Proof.
  intros [Hnb Hs] Hfuel. destruct fuel as [|fuel]; [lia |].
  set (w1 := mkWorld h (mkGraph [(VRef l, 0)] 0 [None])).
  pose proof (EncInv_root h l Hnb) as HI1. fold w1 in HI1.
  simpl. apply returns_bind, returns_get_this. simpl.
  apply returns_bind, returns_set_contentArray.
  apply returns_bind, returns_indexMap_push. simpl. fold w1.
  apply returns_bind.
  eapply (returns_mono _ _
            (fun c wk => heap_of wk = h
                         /\ describes_rooted host (<[0:=Some c]> (contentArray (this wk))) 0 s)).
  2: { intros c wk [Hh Hd]. apply returns_bind, returns_get_this.
       apply returns_bind, returns_set_contentArray. by apply returns_ret. }
  assert (forall wk, extends w1 wk -> contentArray (this wk) !! 0 = Some None) as Hslot.
  { intros wk (_ & _ & Hca). eapply prefix_lookup_Some; [| exact Hca]. done. }
  assert (forall wk c, extends w1 wk ->
            <[0:=Some c]> (contentArray (this wk)) !! 0 = Some (Some c)) as Hnew.
  { intros wk c Hext. apply list_lookup_insert_eq. eapply lookup_lt_Some. by apply Hslot. }
  unfold serialize. rewrite Hnb.
  destruct s as [p | items | fields |]; try done.
  - destruct Hs as (elements & Hl & Hch).
    apply returns_bind. eapply returns_read; [exact Hl |]. simpl.
    apply returns_bind.
    eapply returns_mono;
      [apply (mapM_add_represents host h (Some l) (Some 0) [] fuel elements items w1);
       [done | | done] |].
    + intros s' v' w' Hs' Hrep' HI'.
      apply (add_represents host h (Some l) (Some 0) registry_ok); [done | | done].
      pose proof (depth_item _ _ Hs'). lia.
    + intros refs wk (Hd & (Hh & _) & Hext). apply returns_ret. split; [done |].
      exists refs. split; [by apply Hnew |].
      eapply Forall2_impl_in; [done |]. intros x y _ Hxy.
      eapply describes_mono; [done | | done]. apply filled_alike_fill. by apply Hslot.
  - destruct Hs as (kvs & Hl & Hk & [Hnd Hcl] & Hch).
    apply returns_bind. eapply returns_read; [exact Hl |]. simpl.
    unfold serializeObject. simpl.
    destruct fuel as [|fuel]; [simpl in Hfuel; lia |].
    apply returns_bind.
    eapply returns_mono; [by apply add_ObjectPrototype |].
    intros pi w2 ((name & Hpi & Hname) & HI2 & He2). simpl.
    apply returns_bind. unfold serializeProperties. simpl.
    eapply returns_mono;
      [apply (foldM_serializeProperty_represents host h (Some l) (Some 0) []
                (S fuel) kvs fields [] w2);
       [done | done | by rewrite Hk | by rewrite Hk | | done] |].
    + intros s' v' w' Hs' Hrep' HI'.
      apply (add_represents host h (Some l) (Some 0) registry_ok); [done | | done].
      pose proof (depth_field _ _ Hs'). lia.
    + intros rd wk (krefs & -> & Hkk & Hd & (Hh & _) & Hek). apply returns_ret. simpl.
      assert (extends w1 wk) as Hext by (by eapply extends_trans).
      split; [done |]. exists pi, name, krefs.
      assert (filled_alike (contentArray (this wk))
                (<[0:=Some (CObject pi krefs [])]> (contentArray (this wk)))) as Hfa.
      { apply filled_alike_fill. by apply Hslot. }
      split; [by apply Hnew |]. split.
      { apply Hfa. eapply prefix_lookup_Some; [done |]. apply Hek. }
      split; [done |]. split; [congruence |]. split; [done |].
      eapply Forall2_impl_in; [done |]. intros x y _ Hxy.
      eapply describes_mono; [done | done | done].
Qed.

Lemma DecInv_root (h : heap) data i o pre :
  names_within host h ->
  (forall name, data !! i <> Some (Some (CBuiltin name))) ->
  (forall i' e, find_index pre i' = Some e ->
                exists name l, data !! i' = Some (Some (CBuiltin name))
                               /\ getBuiltinByName host name = Some e /\ e = VRef l) ->
  DecInv host data (Some (length h)) (Some i) [] []
    (mkWorld (h ++ [o]) (mkGraph (pre ++ [(VRef (length h), i)]) i data)).
Proof.
  intros Hn Hnb Hpre. split; [done |]. split; [| split; [| split; [| split; [| split]]]].
  - intros i' e s Hi' _ Hdesc Hs.
    apply find_index_push_inv in Hi' as [Hi' | (_ & -> & ->)].
    + destruct (Hpre i' e Hi') as (name & l & Hc & Hname & ->).
      inversion Hdesc; subst; congruence.
    + inversion Hdesc; subst; congruence.
  - intros i' e name Hi' Hc.
    apply find_index_push_inv in Hi' as [Hi' | (_ & -> & ->)].
    + destruct (Hpre i' e Hi') as (name' & l & Hc' & Hname & ->). congruence.
    + by apply Hnb in Hc.
  - intros ir [= <-]. exists (length h). split; [done |]. simpl.
    rewrite find_index_app.
    destruct (find_index pre i) as [e |] eqn:Hfind.
    + destruct (Hpre i e Hfind) as (name & l & Hc & _). by apply Hnb in Hc.
    + simpl. by rewrite Nat.eqb_refl.
  - intros l [].
  - intros r [= <-]. simpl. rewrite length_app. simpl. lia.
  - intros l Hl. simpl in Hl. rewrite length_app in Hl.
    eapply names_within_None; [done | lia].
Qed.

Lemma root_rooted (h : heap) data i s fuel :
  names_within host h -> describes_rooted host data i s -> depth s < fuel ->
  returns (root host fuel) (mkWorld h (mkGraph [] i data))
    (fun v w' => exists r, v = VRef r /\ rooted host (heap_of w') r s).
Proof.
  intros Hn Hs Hfuel. destruct fuel as [|fuel]; [lia |].
  unfold root. apply returns_bind, returns_get_this. simpl.
  apply returns_bind, returns_get_this. simpl.
  set (r := length h).
  destruct registry_ok as (_ & _ & [lo Hlo]).
  destruct s as [p | items | fields |]; try done.
  - destruct Hs as (refs & Hi & Hch). rewrite Hi.
    apply returns_bind, returns_alloc. apply returns_bind, returns_indexMap_push. simpl.
    set (o := mkObject (ArrayClass []) (ArrayPrototype host) []).
    assert (DecInv host data (Some r) (Some i) [] []
              (mkWorld (h ++ [o]) (mkGraph [(VRef r, i)] i data))) as HI1.
    { apply (DecInv_root h data i o []); [done | congruence | done]. }
    apply returns_bind.
    eapply returns_mono;
      [apply (forM_get_array host data (Some r) (Some i) [] [] fuel r
                (ArrayPrototype host) refs items _ []);
       [done | | apply HI1 | by right | apply lookup_alloc_here] |].
    + intros s' i' w' Hs' Hdesc' HI'.
      apply (get_represents host data (Some r) (Some i) registry_ok); [done | | done].
      pose proof (depth_item _ _ Hs'). lia.
    + intros ? wk (new & Hlook & Hnew & HIk & Hrel). simpl in Hlook.
      apply returns_ret. exists r. split; [done |]. split.
      { eapply names_within_None; [done | unfold r; lia]. }
      by exists new.
  - destruct Hs as (prototype & name & krefs & Hi & Hpi & Hname & Hk & [Hnd Hcl] & Hch).
    rewrite Hi. destruct fuel as [|fuel]; [simpl in Hfuel; lia |].
    apply returns_bind. simpl. apply returns_bind, returns_get_this. simpl.
    rewrite Hpi, Hname. apply returns_bind, returns_indexMap_push. apply returns_ret.
    simpl. apply returns_bind. rewrite Hlo. unfold Object_create.
    apply returns_alloc. simpl.
    apply returns_bind, returns_indexMap_push. simpl. rewrite <- Hlo.
    set (o := mkObject ObjectClass (ObjectPrototype host) []).
    assert (DecInv host data (Some r) (Some i) [] []
              (mkWorld (h ++ [o])
                 (mkGraph ([(ObjectPrototype host, prototype)] ++ [(VRef r, i)]) i data)))
      as HI1.
    { apply (DecInv_root h data i o); [done | congruence |].
      intros i' e. simpl. destruct (Nat.eqb i' prototype) eqn:Heq; [| done].
      apply Nat.eqb_eq in Heq as ->. intros [= <-]. by exists name, lo. }
    apply returns_bind. unfold deserializeProperties. apply returns_bind.
    eapply returns_mono;
      [apply (forM_get_object host data (Some r) (Some i) [] [] (S fuel) r
                (ObjectPrototype host) krefs fields _ []);
       [done | | apply HI1 | by right | by rewrite Hk | apply lookup_alloc_here] |].
    + intros s' i' w' Hs' Hdesc' HI'.
      apply (get_represents host data (Some r) (Some i) registry_ok); [done | | done].
      pose proof (depth_field _ _ Hs'). lia.
    + intros ? wk (new & Hlook & Hkeys & Hnew & HIk & Hrel). simpl in Hlook.
      simpl. apply returns_ret. apply returns_ret. exists r. split; [done |]. split.
      { eapply names_within_None; [done | unfold r; lia]. }
      exists new. split; [done |]. split; [congruence |]. by split.
Qed.

End Rooted.

(** ** Closures *)

Lemma fold_assoc_set_fresh (vars acc : list (string * value)) :
  NoDup (map fst acc ++ map fst vars) ->
  fold_left (fun m '(k, v) => assoc_set k (Data v true true true) m) vars (plain_props acc)
  = plain_props (acc ++ vars).
Proof.
  revert acc. induction vars as [|[k v] vars IH]; intros acc Hnd; simpl.
  - by rewrite app_nil_r.
  - rewrite assoc_set_fresh.
    + replace (plain_props acc ++ [(k, Data v true true true)])
        with (plain_props (acc ++ [(k, v)])).
      2: { unfold plain_props. by rewrite map_app. }
      rewrite IH.
      * by rewrite <- app_assoc.
      * rewrite map_app. simpl. by rewrite <- app_assoc.
    + unfold plain_props. rewrite map_map. simpl.
      apply NoDup_app in Hnd as (_ & Hnd & _). intros Hin.
      apply (Hnd k); [by apply list_elem_of_In | left].
Qed.

Lemma object_literal_plain host vars :
  NoDup (map fst vars) ->
  object_literal host vars = mkObject ObjectClass (ObjectPrototype host) (plain_props vars).
Proof.
  intros Hnd. unfold object_literal. f_equal.
  by apply (fold_assoc_set_fresh vars []).
Qed.

Lemma primitive_records_mono host data data' refs descs :
  filled_alike data data' ->
  primitive_records host data refs descs -> primitive_records host data' refs descs.
Proof.
  intros Hfa [Hr Hd]. split.
  - eapply Forall_impl; [done |]. intros [k i] [q Hq]. exists q.
    eapply describes_mono; [done | done | done].
  - eapply Forall_impl; [done |]. intros [k d] (Hg & Hs & i & Hv & q & Hq).
    split; [done |]. split; [done |]. exists i. split; [done |]. exists q.
    eapply describes_mono; [done | done | done].
Qed.

Lemma serializeProperty_primitive add refs descs k q wr en co w
    (Q : list (string * nat) * list (string * description) -> world -> Prop) :
  k <> "__closure" ->
  returns (add (VPrim q)) w
    (fun i w' =>
       Q (if co && wr && en
          then (assoc_set k i refs, descs)
          else (refs, assoc_set k (mkDescription None None (Some i) (Some co) None (Some en))
                        descs)) w') ->
  returns (serializeProperty add (refs, descs) (k, Data (VPrim q) wr en co)) w Q.
Proof.
  intros Hk H. apply String.eqb_neq in Hk. unfold serializeProperty. rewrite Hk.
  unfold returns, bind, ret in *. cbn.
  destruct co, wr, en; cbn in *; by destruct (add (VPrim q) w).
Qed.

Section EncodeClosure.
Variable host : Host.
Variable h : heap.
Variable root : option loc.
Hypothesis registry_ok : well_behaved host.

(** The loop of [serializeProperties] on the own properties of a function
    that hold primitives: [__closure] is passed over, the plain ones go to
    [refs], the others to [descriptions]. *)
Lemma foldM_serializeProperty_primitive fuel props :
  forall refs descs w,
    Forall (fun kp => fst kp = "__closure" \/ primitive_property (snd kp)) props ->
    NoDup (map fst refs ++ map fst descs ++ map fst props) ->
    primitive_records host (contentArray (this w)) refs descs ->
    EncInv host h root (Some 0) [] w ->
    returns (foldM (serializeProperty (add host (S fuel))) (refs, descs) props) w
      (fun rd w' =>
         NoDup (map fst (fst rd) ++ map fst (snd rd))
         /\ (forall k, In k (map fst (fst rd) ++ map fst (snd rd)) ->
                       In k (map fst refs ++ map fst descs ++ map fst props))
         /\ primitive_records host (contentArray (this w')) (fst rd) (snd rd)
         /\ EncInv host h root (Some 0) [] w' /\ extends w w').
Proof.
  induction props as [|[k p] props IH]; intros refs descs w Hprops Hnd Hrec HI.
  - simpl. apply returns_ret. simpl. rewrite app_nil_r in Hnd |- *.
    split; [done |]. split; [done |]. split; [done |]. split; [done | apply extends_refl].
  - apply Forall_cons in Hprops as [Hp Hprops]. simpl in Hp.
    assert (NoDup (map fst refs ++ map fst descs ++ map fst props)) as Hnd'.
    { simpl in Hnd. rewrite app_assoc in Hnd |- *.
      apply NoDup_app in Hnd as (H1 & H2 & H3). apply NoDup_app.
      split; [done |]. split.
      - intros x Hx Hin. apply (H2 x Hx). by right.
      - by apply NoDup_cons in H3 as [_ H3]. }
    assert (~ In k (map fst refs) /\ ~ In k (map fst descs)) as [Hkr Hkd].
    { simpl in Hnd. rewrite app_assoc in Hnd.
      apply NoDup_app in Hnd as (_ & H2 & _).
      split; intros Hin; apply (H2 k).
      - apply list_elem_of_In, in_or_app. by left.
      - left.
      - apply list_elem_of_In, in_or_app. by right.
      - left. }
    assert (forall rd w1,
              NoDup (map fst (fst rd) ++ map fst (snd rd) ++ map fst props) ->
              (forall k', In k' (map fst (fst rd) ++ map fst (snd rd)) ->
                          In k' (map fst refs ++ map fst descs ++ [k])) ->
              primitive_records host (contentArray (this w1)) (fst rd) (snd rd) ->
              EncInv host h root (Some 0) [] w1 -> extends w w1 ->
              returns (foldM (serializeProperty (add host (S fuel))) rd props) w1
                (fun rd' w' =>
                   NoDup (map fst (fst rd') ++ map fst (snd rd'))
                   /\ (forall k', In k' (map fst (fst rd') ++ map fst (snd rd')) ->
                                  In k' (map fst refs ++ map fst descs
                                           ++ map fst ((k, p) :: props)))
                   /\ primitive_records host (contentArray (this w')) (fst rd') (snd rd')
                   /\ EncInv host h root (Some 0) [] w' /\ extends w w')) as Hrest.
    { intros [refs1 descs1] w1 Hnd1 Hsub1 Hrec1 HI1 He1.
      eapply returns_mono; [by apply IH |].
      intros rd' w' (Hnd2 & Hsub2 & Hrec2 & HI2 & He2).
      split; [done |]. split; [| split; [done | split; [done | by eapply extends_trans]]].
      intros k' Hk'. specialize (Hsub2 k' Hk'). simpl in Hsub2 |- *.
      rewrite !in_app_iff in Hsub2. rewrite !in_app_iff. simpl.
      destruct Hsub2 as [H | [H | H]]; [| | tauto].
      - specialize (Hsub1 k'). simpl in Hsub1. rewrite !in_app_iff in Hsub1. simpl in Hsub1.
        tauto.
      - specialize (Hsub1 k'). simpl in Hsub1. rewrite !in_app_iff in Hsub1. simpl in Hsub1.
        tauto. }
    destruct Hp as [-> | (q & wr & en & co & -> & Hq)].
    { simpl. apply returns_bind, returns_ret. apply Hrest; simpl.
      - done.
      - intros k' Hk'. rewrite !in_app_iff in Hk'. rewrite !in_app_iff. tauto.
      - done.
      - done.
      - apply extends_refl. }
    destruct (String.eqb k "__closure") eqn:Hk.
    { simpl. rewrite Hk. apply returns_bind, returns_ret. apply Hrest; simpl.
      - done.
      - intros k' Hk'. rewrite !in_app_iff in Hk'. rewrite !in_app_iff. tauto.
      - done.
      - done.
      - apply extends_refl. }
    apply String.eqb_neq in Hk.
    cbn [foldM]. apply returns_bind. apply serializeProperty_primitive; [done |].
    eapply returns_mono.
    { apply (add_represents host h root (Some 0) registry_ok (SPrim q) (VPrim q) (S fuel) w []);
        [by constructor | simpl; lia | done]. }
    intros i w1 (Hd1 & HI1 & He1).
    destruct (primitive_records_mono host _ (contentArray (this w1)) refs descs
                (filled_alike_prefix _ _ (proj2 (proj2 He1))) Hrec) as [Hr Hd].
    destruct (co && wr && en).
    + rewrite assoc_set_fresh by done. apply Hrest; simpl.
      * rewrite map_app. simpl. rewrite <- app_assoc. simpl.
        simpl in Hnd. eapply NoDup_Permutation_proper; [| exact Hnd].
        apply Permutation_app_head. apply Permutation_middle.
      * intros k'. rewrite map_app, !in_app_iff. simpl. tauto.
      * split; [| done]. apply Forall_app. split; [done |].
        constructor; [| constructor]. by exists q.
      * done.
      * done.
    + rewrite assoc_set_fresh by done. apply Hrest; simpl.
      * rewrite map_app. simpl. rewrite <- !app_assoc. simpl. exact Hnd.
      * intros k'. rewrite map_app, !in_app_iff. simpl. tauto.
      * split; [done |]. apply Forall_app. split; [done |].
        constructor; [| constructor]. simpl.
        split; [done |]. split; [done |]. exists i. split; [done |]. by exists q.
      * done.
      * done.
Qed.

End EncodeClosure.

Lemma names_within_app host h h' : names_within host h -> names_within host (h ++ h').
Proof. intros H l name Hl. specialize (H l name Hl). rewrite length_app. lia. Qed.

Lemma get_property_absent cls proto props key :
  ~ In key (map fst props) -> get_property (mkObject cls proto props) key = undefined.
Proof. intros H. unfold get_property. simpl. by rewrite assoc_get_None. Qed.

Lemma read_lookup l o w : heap_of w !! l = Some o -> read l w = Return o w.
Proof. intros H. unfold read, bind, get_heap. simpl. by rewrite H. Qed.

(** The encoder on a function whose snapshot holds the variables [vars]:
    the object that [closure()] returns, whether [closure] is the function's
    [__closure] or the stand-in [() => ({})]. *)
Lemma add_function host h l source b proto props vars fields fuel :
  well_behaved host -> names_within host h ->
  getNameOfBuiltin host (VRef l) = None ->
  h !! l = Some (mkObject (FunctionClass source b) proto props) ->
  NoDup (map fst props) ->
  ~ In "prototype" (map fst props) -> ~ In "__impl" (map fst props) ->
  Forall (fun kp => fst kp = "__closure" \/ primitive_property (snd kp)) props ->
  (forall g,
     call_closure host
       (get_property (mkObject (FunctionClass source b) proto props) "__closure")
       (mkWorld h g)
     = Return (VRef (length h)) (mkWorld (h ++ [object_literal host vars]) g)) ->
  map fst vars = map fst fields -> good_keys (map fst fields) ->
  Forall2 (represents host (Some l) [] h) (map snd vars) (map snd fields) ->
  depth (SObject fields) + 1 < fuel ->
  returns (add host fuel (VRef l)) (mkWorld h new_SerializedGraph)
    (fun i w' => i = 0 /\ heap_of w' = h ++ [object_literal host vars]
                 /\ describes_closure host (contentArray (this w')) source fields).
Proof.
  intros Hwb Hnames Hnb Hl Hnd Hproto Himpl Hprops Hcall Hkeys Hgood Hvars Hfuel.
  destruct fuel as [|[|fuel]]; [lia | lia |].
  remember (S fuel) as f eqn:Hf.
  set (snap := object_literal host vars).
  set (h' := h ++ [snap]).
  set (w1 := mkWorld h' (mkGraph [(VRef l, 0)] 0 [None])).
  pose proof (EncInv_root host Hwb h' l Hnb) as HI1. fold w1 in HI1.
  assert (forall wk, extends w1 wk -> contentArray (this wk) !! 0 = Some None) as Hslot.
  { intros wk (_ & _ & Hca). eapply prefix_lookup_Some; [| exact Hca]. done. }
  simpl. apply returns_bind, returns_get_this. simpl.
  apply returns_bind, returns_set_contentArray.
  apply returns_bind, returns_indexMap_push. simpl.
  apply returns_bind.
  eapply (returns_mono _ _
            (fun c wk => heap_of wk = h'
                         /\ describes_closure host (<[0:=Some c]> (contentArray (this wk)))
                              source fields)).
  2: { intros c0 wk [Hh Hd]. apply returns_bind, returns_get_this.
       apply returns_bind, returns_set_contentArray. by apply returns_ret. }
  unfold serialize. rewrite Hnb.
  apply returns_bind. eapply returns_read; [exact Hl |]. simpl.
  unfold serializeFunction.
  apply returns_bind. eapply returns_intro; [apply Hcall |]. fold snap h' w1.
  assert (NoDup (map fst vars)) as Hndv by (rewrite Hkeys; apply Hgood).
  assert (represents host (Some l) [] h' (VRef (length h)) (SObject fields)) as Hsnap.
  { eapply rep_object.
    - intros [= ->]. apply lookup_lt_Some in Hl. lia.
    - by intros [].
    - eapply names_within_None; [done | lia].
    - unfold h'. rewrite lookup_alloc_here. unfold snap.
      by rewrite object_literal_plain.
    - done.
    - done.
    - eapply Forall2_impl_in; [done |]. intros x y _ Hxy.
      eapply represents_mono; [done | | done].
      apply agree_prefix. by apply prefix_app_r. }
  apply returns_bind.
  eapply returns_mono.
  { apply (add_represents host h' (Some l) (Some 0) Hwb (SObject fields)
             (VRef (length h)) f w1 []); [done | lia | done]. }
  intros ci w2 (Hdc & HI2 & He2).
  apply returns_bind. rewrite get_property_absent by done.
  eapply returns_mono.
  { apply (add_represents host h' (Some l) (Some 0) Hwb (SPrim PUndefined)
             undefined f w2 []); [by constructor | simpl; lia | done]. }
  intros pi w3 (Hdp & HI3 & He3).
  apply returns_bind. unfold serializeProperties. simpl. rewrite Hf.
  eapply returns_mono.
  { apply (foldM_serializeProperty_primitive host h' (Some l) Hwb fuel props [] [] w3);
      [done | done | by split | done]. }
  intros [refs descs] w4 (Hnd4 & Hsub4 & Hrec4 & HI4 & He4). simpl in *.
  apply returns_ret. split; [apply HI4 |].
  assert (extends w1 w4) as Hext.
  { eapply extends_trans; [done |]. by eapply extends_trans. }
  assert (filled_alike (contentArray (this w4))
            (<[0:=Some (CFunction source ci pi refs descs)]> (contentArray (this w4))))
    as Hfa.
  { apply filled_alike_fill. by apply Hslot. }
  exists ci, pi, refs, descs. split.
  { apply list_lookup_insert_eq. eapply lookup_lt_Some. by apply Hslot. }
  split.
  { eapply describes_mono; [done | | exact Hdc].
    eapply filled_alike_trans; [| exact Hfa].
    apply filled_alike_prefix. etrans; [apply He3 | apply He4]. }
  split.
  { eapply describes_mono; [done | | exact Hdp].
    eapply filled_alike_trans; [| exact Hfa].
    apply filled_alike_prefix. apply He4. }
  split.
  { apply NoDup_cons. split.
    - rewrite list_elem_of_In. intros [Heq | Hin]; [done |].
      apply Hsub4 in Hin. done.
    - apply NoDup_cons. split; [| done].
      rewrite list_elem_of_In. intros Hin. apply Hsub4 in Hin. done. }
  by eapply primitive_records_mono.
Qed.

(** The encoder on a function that follows the convention. *)
Lemma add_closure host h l source vars fields fuel :
  well_behaved host -> names_within host h ->
  closure_function host h l source vars fields ->
  depth (SObject fields) + 1 < fuel ->
  returns (add host fuel (VRef l)) (mkWorld h new_SerializedGraph)
    (fun i w' => i = 0 /\ heap_of w' = h ++ [object_literal host vars]
                 /\ describes_closure host (contentArray (this w')) source fields).
Proof.
  intros Hwb Hnames (Hnb & b & proto & props & c & source' & proto' & props' & Hl & Hnd
                     & Hproto & Himpl & Hcl & Hprops & Hc & Hkeys & Hgood & Hvars) Hfuel.
  eapply add_function; try done.
  intros g. rewrite Hcl. unfold call_closure. simpl.
  unfold bind. erewrite read_lookup by exact Hc. reflexivity.
Qed.

Lemma for_in_plain kvs :
  omap (fun '(k, p) =>
          match p with
          | Data x _ true _ => Some (k, x)
          | Accessor _ _ true _ => Some (k, undefined)
          | _ => None
          end) (plain_props kvs) = kvs.
Proof.
  unfold plain_props. induction kvs as [|[k v] kvs IH]; simpl; [done |].
  f_equal. exact IH.
Qed.

Lemma assoc_get_app_Some {V} k (m m' : list (string * V)) x :
  assoc_get k m = Some x -> assoc_get k (m ++ m') = Some x.
Proof.
  induction m as [|[k' y] m IH]; simpl; [done |].
  destruct (String.eqb k' k); [done | apply IH].
Qed.

Lemma returns_put_new r key x w o Q0 :
  heap_of w !! r = Some o ->
  ~ In key (map fst (properties o)) ->
  Q0 tt (mkWorld (<[r:=mkObject (class_of o) (prototype_of o)
                        (properties o ++ [(key, Data x true true true)])]> (heap_of w))
          (this w)) ->
  returns (put (VRef r) key x) w Q0.
Proof.
  intros Hr Hkey HQ. unfold put. apply returns_bind.
  eapply returns_read; [done |].
  rewrite assoc_get_None by done.
  apply returns_write. by rewrite assoc_set_fresh.
Qed.

Lemma returns_defineProperty_new r key d w o Q0 :
  heap_of w !! r = Some o ->
  ~ In key (map fst (properties o)) ->
  pd_get d = None -> pd_set d = None ->
  Q0 tt (mkWorld
           (<[r:=mkObject (class_of o) (prototype_of o)
                   (properties o
                      ++ [(key, Data (field_or (pd_value d) undefined)
                                  (field_or (pd_writable d) false)
                                  (field_or (pd_enumerable d) false)
                                  (field_or (pd_configurable d) false))])]> (heap_of w))
           (this w)) ->
  returns (defineProperty (VRef r) key d) w Q0.
Proof.
  intros Hr Hkey Hg Hs HQ. unfold defineProperty. apply returns_bind.
  eapply returns_read; [done |]. apply returns_bind, returns_get_heap.
  unfold valid_descriptor, is_accessor_descriptor. rewrite Hg, Hs. simpl.
  rewrite assoc_get_None by done. simpl. unfold is_accessor_descriptor. rewrite Hg, Hs.
  apply returns_write. by rewrite assoc_set_fresh.
Qed.

Lemma index_truthy_positive i : i <> 0 -> index_truthy (Some i) = Some i.
Proof.
  intros Hi. unfold index_truthy, index_value. simpl.
  destruct (Z.eqb_spec (Z.of_nat i) 0); [lia | done].
Qed.

Lemma deserializeDescription_primitive get target k d i w (Q : unit -> world -> Prop) :
  d_get d = None -> d_set d = None -> d_value d = Some i -> i <> 0 ->
  returns (get i) w
    (fun x w' => returns (defineProperty target k (with_pd_value x (spread d))) w' Q) ->
  returns (deserializeDescription get target (k, d)) w Q.
Proof.
  intros Hg Hs Hv Hi H. unfold deserializeDescription.
  rewrite Hg, Hs, Hv, (index_truthy_positive i Hi). simpl.
  unfold returns, bind, ret in *. by destruct (get i w).
Qed.

Lemma DecInv_hidden host data root' iroot P Q w o :
  DecInv host data root' iroot P Q w ->
  DecInv host data root' iroot (length (heap_of w) :: P) Q
    (mkWorld (heap_of w ++ [o]) (this w)).
Proof.
  intros (Hd & HA & HB & HR & HF & HFr & HN).
  split; [done |]. simpl. split; [| split; [done | split; [done | split; [| split]]]].
  - intros i' e s Hi' HQ Hdesc Hs.
    eapply represents_mono; [| apply agree_prefix; by apply prefix_app_r |].
    { intros l Hl. exact Hl. }
    apply represents_fresh; [by apply lookup_ge_None_2 |].
    by eapply HA.
  - intros l [<- | Hl]; rewrite length_app; simpl; [lia |]. specialize (HF l Hl). lia.
  - intros r Hr. specialize (HFr r Hr). rewrite length_app. lia.
  - intros l Hl. rewrite length_app in Hl. apply HN. lia.
Qed.

Section DecodeClosure.
Variable host : Host.
Variable data : list (option content).
Variable t impl : loc.
Variable iobj : object.
Variable h0 : heap.
Hypothesis registry_ok : well_behaved host.
Hypothesis distinct : t <> impl.

(** A step of the decoder inside a [get] leaves the function and its
    implementation as they are. *)
Lemma thunk_inv_get keys w w' :
  thunk_inv host data t impl iobj h0 keys w ->
  DecInv host data (Some t) (Some 0) [impl] [] w' -> decode_step w w' ->
  thunk_inv host data t impl iobj h0 keys w'.
Proof.
  intros (_ & (tprops & Ht & Himpl & Hkeys) & Hi & Hag) HI' (Hpre & _).
  split; [done |]. split; [| split].
  - exists tprops. split; [by eapply prefix_lookup_Some | done].
  - by eapply prefix_lookup_Some.
  - eapply agree_trans; [done | by apply agree_prefix].
Qed.

(** A new property of the function. *)
Lemma thunk_inv_define keys w tprops key p :
  thunk_inv host data t impl iobj h0 keys w ->
  heap_of w !! t
  = Some (mkObject (FunctionClass thunk_source Forwarding) (FunctionPrototype host) tprops) ->
  thunk_inv host data t impl iobj h0 (keys ++ [key])
    (mkWorld (<[t:=mkObject (FunctionClass thunk_source Forwarding) (FunctionPrototype host)
                     (tprops ++ [(key, p)])]> (heap_of w)) (this w)).
Proof.
  intros (HI & (tprops' & Ht & Himpl & Hkeys) & Hi & Hag) Ht'.
  rewrite Ht in Ht'. injection Ht' as <-.
  split; [| split; [| split]]; simpl.
  - apply (DecInv_frame host data (Some t) (Some 0) [impl] [] w); [done | |].
    + apply agree_insert. by right.
    + by rewrite length_insert.
  - exists (tprops' ++ [(key, p)]). split; [| split].
    + apply list_lookup_insert_eq. by eapply lookup_lt_Some.
    + by apply assoc_get_app_Some.
    + rewrite map_app. simpl. by rewrite Hkeys.
  - rewrite list_lookup_insert_ne; done.
  - eapply agree_trans; [done |]. apply agree_insert. by right.
Qed.

Lemma primitive_index_nonzero i : primitive_index host data i -> i <> 0.
Proof. intros [q Hq] ->. inversion Hq; subst; congruence. Qed.

Lemma get_primitive fuel i w keys :
  primitive_index host data i ->
  thunk_inv host data t impl iobj h0 keys w ->
  returns (get host (S fuel) i) w
    (fun _ w' => thunk_inv host data t impl iobj h0 keys w').
Proof.
  intros [q Hq] Hinv.
  eapply returns_mono.
  { apply (get_represents host data (Some t) (Some 0) registry_ok (SPrim q) i (S fuel) w
             [impl] []); [done | simpl; lia | apply Hinv]. }
  intros x w' (_ & HI' & Hstep). by eapply thunk_inv_get.
Qed.

Lemma forM_deserializeRef_primitive fuel refs :
  forall keys w,
    Forall (fun ki => primitive_index host data (snd ki)) refs ->
    NoDup (keys ++ map fst refs) ->
    thunk_inv host data t impl iobj h0 keys w ->
    returns (forM_ (deserializeRef (get host (S fuel)) (VRef t)) refs) w
      (fun _ w' => thunk_inv host data t impl iobj h0 (keys ++ map fst refs) w').
Proof.
  induction refs as [|[k i] refs IH]; intros keys w Hrefs Hnd Hinv.
  - simpl. apply returns_ret. by rewrite app_nil_r.
  - apply Forall_cons in Hrefs as [Hi Hrefs]. simpl in Hi.
    cbn [forM_]. apply returns_bind. unfold deserializeRef. cbn [fst snd].
    apply returns_bind.
    eapply returns_mono; [by apply get_primitive |].
    intros x w1 Hinv1. pose proof Hinv1 as (_ & (tprops & Ht & _ & Hkeys) & _).
    eapply returns_put_new; [exact Ht | |].
    { simpl. rewrite Hkeys. apply NoDup_app in Hnd as (_ & Hnd & _).
      intros Hin. apply (Hnd k); [by apply list_elem_of_In | left]. }
    simpl. eapply returns_mono.
    { apply (IH (keys ++ [k])); [done | |].
      - rewrite <- app_assoc. exact Hnd.
      - by apply thunk_inv_define. }
    intros ? w2 H2. simpl. by rewrite <- app_assoc in H2.
Qed.

Lemma forM_deserializeDescription_primitive fuel descs :
  forall keys w,
    Forall (fun kd => primitive_description host data (snd kd)) descs ->
    NoDup (keys ++ map fst descs) ->
    thunk_inv host data t impl iobj h0 keys w ->
    returns (forM_ (deserializeDescription (get host (S fuel)) (VRef t)) descs) w
      (fun _ w' => thunk_inv host data t impl iobj h0 (keys ++ map fst descs) w').
Proof.
  induction descs as [|[k d] descs IH]; intros keys w Hdescs Hnd Hinv.
  - simpl. apply returns_ret. by rewrite app_nil_r.
  - apply Forall_cons in Hdescs as [(Hg & Hs & i & Hv & Hi) Hdescs]. simpl in Hg, Hs, Hv.
    cbn [forM_]. apply returns_bind.
    eapply deserializeDescription_primitive;
      [done | done | done | by eapply primitive_index_nonzero |].
    eapply returns_mono; [by apply get_primitive |].
    intros x w1 Hinv1. pose proof Hinv1 as (_ & (tprops & Ht & _ & Hkeys) & _).
    eapply returns_defineProperty_new; [exact Ht | | by simpl; rewrite Hg | by simpl; rewrite Hs |].
    { simpl. rewrite Hkeys. apply NoDup_app in Hnd as (_ & Hnd & _).
      intros Hin. apply (Hnd k); [by apply list_elem_of_In | left]. }
    simpl. eapply returns_mono.
    { apply (IH (keys ++ [k])); [done | |].
      - rewrite <- app_assoc. exact Hnd.
      - by apply thunk_inv_define. }
    intros ? w2 H2. simpl. by rewrite <- app_assoc in H2.
Qed.

End DecodeClosure.

(** The decoder on the record of a function that follows the convention. *)
Lemma root_closure host h data source fields fuel :
  well_behaved host -> names_within host h ->
  describes_closure host data source fields ->
  depth (SObject fields) + 1 < fuel ->
  returns (root host fuel) (mkWorld h (mkGraph [] 0 data))
    (fun v w' => exists t, v = VRef t /\ decoded_closure host (heap_of w') t source fields).
Proof.
  intros Hwb Hnames (ci & pi & refs & descs & Hdata & Hdc & Hdp & Hnd & Hrefs & Hdescs) Hfuel.
  destruct fuel as [|[|fuel]]; [lia | lia |].
  remember (S fuel) as f eqn:Hf.
  unfold root. apply returns_bind, returns_get_this. simpl.
  apply returns_bind, returns_get_this. simpl. rewrite Hdata.
  apply returns_bind, returns_alloc. apply returns_bind, returns_indexMap_push. simpl.
  set (t := length h).
  set (thunk0 := mkObject (FunctionClass thunk_source Forwarding) (FunctionPrototype host) []).
  set (w1 := mkWorld (h ++ [thunk0]) (mkGraph [(VRef t, 0)] 0 data)).
  assert (DecInv host data (Some t) (Some 0) [] [] w1) as HI1.
  { apply (DecInv_root host h data 0 thunk0 []); [done | congruence | done]. }
  (* the snapshot object *)
  apply returns_bind. eapply returns_mono.
  { apply (get_represents host data (Some t) (Some 0) Hwb (SObject fields) ci f w1 [] []);
      [done | lia | done]. }
  intros vc w2 (Hrepc & HI2 & Hstep2).
  inversion Hrepc as [| | | lc kvs ? Hr HP Hb Hlc Hk Hgood Hch]; subst vc.
  apply returns_bind. unfold for_in. apply returns_bind.
  eapply returns_read; [exact Hlc |]. apply returns_ret. simpl. rewrite for_in_plain.
  (* the implementation *)
  set (impl := length (heap_of w2)).
  set (iobj0 := mkObject (FunctionClass source
                            (Applied (synthesize (map fst kvs) source) (map snd kvs)))
                  (FunctionPrototype host) []).
  apply returns_bind, returns_alloc. fold impl iobj0.
  set (w3 := mkWorld (heap_of w2 ++ [iobj0]) (this w2)).
  assert (DecInv host data (Some t) (Some 0) [impl] [] w3) as HI3.
  { by apply DecInv_hidden. }
  assert (t < impl) as Hlt.
  { unfold impl. destruct Hstep2 as (Hpre & _).
    apply prefix_length in Hpre. simpl in Hpre. rewrite length_app in Hpre.
    simpl in Hpre. unfold t. lia. }
  assert (heap_of w3 !! t = Some thunk0) as Ht3.
  { simpl. apply lookup_app_l_Some. destruct Hstep2 as (Hpre & _).
    eapply prefix_lookup_Some; [| exact Hpre]. apply lookup_alloc_here. }
  (* its prototype *)
  apply returns_bind. eapply returns_mono.
  { apply (get_represents host data (Some t) (Some 0) Hwb (SPrim PUndefined) pi f w3
             [impl] []); [done | simpl; lia | done]. }
  intros p w4 (Hrepp & HI4 & Hstep4). inversion Hrepp; subst p.
  assert (heap_of w4 !! impl = Some iobj0) as Hi4.
  { destruct Hstep4 as (Hpre & _). eapply prefix_lookup_Some; [| exact Hpre].
    apply lookup_alloc_here. }
  assert (heap_of w4 !! t = Some thunk0) as Ht4.
  { destruct Hstep4 as (Hpre & _). by eapply prefix_lookup_Some. }
  apply returns_bind. eapply returns_put_new; [exact Hi4 | by intros [] |]. simpl.
  set (iobj := mkObject _ _ _).
  apply returns_bind. eapply returns_put_new.
  { simpl. rewrite list_lookup_insert_ne by lia. exact Ht4. }
  { by intros []. }
  simpl. apply returns_bind. eapply returns_read.
  { simpl. rewrite list_lookup_insert_ne by lia. apply list_lookup_insert_eq.
    by eapply lookup_lt_Some. }
  apply returns_bind. eapply returns_put_new.
  { simpl. apply list_lookup_insert_eq. rewrite length_insert. by eapply lookup_lt_Some. }
  { simpl. intros [Heq | []]. discriminate. }
  simpl.
  set (h7 := <[t:=_]> (<[t:=_]> (<[impl:=iobj]> (heap_of w4)))).
  assert (thunk_inv host data t impl iobj (heap_of w3) ["__impl"; "prototype"]
            (mkWorld h7 (this w4))) as Hinv.
  { assert (agree (Some t) [impl] (heap_of w4) h7) as Hag.
    { unfold h7. eapply agree_trans; [| apply agree_insert; by right].
      eapply agree_trans; [| apply agree_insert; by right].
      apply agree_insert. left. by left. }
    split; [| split; [| split]]; simpl.
    - apply (DecInv_frame host data (Some t) (Some 0) [impl] [] w4); [done | done |].
      unfold h7. by rewrite !length_insert.
    - exists [("__impl", Data (VRef impl) true true true);
              ("prototype", Data undefined true true true)].
      split; [| done]. unfold h7. rewrite list_lookup_insert_eq; [reflexivity |].
      rewrite !length_insert. by eapply lookup_lt_Some.
    - unfold h7. rewrite !list_lookup_insert_ne by lia. apply list_lookup_insert_eq.
      by eapply lookup_lt_Some.
    - eapply agree_trans; [| exact Hag]. apply agree_prefix. apply Hstep4. }
  clearbody h7.
  (* the other properties *)
  assert (t <> impl) as Hne by lia.
  apply NoDup_cons in Hnd as [Hn1 Hnd]. apply NoDup_cons in Hnd as [Hn2 Hnd].
  assert (NoDup (["__impl"; "prototype"] ++ map fst refs ++ map fst descs)) as Hnd'.
  { simpl. apply NoDup_cons. split; [done |]. by apply NoDup_cons. }
  apply returns_bind. unfold deserializeProperties. rewrite Hf. apply returns_bind.
  eapply returns_mono.
  { apply (forM_deserializeRef_primitive host data t impl iobj (heap_of w3) Hwb Hne
             fuel refs ["__impl"; "prototype"]); [done | | done].
    rewrite app_assoc in Hnd'. by apply NoDup_app in Hnd' as (? & _). }
  intros ? w8 Hinv8. eapply returns_mono.
  { apply (forM_deserializeDescription_primitive host data t impl iobj (heap_of w3) Hwb Hne
             fuel descs (["__impl"; "prototype"] ++ map fst refs)); [done | | done].
    by rewrite <- app_assoc. }
  intros ? w9 (HI9 & (tprops & Ht9 & Himpl9 & _) & Hi9 & Hag9).
  apply returns_ret. exists t. split; [done |].
  exists impl, tprops, [("prototype", Data undefined true true true)], (map snd kvs).
  split; [done |]. split; [done |]. split.
  { rewrite Hi9. unfold iobj, iobj0. simpl. by rewrite Hk. }
  eapply Forall2_impl_in; [exact Hch |]. intros x y _ Hxy.
  eapply represents_mono; [| | apply represents_fresh; [| exact Hxy]].
  - intros l Hl. exact Hl.
  - eapply agree_trans; [| exact Hag9]. apply agree_prefix. simpl. by apply prefix_app_r.
  - by apply lookup_ge_None_2.
Qed.

(** ** The round trips on examples *)

Ltac distinct_keys :=
  simpl; repeat (constructor; [rewrite list_elem_of_In; simpl; intuition discriminate |]);
  constructor.

Lemma node_well_behaved : well_behaved node.
Proof.
  split; [| split].
  - intros v name. simpl.
    destruct v as [p | [|[|[|[|[|l]]]]]]; simpl; try discriminate;
      intros [= <-]; reflexivity.
  - by eexists.
  - by eexists.
Qed.

Lemma node_names_within (h : heap) : 5 <= length h -> names_within node h.
Proof.
  intros Hlen l name. simpl.
  destruct l as [|[|[|[|[|l]]]]]; simpl; try discriminate; lia.
Qed.

Lemma document_represented : represents node None [] heap_with_document (VRef 5) document.
Proof.
  eapply rep_array; [done | by intros [] | reflexivity | reflexivity |].
  constructor; [by constructor |]. constructor; [| constructor].
  eapply (rep_object node None [] heap_with_document 6
            [("a", VPrim (PString "x")); ("b", VRef 7)]);
    [done | by intros [] | reflexivity | reflexivity | reflexivity | |].
  { split; [distinct_keys | simpl; intuition discriminate]. }
  simpl. constructor; [by constructor |]. constructor; [| constructor].
  eapply rep_array; [done | by intros [] | reflexivity | reflexivity |].
  repeat constructor.
Qed.

Lemma self_array_rooted : rooted node heap_with_self_array 5 self_array.
Proof.
  split; [reflexivity |]. eexists. split; [reflexivity |].
  constructor; [by constructor |]. constructor; [by constructor |].
  constructor; [| constructor].
  eapply (rep_object node (Some 5) [] heap_with_self_array 6 [("me", VRef 5)]);
    [done | by intros [] | reflexivity | reflexivity | reflexivity | |].
  { split; [distinct_keys | simpl; intuition discriminate]. }
  simpl. constructor; [by constructor | constructor].
Qed.

Lemma self_object_rooted : rooted node heap_with_self_object 5 self_object.
Proof.
  split; [reflexivity |].
  exists [("n", VPrim (PNumber (Num 1))); ("self", VRef 5)].
  split; [reflexivity |]. split; [reflexivity |]. split.
  { split; [distinct_keys | simpl; intuition discriminate]. }
  simpl. constructor; [by constructor |]. constructor; [by constructor | constructor].
Qed.





(** The function [f = () => x] with [x = 5], as the closure transform leaves
    it. *)
Lemma closure_is_conventional :
  closure_function node heap_with_closure 5 "() => x"
    [("x", five)] [("x", SPrim (PNumber (Num 5)))].
Proof.
  split; [reflexivity |].
  eexists _, _, _, 6, _, _, _. split; [reflexivity |].
  split; [distinct_keys |].
  split; [simpl; intuition discriminate |].
  split; [simpl; intuition discriminate |].
  split; [reflexivity |]. split.
  { constructor; [right; by eexists _, _, _, _ |].
    constructor; [right; by eexists _, _, _, _ |].
    constructor; [by left | constructor]. }
  split; [reflexivity |]. split; [reflexivity |]. split.
  { split; [distinct_keys | simpl; intuition discriminate]. }
  simpl. constructor; [by constructor | constructor].
Qed.


(** The same round trip, evaluated: the decoder creates the forwarding
    function (location 8), the snapshot object [{ x: 5 }] (location 9) and
    the implementation (location 10). *)
Lemma closure_example_evaluated :
  returned (roundtrip node 3 (VRef 5) heap_with_closure) = Some (VRef 8)
  /\ get_property
       (default (mkObject ObjectClass undefined [])
          (final_heap (roundtrip node 3 (VRef 5) heap_with_closure) !! 8)) "__impl"
     = VRef 10
  /\ class_of
       (default (mkObject ObjectClass undefined [])
          (final_heap (roundtrip node 3 (VRef 5) heap_with_closure) !! 10))
     = FunctionClass "() => x"
         (Applied "(function(x) { return (() => x); })" [five]).
Proof. vm_compute. repeat split; reflexivity. Qed.

(** ** The graph that [serialize] returns is closed *)

Lemma settled_refl w : settled w w.
Proof. split; [apply extends_refl |]. intros j ? ?. lia. Qed.

Lemma settled_length w w' :
  settled w w' -> length (contentArray (this w)) <= length (contentArray (this w')).
Proof. intros [(_ & _ & H) _]. by apply prefix_length. Qed.

Lemma settled_trans w1 w2 w3 : settled w1 w2 -> settled w2 w3 -> settled w1 w3.
Proof.
  intros H12 H23. pose proof (settled_length _ _ H12). pose proof (settled_length _ _ H23).
  destruct H12 as [He12 H12], H23 as [He23 H23].
  split; [by eapply extends_trans |]. intros j Hj1 Hj3.
  destruct (decide (j < length (contentArray (this w2)))) as [Hlt | Hge].
  - destruct (H12 j Hj1 Hlt) as [c Hc]. exists c.
    eapply prefix_lookup_Some; [done |]. apply He23.
  - apply H23; lia.
Qed.

Lemma settled_alloc w o : settled w (mkWorld (heap_of w ++ [o]) (this w)).
Proof.
  split.
  - repeat split; simpl; [by apply prefix_app_r | done | done].
  - simpl. intros j ? ?. lia.
Qed.

Lemma good_record_mono host n n' c : n <= n' -> good_record host n c -> good_record host n' c.
Proof.
  intros Hn [Hi Hr]. split; [| done].
  eapply Forall_impl; [done |]. simpl. intros j Hj. lia.
Qed.

Lemma find_element_bound im v i n :
  Forall (fun ei : value * nat => snd ei < n) im -> find_element im v = Some i -> i < n.
Proof.
  induction 1 as [|[e j] im Hj Him IH]; simpl; [done |].
  destruct (strict_equals e v); [| done]. by intros [= <-].
Qed.

Section Closed.
Variable host : Host.
Variable add : value -> M nat.
Hypothesis add_ok :
  forall v w, bounded host w ->
    spec (add v) w
      (fun i w' => bounded host w' /\ settled w w'
                   /\ i < length (contentArray (this w')))
      (fun _ _ => True).

Lemma mapM_add_closed elements :
  forall w, bounded host w ->
    spec (mapM add elements) w
      (fun refs w' => bounded host w' /\ settled w w'
                      /\ Forall (fun j => j < length (contentArray (this w'))) refs)
      (fun _ _ => True).
Proof.
  induction elements as [|x elements IH]; intros w Hw; simpl.
  - apply spec_ret. split; [done |]. split; [apply settled_refl | constructor].
  - apply spec_bind. eapply spec_mono; [by apply add_ok | | done].
    intros i w1 (H1 & Hs1 & Hi). simpl. apply spec_bind.
    eapply spec_mono; [by apply IH | | done].
    intros refs w2 (H2 & Hs2 & Hrefs). apply spec_ret.
    split; [done |]. split; [by eapply settled_trans |].
    constructor; [| done]. pose proof (settled_length _ _ Hs2). lia.
Qed.

(** The indices gathered in [refs] and [descriptions] so far. *)
Local Abbreviation gathered n acc :=
  (Forall (fun ki : string * nat => snd ki < n) (fst acc)
   /\ Forall (fun kd : string * description =>
                Forall (fun j => j < n) (description_indices (snd kd))) (snd acc)).

Lemma gathered_mono n n' (acc : list (string * nat) * list (string * description)) :
  n <= n' -> gathered n acc -> gathered n' acc.
Proof.
  intros Hn [Hr Hd]. split.
  - eapply Forall_impl; [done |]. simpl. intros ki Hk. lia.
  - eapply Forall_impl; [done |]. simpl. intros kd Hk.
    eapply Forall_impl; [done |]. simpl. intros j Hj. lia.
Qed.

Lemma optional_add_closed (present : bool) (v : value)
    (upd : nat -> description -> description) d w :
  (forall i n, Forall (fun j => j < n) (description_indices d) -> i < n ->
               Forall (fun j => j < n) (description_indices (upd i d))) ->
  bounded host w ->
  Forall (fun j => j < length (contentArray (this w))) (description_indices d) ->
  spec (if present then let* i := add v in ret (upd i d) else ret d) w
    (fun d' w' => bounded host w' /\ settled w w'
                  /\ Forall (fun j => j < length (contentArray (this w')))
                       (description_indices d'))
    (fun _ _ => True).
Proof.
  intros Hupd Hw Hd. destruct present.
  - apply spec_bind. eapply spec_mono; [by apply add_ok | | done].
    intros i w1 (H1 & Hs1 & Hi). apply spec_ret.
    split; [done |]. split; [done |]. apply Hupd; [| done].
    eapply Forall_impl; [done |]. simpl. intros j Hj.
    pose proof (settled_length _ _ Hs1). lia.
  - apply spec_ret. split; [done |]. split; [apply settled_refl | done].
Qed.

Lemma serializeProperty_closed acc entry w :
  bounded host w -> gathered (length (contentArray (this w))) acc ->
  spec (serializeProperty add acc entry) w
    (fun acc' w' => bounded host w' /\ settled w w'
                    /\ gathered (length (contentArray (this w'))) acc')
    (fun _ _ => True).
Proof.
  intros Hw Hacc. destruct acc as [refs descs], entry as [key p].
  unfold serializeProperty.
  destruct (String.eqb key "__closure").
  { apply spec_ret. split; [done |]. split; [apply settled_refl | done]. }
  destruct (_ && _ && _ && _).
  - apply spec_bind. eapply spec_mono; [by apply add_ok | | done].
    intros i w1 (H1 & Hs1 & Hi). apply spec_ret.
    split; [done |]. split; [done |].
    destruct (gathered_mono _ (length (contentArray (this w1))) (refs, descs)
                (settled_length _ _ Hs1) Hacc) as [Hr Hd].
    split; [| done]. simpl. by apply assoc_set_Forall.
  - apply spec_bind.
    eapply spec_mono;
      [apply (optional_add_closed _ _ with_get empty_description w); [| done | constructor]
      | | done].
    { intros i n Hd Hi. unfold description_indices. simpl. by constructor. }
    intros d1 w1 (H1 & Hs1 & Hd1). simpl. apply spec_bind.
    eapply spec_mono;
      [apply (optional_add_closed _ _ with_set d1 w1); [| done | done] | | done].
    { intros i n Hd Hi. unfold description_indices in *. simpl.
      apply Forall_app in Hd as [Hg Hd]. apply Forall_app in Hd as [_ Hv].
      apply Forall_app. split; [done |]. by constructor. }
    intros d2 w2 (H2 & Hs2 & Hd2). simpl. apply spec_bind.
    eapply (spec_mono _ _
              (fun d' w' => bounded host w' /\ settled w2 w'
                            /\ Forall (fun j => j < length (contentArray (this w')))
                                 (description_indices d'))).
    { destruct (pd_value _) as [v |].
      - apply (optional_add_closed true v with_value d2 w2); [| done | done].
        intros i n Hd Hi. unfold description_indices in *. simpl.
        apply Forall_app in Hd as [Hg Hd]. apply Forall_app in Hd as [Hs _].
        apply Forall_app. split; [done |]. apply Forall_app. split; [done |].
        by constructor.
      - apply spec_ret. split; [done |]. split; [apply settled_refl | done]. }
    2: done.
    intros d3 w3 (H3 & Hs3 & Hd3). simpl. apply spec_ret.
    assert (settled w w3) as Hs.
    { eapply settled_trans; [done |]. by eapply settled_trans. }
    split; [done |]. split; [done |].
    destruct (gathered_mono _ (length (contentArray (this w3))) (refs, descs)
                (settled_length _ _ Hs) Hacc) as [Hr Hd].
    split; [done |]. simpl. apply assoc_set_Forall; [done |]. simpl.
    by destruct (d_writable d3).
Qed.

Lemma foldM_serializeProperty_closed props :
  forall acc w,
    bounded host w -> gathered (length (contentArray (this w))) acc ->
    spec (foldM (serializeProperty add) acc props) w
      (fun acc' w' => bounded host w' /\ settled w w'
                      /\ gathered (length (contentArray (this w'))) acc')
      (fun _ _ => True).
Proof.
  induction props as [|entry props IH]; intros acc w Hw Hacc; simpl.
  - apply spec_ret. split; [done |]. split; [apply settled_refl | done].
  - apply spec_bind. eapply spec_mono; [by apply serializeProperty_closed | | done].
    intros acc1 w1 (H1 & Hs1 & Hacc1). simpl.
    eapply spec_mono; [by apply IH | | done].
    intros acc2 w2 (H2 & Hs2 & Hacc2). split; [done |].
    split; [by eapply settled_trans | done].
Qed.

Lemma gathered_indices n (refs : list (string * nat)) (descs : list (string * description)) :
  gathered n (refs, descs) ->
  Forall (fun j => j < n)
    (map snd refs ++ flat_map (fun kd => description_indices (snd kd)) descs).
Proof.
  intros [Hr Hd]. simpl in *. apply Forall_app. split.
  - apply Forall_map. exact Hr.
  - apply Forall_flat_map. exact Hd.
Qed.

Lemma call_closure_closed c w :
  bounded host w ->
  spec (call_closure host c) w (fun _ w' => bounded host w' /\ settled w w')
    (fun _ _ => True).
Proof.
  intros Hw. unfold call_closure.
  destruct (negb (truthy c)).
  { apply spec_bind, spec_alloc. apply spec_ret. split; [done | apply settled_alloc]. }
  destruct c as [p | l]; [done |].
  apply spec_bind, spec_read; [| done].
  intros o _. destruct (class_of o) as [| | ? []| |]; try done.
  apply spec_bind, spec_alloc. apply spec_ret. split; [done | apply settled_alloc].
Qed.

Lemma serialize_closed v w :
  bounded host w ->
  spec (serialize host add v) w
    (fun c w' => bounded host w' /\ settled w w'
                 /\ good_record host (length (contentArray (this w'))) c)
    (fun _ _ => True).
Proof.
  intros Hw. unfold serialize.
  destruct (getNameOfBuiltin host v) as [name |] eqn:Hname.
  { apply spec_ret. split; [done |]. split; [apply settled_refl |].
    split; [constructor | by exists v]. }
  destruct v as [p | l].
  { apply spec_ret. split; [done |]. split; [apply settled_refl |].
    split; [constructor | done]. }
  apply spec_bind, spec_read; [| done].
  intros o _. destruct (class_of o) as [| elements | source b | iso | literal].
  - unfold serializeObject. apply spec_bind.
    eapply spec_mono; [by apply add_ok | | done].
    intros pi w1 (H1 & Hs1 & Hpi). simpl. apply spec_bind.
    unfold serializeProperties.
    eapply spec_mono; [apply foldM_serializeProperty_closed; [done | by split] | | done].
    intros rd w2 (H2 & Hs2 & Hrd). apply spec_ret.
    split; [done |]. split; [by eapply settled_trans |].
    split; [| done]. simpl. constructor.
    + pose proof (settled_length _ _ Hs2). lia.
    + apply gathered_indices. by destruct rd.
  - apply spec_bind. eapply spec_mono; [by apply mapM_add_closed | | done].
    intros refs w1 (H1 & Hs1 & Hrefs). apply spec_ret.
    split; [done |]. split; [done |]. by split.
  - unfold serializeFunction. apply spec_bind.
    eapply spec_mono; [by apply call_closure_closed | | done].
    intros snapshot w0 (H0 & Hs0). simpl. apply spec_bind.
    eapply spec_mono; [by apply add_ok | | done].
    intros ci w1 (H1 & Hs1 & Hci). simpl. apply spec_bind.
    eapply spec_mono; [by apply add_ok | | done].
    intros pi w2 (H2 & Hs2 & Hpi). simpl. apply spec_bind.
    unfold serializeProperties.
    eapply spec_mono; [apply foldM_serializeProperty_closed; [done | by split] | | done].
    intros rd w3 (H3 & Hs3 & Hrd). apply spec_ret.
    split; [done |]. split.
    { eapply settled_trans; [done |]. eapply settled_trans; [done |].
      by eapply settled_trans. }
    split; [| done]. simpl.
    pose proof (settled_length _ _ Hs2). pose proof (settled_length _ _ Hs3).
    constructor; [lia |]. constructor; [lia |].
    apply gathered_indices. by destruct rd.
  - apply spec_ret. split; [done |]. split; [apply settled_refl |].
    split; [constructor | done].
  - apply spec_ret. split; [done |]. split; [apply settled_refl |].
    split; [constructor | done].
Qed.
End Closed.

Lemma add_closed host fuel :
  forall v w, bounded host w ->
    spec (add host fuel v) w
      (fun i w' => bounded host w' /\ settled w w'
                   /\ i < length (contentArray (this w')))
      (fun _ _ => True).
Proof.
  induction fuel as [|fuel IH]; intros v w Hw; [done |].
  pose proof Hw as [Hrec Htab].
  simpl. apply spec_bind, spec_get_this.
  destruct (find_element _ v) as [index |] eqn:Hfind.
  { apply spec_ret. split; [done |]. split; [apply settled_refl |].
    by eapply find_element_bound. }
  apply spec_bind, spec_set_contentArray.
  apply spec_bind, spec_indexMap_push. simpl.
  set (n := length (contentArray (this w))).
  set (w1 := mkWorld _ _).
  assert (length (contentArray (this w1)) = S n) as Hlen1.
  { simpl. rewrite length_app. simpl. unfold n. lia. }
  assert (bounded host w1) as H1.
  { split.
    - intros i c Hi. rewrite Hlen1. simpl in Hi.
      destruct (decide (i < n)) as [Hlt | Hge].
      + rewrite lookup_app_l in Hi by done. eapply good_record_mono; [| by eapply Hrec]. lia.
      + rewrite lookup_app_r in Hi by lia.
        destruct (i - length (contentArray (this w))) as [|k]; simpl in Hi; [done |].
        by rewrite lookup_nil in Hi.
    - rewrite Hlen1. simpl. apply Forall_app. split.
      + eapply Forall_impl; [done |]. simpl. intros ei Hei. fold n in Hei. lia.
      + constructor; [simpl; lia | constructor]. }
  assert (extends w w1) as He1.
  { repeat split; simpl; [done | by apply prefix_app_r ..]. }
  apply spec_bind.
  eapply spec_mono; [apply (serialize_closed host (add host fuel) IH v w1 H1) | | done].
  intros c w2 (H2 & [He2 Hs2] & Hc). simpl.
  apply spec_bind, spec_get_this. apply spec_bind, spec_set_contentArray. apply spec_ret.
  assert (S n <= length (contentArray (this w2))) as Hlen2.
  { rewrite <- Hlen1. apply prefix_length, He2. }
  destruct H2 as [Hrec2 Htab2].
  split; [| split]; simpl.
  - split; simpl.
    + intros i c' Hi. rewrite length_insert.
      destruct (decide (i = n)) as [-> | Hne].
      * rewrite list_lookup_insert_eq in Hi by lia. by injection Hi as <-.
      * rewrite list_lookup_insert_ne in Hi by done. by eapply Hrec2.
    + by rewrite length_insert.
  - split.
    + destruct He2 as (Hh & Hi & Hc2). repeat split; simpl.
      * etrans; [apply He1 | done].
      * etrans; [apply He1 | done].
      * apply prefix_insert_ge; [| done]. etrans; [apply He1 | done].
    + simpl. rewrite length_insert. intros j Hj1 Hj2.
      destruct (decide (j = n)) as [-> | Hne].
      * exists c. apply list_lookup_insert_eq. lia.
      * rewrite list_lookup_insert_ne by done. apply Hs2; [rewrite Hlen1; lia | done].
  - rewrite length_insert. lia.
Qed.

Lemma serialize_closes (host : Host) (fuel : nat) (v : value) (h : heap)
    (w : world) :
  SerializedGraph_serialize host fuel v h = Return tt w ->
  rootIndex (this w) = 0 /\ closed_graph host (this w).
Proof.
  unfold SerializedGraph_serialize, bind. intros Hs.
  pose proof (add_closed host fuel v (mkWorld h new_SerializedGraph)) as Hc.
  pose proof (add_first_entry host fuel v h) as Hf.
  unfold spec in Hc, Hf.
  destruct (add host fuel v _) as [i w1 | |]; [| done | done].
  injection Hs as <-. destruct Hf as [-> _].
  destruct Hc as ([Hrec _] & [_ Hfilled] & Hi).
  { split; [| constructor]. intros i c Hi. simpl in Hi. by rewrite lookup_nil in Hi. }
  simpl. split; [done |]. split; [done |]. simpl.
  intros j Hj. destruct (Hfilled j) as [c Hc]; [simpl; lia | done |].
  exists c. split; [done |]. by eapply Hrec.
Qed.


(** X1.  The graph that [serialize] returns is closed: the root index is 0, every
    slot of the content array holds a record of a kind the decoder knows
    (no slot is left [undefined]), every index a record holds points to a
    slot, and every builtin record carries a name that the registry gave. *)
Theorem serialize_graph_is_closed (host : Host) (fuel : nat) (v : value) (h : heap)
    (w : world) :
  SerializedGraph_serialize host fuel v h = Return tt w ->
  rootIndex (this w) = 0 /\ closed_graph host (this w).
Proof. apply serialize_closes. Qed.

(** X2.  Reading back one's own output never fails with an error of the decoder's
    own: where the registry knows every name it gives, no access of [root]
    on a graph with the content array that [serialize] returned raises an
    [Error].  (It may still fail in the runtime, with a [TypeError].) *)
Theorem own_output_has_no_bad_record (host : Host) (fuel : nat) (v : value) (h : heap)
    (w : world) :
  (forall x name, getNameOfBuiltin host x = Some name ->
                  is_Some (getBuiltinByName host name)) ->
  SerializedGraph_serialize host fuel v h = Return tt w ->
  forall fuel' w1,
    contentArray (this w1) = contentArray (this w) ->
    match root host fuel' w1 with
    | Throw (Error _) _ => False
    | _ => True
    end.
Proof.
  intros Hreg Hs fuel' w1 Hdata.
  destruct (root host fuel' w1) as [x w2 | e w2 |] eqn:Hroot; [done | | done].
  destruct e as [message | |]; [| done | done].
  destruct (serialize_closes host fuel v h w Hs) as [_ [_ Hclosed]].
  unfold root, bind, get_this in Hroot. simpl in Hroot.
  pose proof (get_decode_step host fuel' (rootIndex (this w1)) w1) as Hg.
  unfold spec in Hg. rewrite Hroot in Hg. destruct Hg as [_ Hsound].
  destruct (Hsound message eq_refl) as [i Hbad]. rewrite Hdata in Hbad.
  assert (i < length (contentArray (this w))) as Hi.
  { destruct Hbad as [(kind & Hk & _) | (name & Hn & _)]; by eapply lookup_lt_Some. }
  destruct (Hclosed i Hi) as (c & Hc & _ & Hrec).
  destruct Hbad as [(kind & Hk & _) | (name & Hn & Hnone & _)].
  - rewrite Hc in Hk. injection Hk as ->. done.
  - rewrite Hc in Hn. injection Hn as ->. destruct Hrec as [x Hx].
    destruct (Hreg x name Hx) as [b Hb]. congruence.
Qed.

(** ** The table of the encoder *)

Lemma find_element_None im v p e i :
  find_element im v = None -> im !! p = Some (e, i) -> strict_equals e v = false.
Proof.
  revert p. induction im as [|[e' j] im IH]; intros p; simpl; [done |].
  destruct (strict_equals e' v) eqn:Heq; [done |]. intros Hnone.
  destruct p as [|p]; simpl.
  - by intros [= <- <-].
  - by apply IH.
Qed.

Lemma add_table host fuel :
  forall v w,
    table_aligned (this w) /\ table_distinct (this w) ->
    spec (add host fuel v) w
      (fun _ w' => table_aligned (this w') /\ table_distinct (this w'))
      (fun _ w' => table_aligned (this w') /\ table_distinct (this w')).
Proof.
  induction fuel as [|fuel IH]; intros v w [Hal Hdi]; [done |].
  simpl. apply spec_bind, spec_get_this.
  destruct (find_element _ v) eqn:Hfind; [by apply spec_ret |].
  apply spec_bind, spec_set_contentArray.
  apply spec_bind, spec_indexMap_push. simpl.
  apply spec_bind.
  eapply spec_mono;
    [apply (serialize_inv host
              (fun w' => table_aligned (this w') /\ table_distinct (this w'))) | |].
  - by intros w' o.
  - intros v' w'. apply IH.
  - split.
    + unfold table_aligned in *. simpl. rewrite map_app, !length_app, Hal. simpl.
      by rewrite Nat.add_1_r, seq_S.
    + intros p q e e' i i' Hpq Hp Hq. simpl in Hp, Hq.
      assert (length (indexMap (this w)) = length (contentArray (this w))) as Hlen.
      { unfold table_aligned in Hal. apply (f_equal length) in Hal.
        by rewrite length_map, length_seq in Hal. }
      destruct (decide (q < length (indexMap (this w)))) as [Hlt | Hge].
      * rewrite lookup_app_l in Hp by lia. rewrite lookup_app_l in Hq by done.
        exact (Hdi p q e e' i i' Hpq Hp Hq).
      * assert (q = length (indexMap (this w))) as ->.
        { apply lookup_lt_Some in Hq. rewrite length_app in Hq. simpl in Hq. lia. }
        rewrite lookup_app_l in Hp by lia.
        rewrite lookup_app_r, Nat.sub_diag in Hq by done. injection Hq as <- <-.
        exact (find_element_None _ _ p e i Hfind Hp).
  - intros c w1 [Hal1 Hdi1]. simpl. apply spec_bind, spec_get_this.
    apply spec_bind, spec_set_contentArray. apply spec_ret. split; [| done].
    unfold table_aligned in *. simpl. by rewrite length_insert.
  - done.
Qed.

(** X3.  The table that [serialize] builds, whether the call returns or fails:
    the entry number [k] has the index [k], there is one entry for each slot
    of the content array, and no two entries hold [===] values. *)
Theorem table_matches_records (host : Host) (fuel : nat) (v : value) (h : heap) :
  match SerializedGraph_serialize host fuel v h with
  | Return _ w | Throw _ w => table_aligned (this w) /\ table_distinct (this w)
  | OutOfFuel => True
  end.
Proof.
  unfold SerializedGraph_serialize, bind.
  pose proof (add_table host fuel v (mkWorld h new_SerializedGraph)) as H.
  unfold spec in H.
  destruct (add host fuel v _) as [i w | e w |]; simpl; [| | done]; apply H;
    (split; [done |]); intros p q e0 e' i0 i' _ Hp; simpl in Hp;
    by rewrite lookup_nil in Hp.
Qed.

(** ** What the two passes leave alone *)

(** X4.  [serialize] changes no object: whether it returns or fails, the heap it
    leaves starts with the heap it was given (what it appends are the
    snapshot objects that the [__closure] accessors create). *)
Theorem serialize_keeps_the_heap (host : Host) (fuel : nat) (v : value) (h : heap) :
  match SerializedGraph_serialize host fuel v h with
  | Return _ w | Throw _ w => h `prefix_of` heap_of w
  | OutOfFuel => True
  end.
Proof.
  unfold SerializedGraph_serialize, bind.
  pose proof (add_extends host fuel v (mkWorld h new_SerializedGraph)) as H.
  unfold spec in H.
  destruct (add host fuel v _) as [i w | e w |]; simpl; [| | done]; apply H.
Qed.

(** X5.  [get] changes no object that was there before the call, nor the content
    array, nor the root index, whether it returns or fails: it appends new
    objects to the heap and new entries to the table. *)
Theorem get_only_appends (host : Host) (fuel : nat) (i : nat) (w : world) :
  match get host fuel i w with
  | Return _ w' | Throw _ w' => decode_step w w'
  | OutOfFuel => True
  end.
Proof.
  pose proof (get_decode_step host fuel i w) as H. unfold spec in H.
  destruct (get host fuel i w) as [x w' | e w' |]; [| | done]; apply H.
Qed.

(** ** Values that the table of the encoder takes for one *)

Lemma number_strict_equals_sym a b : number_strict_equals a b = number_strict_equals b a.
Proof. destruct a, b; simpl; try done. apply Z.eqb_sym. Qed.

Lemma strict_equals_sym a b : strict_equals a b = strict_equals b a.
Proof.
  destruct a as [p | l], b as [q | k]; simpl; try done.
  - destruct p as [| | x | x | x], q as [| | y | y | y]; simpl; try done.
    + by destruct x, y.
    + apply number_strict_equals_sym.
    + apply String.eqb_sym.
  - apply Nat.eqb_sym.
Qed.

Lemma number_strict_equals_trans a b c :
  number_strict_equals a b = true -> number_strict_equals b c = true ->
  number_strict_equals a c = true.
Proof.
  destruct a, b, c; simpl; try done;
    repeat match goal with
           | |- context [Z.eqb ?x ?y] => destruct (Z.eqb_spec x y)
           end; try done; lia.
Qed.

Lemma strict_equals_trans a b c :
  strict_equals a b = true -> strict_equals b c = true -> strict_equals a c = true.
Proof.
  destruct a as [p | l], b as [q | k], c as [r | m]; simpl; try done.
  - destruct p as [| | x | x | x], q as [| | y | y | y], r as [| | z | z | z];
      simpl; try done.
    + destruct x, y, z; simpl; done.
    + apply number_strict_equals_trans.
    + intros H1 H2. apply String.eqb_eq in H1, H2. subst. apply String.eqb_refl.
  - intros H1 H2. apply Nat.eqb_eq in H1, H2. subst. apply Nat.eqb_refl.
Qed.

(** The first entry [===] to [v] is the first entry [===] to [v']. *)
Lemma find_element_equal im v v' :
  strict_equals v v' = true -> find_element im v = find_element im v'.
Proof.
  intros Heq. induction im as [|[e i] im IH]; simpl; [done |].
  destruct (strict_equals e v) eqn:H1, (strict_equals e v') eqn:H2; try done.
  - rewrite (strict_equals_trans e v v' H1 Heq) in H2. done.
  - rewrite strict_equals_sym in Heq.
    rewrite (strict_equals_trans e v' v H2 Heq) in H1. done.
Qed.

Lemma add_registers host fuel v w :
  spec (add host fuel v) w
    (fun i w' => strict_equals v v = true ->
                 find_element (indexMap (this w')) v = Some i)
    (fun _ _ => True).
Proof.
  destruct fuel as [|fuel]; [done |].
  simpl. apply spec_bind, spec_get_this.
  destruct (find_element _ v) as [index |] eqn:Hfind; [by apply spec_ret |].
  apply spec_bind, spec_set_contentArray.
  apply spec_bind, spec_indexMap_push. simpl.
  set (w1 := mkWorld _ _).
  apply spec_bind.
  eapply spec_mono; [apply (serialize_inv host (fun w' => extends w1 w')) | | done].
  - intros w' o (? & ? & ?). repeat split; simpl; [by apply prefix_app_r | done | done].
  - intros v' w' Hw'. eapply spec_mono; [apply add_extends | |]; simpl; intros;
      by eapply extends_trans.
  - apply extends_refl.
  - intros c w2 (_ & H2 & _). simpl. apply spec_bind, spec_get_this.
    apply spec_bind, spec_set_contentArray. apply spec_ret. simpl. intros Hrefl.
    eapply find_element_prefix; [exact H2 |]. simpl.
    rewrite find_element_app, Hfind. simpl. by rewrite Hrefl.
Qed.

(** X6.  The encoder shares what [===] cannot tell apart: once [add] has returned
    an index for [v], a further [add] of any value [===] to [v] (the value
    itself, or the other zero when [v] is [0] or [-0]) returns this index
    and changes nothing. *)
Theorem add_shares_equal_values (host : Host) (fuel : nat) (v v' : value)
    (w : world) (i : nat) (w' : world) :
  add host fuel v w = Return i w' ->
  strict_equals v v' = true ->
  forall n, add host (S n) v' w' = Return i w'.
Proof.
  intros Hadd Heq n.
  pose proof (add_registers host fuel v w) as H. unfold spec in H. rewrite Hadd in H.
  assert (strict_equals v v = true) as Hrefl.
  { eapply strict_equals_trans; [done |]. by rewrite strict_equals_sym. }
  specialize (H Hrefl). rewrite (find_element_equal _ v v' Heq) in H.
  simpl. unfold bind, get_this. simpl. by rewrite H.
Qed.

Lemma find_element_NaN im : find_element im (VPrim (PNumber NaN)) = None.
Proof.
  induction im as [|[e i] im IH]; simpl; [done |].
  by destruct e as [[| | x | [| | x] | x] | l].
Qed.

Lemma insert_pushed_slot {A} (l : list A) x y : <[length l:=x]> (l ++ [y]) = l ++ [x].
Proof. rewrite insert_app_r_alt by done. by rewrite Nat.sub_diag. Qed.

(** X7.  [NaN] is never shared: it is [===] to nothing, so [add] gives every
    occurrence a new slot and a new entry of the table, whatever the table
    holds. *)
Theorem nan_gets_a_record_each_time (host : Host) (fuel : nat) (w : world) :
  getNameOfBuiltin host (VPrim (PNumber NaN)) = None ->
  add host (S fuel) (VPrim (PNumber NaN)) w
  = Return (length (contentArray (this w)))
      (mkWorld (heap_of w)
         (mkGraph (indexMap (this w)
                     ++ [(VPrim (PNumber NaN), length (contentArray (this w)))])
            (rootIndex (this w))
            (contentArray (this w) ++ [Some (CPrimitive (PNumber NaN))]))).
Proof.
  intros Hname. simpl. unfold bind, get_this. simpl.
  rewrite find_element_NaN. unfold serialize. rewrite Hname. simpl.
  by rewrite insert_pushed_slot.
Qed.

(** ** Round trips of single values *)

(** X8.  A registered builtin is encoded by its name alone, whatever it is: the
    heap is not read and the graph has the one record.  Reading it back
    returns what the registry holds under that name, and fails with the
    decoder's [Error] if it holds nothing. *)
Theorem builtin_round_trip (host : Host) (v : value) (name : string) (h : heap)
    (fuel : nat) :
  getNameOfBuiltin host v = Some name ->
  SerializedGraph_serialize host (S fuel) v h
  = Return tt (mkWorld h (mkGraph [(v, 0)] 0 [Some (CBuiltin name)]))
  /\ roundtrip host (S fuel) v h
     = match getBuiltinByName host name with
       | Some b => Return b (mkWorld h (mkGraph [(b, 0)] 0 [Some (CBuiltin name)]))
       | None => Throw (unknown_builtin name)
                   (mkWorld h (mkGraph [] 0 [Some (CBuiltin name)]))
       end.
Proof.
  intros Hname.
  assert (SerializedGraph_serialize host (S fuel) v h
          = Return tt (mkWorld h (mkGraph [(v, 0)] 0 [Some (CBuiltin name)]))) as Hs.
  { unfold SerializedGraph_serialize. simpl. unfold bind, get_this. simpl.
    unfold serialize. by rewrite Hname. }
  split; [done |]. unfold roundtrip. rewrite Hs.
  unfold root, over_the_wire. simpl. unfold bind, get_this. simpl.
  by destruct (getBuiltinByName host name).
Qed.

(** X9.  A primitive that is no registered builtin goes round as it is: this
    holds of every primitive, [NaN], [-0] and [undefined] among them (the
    graph passes as the object that [toJSON] returns, not as JSON text). *)
Theorem primitive_round_trip (host : Host) (p : prim) (h : heap) (fuel : nat) :
  getNameOfBuiltin host (VPrim p) = None ->
  roundtrip host (S fuel) (VPrim p) h
  = Return (VPrim p) (mkWorld h (mkGraph [(VPrim p, 0)] 0 [Some (CPrimitive p)])).
Proof.
  intros Hname. unfold roundtrip, SerializedGraph_serialize.
  simpl. unfold bind, get_this. simpl. unfold serialize. by rewrite Hname.
Qed.

Lemma substring_all s t : substring 0 (String.length s) (s ++ t) = s.
Proof. induction s as [|c s IH]; simpl; [by destruct t | by rewrite IH]. Qed.

Lemma substring_after s t n : substring (String.length s) n (s ++ t) = substring 0 n t.
Proof. induction s as [|c s IH]; simpl; [done | exact IH]. Qed.

Lemma length_append s t : String.length (s ++ t) = String.length s + String.length t.
Proof. induction s as [|c s IH]; simpl; [done | by rewrite IH]. Qed.

(** [JSON.parse] undoes [JSON.stringify] on the text of a date. *)
Lemma JSON_parse_stringify_date iso : JSON_parse_string (JSON_stringify_date iso) = Some iso.
Proof.
  unfold JSON_parse_string, JSON_stringify_date, quote. simpl.
  rewrite length_append. simpl.
  replace (String.length iso + 1 - 1) with (String.length iso) by lia.
  rewrite substring_after. simpl.
  rewrite substring_all.
  destruct (String.length iso + 1) eqn:Hlen; [lia |]. done.
Qed.

#[local] Opaque JSON_parse_string JSON_stringify_date.


#[local] Transparent JSON_parse_string JSON_stringify_date.


(** ** Prototype links that lead in a circle *)


(** ** The record of an array *)

Lemma spec_conj {A} (m : M A) w (Q Q' : A -> world -> Prop) (E E' : error -> world -> Prop) :
  spec m w Q E -> spec m w Q' E' ->
  spec m w (fun a w' => Q a w' /\ Q' a w') (fun e w' => E e w' /\ E' e w').
Proof. unfold spec. destruct (m w); auto. Qed.

(** The index that the table holds for [e], if [e] is [===] to itself. *)
Local Abbreviation listed g :=
  (fun (e : value) (i : nat) =>
     strict_equals e e = true -> find_element (indexMap g) e = Some i).

Lemma mapM_add_registers host fuel elements :
  forall w,
    spec (mapM (add host fuel) elements) w
      (fun refs w' => extends w w' /\ Forall2 (listed (this w')) elements refs)
      (fun _ _ => True).
Proof.
  induction elements as [|x elements IH]; intros w; simpl.
  - apply spec_ret. split; [apply extends_refl | constructor].
  - apply spec_bind.
    eapply spec_mono;
      [apply (spec_conj _ _ _ _ _ _ (add_extends host fuel x w) (add_registers host fuel x w))
      | | done].
    intros i w1 [He1 Hi]. simpl. apply spec_bind.
    eapply spec_mono; [apply IH | | done].
    intros refs w2 [He2 Hrefs]. apply spec_ret.
    split; [by eapply extends_trans |]. constructor; [| done].
    intros Hrefl. eapply find_element_prefix; [apply He2 | by apply Hi].
Qed.


(** ** The table of the decoder *)

Lemma find_index_entered im im' x i :
  find_index im i = None -> (im ++ [(x, i)]) `prefix_of` im' -> find_index im' i = Some x.
Proof.
  intros Hnone Hpre. eapply find_index_prefix; [exact Hpre |]. by apply find_index_pushed.
Qed.

(** [get] on a primitive or builtin record adds at most an entry for the
    index it was asked for. *)
Lemma get_leaf host fuel p w :
  leaf_record (contentArray (this w) !! p) ->
  spec (get host fuel p) w
    (fun _ w' => heap_of w' = heap_of w
                 /\ contentArray (this w') = contentArray (this w)
                 /\ rootIndex (this w') = rootIndex (this w)
                 /\ (indexMap (this w') = indexMap (this w)
                     \/ exists x, indexMap (this w') = indexMap (this w) ++ [(x, p)]))
    (fun _ _ => True).
Proof.
  intros Hleaf. destruct fuel as [|fuel]; [done |].
  simpl. apply spec_bind, spec_get_this.
  destruct (find_index _ p); [apply spec_ret; by auto |].
  destruct (contentArray (this w) !! p) as [[c |] |]; [| done | done].
  destruct c; try done.
  - apply spec_bind, spec_indexMap_push. apply spec_ret. simpl.
    repeat split. right. by eexists.
  - destruct (getBuiltinByName host name); [| done].
    apply spec_bind, spec_indexMap_push. apply spec_ret. simpl.
    repeat split. right. by eexists.
Qed.

Lemma get_registers host fuel i w :
  registers_first (contentArray (this w)) i ->
  spec (get host fuel i) w
    (fun v w' => find_index (indexMap (this w')) i = Some v)
    (fun _ _ => True).
Proof.
  intros Hfirst. destruct fuel as [|fuel]; [done |].
  set (P := fun _ : error => True).
  assert (forall m, P (TypeError m)) as HP by done.
  assert (forall im0 i' w',
            decode_frame w im0 w' ->
            spec (get host fuel i') w'
              (fun _ w'' => decode_frame w im0 w'')
              (fun e w'' => decode_frame w im0 w'' /\ P e))
    as Hget.
  { intros im0 i' w' [Hw' Him].
    pose proof (get_decode_step host fuel i' w') as Hg.
    eapply spec_mono; [exact Hg | |]; simpl.
    - intros ? w'' [Hs _]. split; [by eapply decode_step_trans |].
      etrans; [done |]. apply Hs.
    - intros e w'' [Hs _]. split; [| done]. split; [by eapply decode_step_trans |].
      etrans; [done |]. apply Hs. }
  pose proof (decode_step_refl w) as Hw.
  simpl. apply spec_bind, spec_get_this.
  destruct (find_index _ i) eqn:Hfind; [by apply spec_ret |].
  unfold registers_first in Hfirst.
  destruct (contentArray (this w) !! i) as [[c|]|] eqn:Hc; [| done | done].
  assert (forall v w', decode_frame w (indexMap (this w) ++ [(v, i)]) w' ->
                       find_index (indexMap (this w')) i = Some v) as Hfin.
  { intros v w' [_ Hpre]. by eapply find_index_entered. }
  destruct c as [p | refs | source closure prototype refs descs
                | prototype refs descs | name | text | literal | kind].
  - apply spec_bind, spec_indexMap_push. apply spec_ret. simpl.
    by apply find_index_pushed.
  - apply spec_bind, spec_alloc. apply spec_bind, spec_indexMap_push. simpl.
    set (r := length (heap_of w)).
    set (im1 := indexMap (this w) ++ [(VRef r, i)]).
    apply spec_bind.
    eapply spec_mono;
      [apply (forM_spec (decode_frame w im1) (fun e w' => decode_frame w im1 w' /\ P e))
      | |].
    + split; [frame | done].
    + intros ref w' Hw'.
      apply (get_J_step w im1 P); [by apply Hget | done |].
      intros x w'' Hw''.
      apply (array_push_J w im1 P); [done | done | unfold r; lia].
    + intros ? w1 H1. apply spec_ret. by apply Hfin.
    + done.
  - apply spec_bind, spec_alloc. apply spec_bind, spec_indexMap_push. simpl.
    set (thunk := length (heap_of w)).
    set (im1 := indexMap (this w) ++ [(VRef thunk, i)]).
    eapply spec_mono_error with (E := fun e w' => decode_frame w im1 w' /\ P e); [| done].
    apply (get_J_step w im1 P); [by apply Hget | split; [frame | done] |].
    intros dc w1 H1. apply spec_bind, (for_in_J w im1 P); [done | done |].
    intros captured. apply spec_bind, spec_alloc.
    assert (length (heap_of w) <= length (heap_of w1)) as Hlen.
    { destruct H1 as [[H1 _] _]. by apply prefix_length. }
    apply (get_J_step w im1 P); [by apply Hget | by apply (J_alloc w im1) |].
    intros p w2 H2.
    apply spec_bind.
    eapply spec_mono; [apply (put_J w im1 P); [done | done | simpl; lia] | | done].
    intros ? w3 H3. simpl. apply spec_bind.
    eapply spec_mono; [apply (put_J w im1 P); [done | done | unfold thunk; lia] | | done].
    intros ? w4 H4. simpl.
    apply spec_bind, spec_read; [| by split]. intros io _.
    apply spec_bind.
    eapply spec_mono; [apply (put_J w im1 P); [done | done | unfold thunk; lia] | | done].
    intros ? w5 H5. simpl. apply spec_bind.
    eapply spec_mono;
      [apply (deserializeProperties_J w im1 P);
       [done | by apply Hget | done | unfold thunk; lia] | | done].
    intros ? w6 H6. apply spec_ret. by apply Hfin.
  - destruct Hfirst as [Hne Hleaf].
    apply spec_bind.
    eapply spec_mono; [by apply get_leaf | | done].
    intros proto w1 (Hh1 & Hc1 & Hr1 & Him1). simpl.
    assert (find_index (indexMap (this w1)) i = None) as Hfind1.
    { destruct Him1 as [-> | [x ->]]; [done |].
      rewrite find_index_app, Hfind. simpl.
      destruct (Nat.eqb_spec i prototype); [congruence | done]. }
    assert (decode_step w w1) as Hs1.
    { repeat split; [by rewrite Hh1 | | done | done].
      destruct Him1 as [-> | [x ->]]; [done | by apply prefix_app_r]. }
    apply spec_bind.
    assert (spec (alloc (mkObject ObjectClass proto [])) w1
              (fun results w' =>
                 spec (indexMap_push (VRef results) i;;
                       deserializeProperties (get host fuel) refs descs (VRef results);;
                       ret (VRef results)) w'
                   (fun v w' => find_index (indexMap (this w')) i = Some v)
                   (fun _ _ => True))
              (fun _ _ => True)) as Halloc.
    { apply spec_alloc. apply spec_bind, spec_indexMap_push. simpl.
      set (r := length (heap_of w1)).
      set (im1 := indexMap (this w1) ++ [(VRef r, i)]).
      apply spec_bind.
      eapply spec_mono; [apply (deserializeProperties_J w im1 P) | | done].
      - done.
      - by apply Hget.
      - split; [frame | done].
      - unfold r. rewrite Hh1. lia.
      - intros ? w2 [_ Hpre]. apply spec_ret. by eapply find_index_entered. }
    destruct proto as [[]|]; simpl; try done.
  - destruct (getBuiltinByName host name) eqn:Hname; [| done].
    apply spec_bind, spec_indexMap_push. apply spec_ret. simpl.
    by apply find_index_pushed.
  - destruct (JSON_parse_string text); [| done].
    apply spec_bind, spec_alloc. apply spec_bind, spec_indexMap_push.
    apply spec_ret. simpl. by apply find_index_pushed.
  - apply spec_bind, spec_alloc. apply spec_bind, spec_indexMap_push.
    apply spec_ret. simpl. by apply find_index_pushed.
  - done.
Qed.

(** X14.  The decoder shares what it has decoded: when [get] returns a value for
    the index [i] of a record that is entered in the table first (every
    record but an object record whose prototype is neither a primitive nor a
    builtin record), the table holds this value under [i], and every later
    [get] of [i] returns the same identity and changes nothing. *)
Theorem get_returns_what_it_registers (host : Host) (fuel : nat) (i : nat)
    (w : world) (v : value) (w' : world) :
  registers_first (contentArray (this w)) i ->
  get host fuel i w = Return v w' ->
  find_index (indexMap (this w')) i = Some v
  /\ forall n, get host (S n) i w' = Return v w'.
Proof.
  intros Hfirst Hget.
  pose proof (get_registers host fuel i w Hfirst) as H. unfold spec in H.
  rewrite Hget in H. split; [done |]. intros n. by apply get_memoized.
Qed.

(** ** Functions without a snapshot *)


(** ** What the record of an array leaves out *)

Lemma add_array host h l elements proto props items fuel :
  well_behaved host ->
  getNameOfBuiltin host (VRef l) = None ->
  h !! l = Some (mkObject (ArrayClass elements) proto props) ->
  Forall2 (represents host (Some l) [] h) elements items ->
  depth (SArray items) < fuel ->
  returns (add host fuel (VRef l)) (mkWorld h new_SerializedGraph)
    (fun i w' => i = 0 /\ heap_of w' = h
                 /\ describes_rooted host (contentArray (this w')) 0 (SArray items)).
Proof.
  intros Hwb Hnb Hl Hch Hfuel. destruct fuel as [|fuel]; [lia |].
  set (w1 := mkWorld h (mkGraph [(VRef l, 0)] 0 [None])).
  pose proof (EncInv_root host Hwb h l Hnb) as HI1. fold w1 in HI1.
  simpl. apply returns_bind, returns_get_this. simpl.
  apply returns_bind, returns_set_contentArray.
  apply returns_bind, returns_indexMap_push. simpl. fold w1.
  apply returns_bind.
  eapply (returns_mono _ _
            (fun c wk => heap_of wk = h
                         /\ describes_rooted host (<[0:=Some c]> (contentArray (this wk))) 0
                              (SArray items))).
  2: { intros c wk [Hh Hd]. apply returns_bind, returns_get_this.
       apply returns_bind, returns_set_contentArray. by apply returns_ret. }
  assert (forall wk, extends w1 wk -> contentArray (this wk) !! 0 = Some None) as Hslot.
  { intros wk (_ & _ & Hca). eapply prefix_lookup_Some; [| exact Hca]. done. }
  unfold serialize. rewrite Hnb.
  apply returns_bind. eapply returns_read; [exact Hl |]. simpl.
  apply returns_bind.
  eapply returns_mono;
    [apply (mapM_add_represents host h (Some l) (Some 0) [] fuel elements items w1);
     [done | | done] |].
  - intros s' v' w' Hs' Hrep' HI'.
    apply (add_represents host h (Some l) (Some 0) Hwb); [done | | done].
    pose proof (depth_item _ _ Hs'). lia.
  - intros refs wk (Hd & (Hh & _) & Hext). apply returns_ret. split; [done |].
    exists refs. split.
    { apply list_lookup_insert_eq. eapply lookup_lt_Some. by apply Hslot. }
    eapply Forall2_impl_in; [done |]. intros x y _ Hxy.
    eapply describes_mono; [done | | done]. apply filled_alike_fill. by apply Hslot.
Qed.


(** ** Prototype links *)

Lemma add_leaf host fuel v c w :
  find_element (indexMap (this w)) v = None ->
  serialize host (add host fuel) v = ret c ->
  add host (S fuel) v w
  = Return (length (contentArray (this w)))
      (mkWorld (heap_of w)
         (mkGraph (indexMap (this w) ++ [(v, length (contentArray (this w)))])
            (rootIndex (this w))
            (<[length (contentArray (this w)):=Some c]> (contentArray (this w) ++ [None])))).
Proof.
  intros Hfind Hser. simpl. unfold bind at 1, get_this. simpl. rewrite Hfind.
  unfold bind, set_contentArray, indexMap_push, get_this, set_indexMap. simpl.
  by rewrite Hser.
Qed.

Section Prototype.
Variable host : Host.
Hypothesis registry_ok : well_behaved host.

Lemma prototype_record_describes proto c data s :
  prototype_known host proto -> prototype_record host proto c ->
  data !! 1 = Some (Some c) ->
  describes host (Some 0) [] data 1 s -> s = SPrim PNull /\ proto = VPrim PNull.
Proof.
  intros Hknown Hrec Hc Hdesc.
  destruct Hrec as [[-> ->] | (name & -> & Hname)].
  - inversion Hdesc; subst; try congruence.
    split; [| done]. congruence.
  - inversion Hdesc as [| i' name' p Hr HQ Hp Hi' Hb | | |]; subst; try congruence.
    rewrite Hc in Hi'. injection Hi' as <-. rewrite Hname in Hb. injection Hb as ->.
    by destruct p.
Qed.

(** The prototype of the root object is the second value that the encoder
    meets: it gets the index 1 and a record of its own. *)
Lemma prototype_gets_index_one h l proto fuel :
  getNameOfBuiltin host (VRef l) = None -> prototype_known host proto ->
  exists c,
    prototype_record host proto c
    /\ add host (S fuel) proto (mkWorld h (mkGraph [(VRef l, 0)] 0 [None]))
       = Return 1 (mkWorld h (mkGraph [(VRef l, 0); (proto, 1)] 0 [None; Some c]))
    /\ EncInv host h (Some l) (Some 0) []
         (mkWorld h (mkGraph [(VRef l, 0); (proto, 1)] 0 [None; Some c])).
Proof.
  intros Hnb Hknown.
  set (w1 := mkWorld h (mkGraph [(VRef l, 0)] 0 [None])).
  pose proof (EncInv_root host registry_ok h l Hnb) as HI1. fold w1 in HI1.
  assert (find_element (indexMap (this w1)) proto = None) as Hfind.
  { simpl. destruct proto as [p | lp]; simpl; [done |].
    destruct (Nat.eqb_spec l lp) as [<- | _]; [| done].
    simpl in Hknown. rewrite Hnb in Hknown. by destruct Hknown. }
  assert (exists c, serialize host (add host fuel) proto = ret c
                    /\ prototype_record host proto c) as (c & Hser & Hrec).
  { unfold serialize. destruct (getNameOfBuiltin host proto) as [name |] eqn:Hname.
    - exists (CBuiltin name). split; [done |]. right. exists name. split; [done |].
      by apply (proj1 registry_ok).
    - destruct proto as [[] | lp]; simpl in Hknown; try done.
      + exists (CPrimitive PNull). split; [done |]. by left.
      + rewrite Hname in Hknown. by destruct Hknown. }
  exists c. split; [done |]. split.
  { exact (add_leaf host fuel proto c w1 Hfind Hser). }
  apply (EncInv_leaf host h (Some l) (Some 0) [] w1 proto c HI1 Hfind).
  - intros s v' Heq Hrep Hs data Hdata. simpl in Hdata.
    destruct Hrec as [[-> ->] | (name & -> & Hname)].
    + destruct v' as [p | l']; [| done]. destruct p; try done.
      inversion Hrep; subst. simpl.
      apply d_prim; [congruence | by intros [] | done | done].
    + inversion Hrep as [p Hp | | l' ? ? ? ? Hb | l' ? ? ? ? Hb]; subst.
      * destruct proto as [q | lp]; [| done].
        simpl in Heq. apply prim_strict_equals_plain in Heq; [| by destruct q | done].
        subst q. simpl.
        eapply d_builtin; [congruence | by intros [] | done | done | done].
      * done.
      * destruct proto as [q | lp]; [by destruct q |]. simpl in Heq.
        apply Nat.eqb_eq in Heq as ->. simpl in Hknown. rewrite Hb in Hknown.
        by destruct Hknown.
      * destruct proto as [q | lp]; [by destruct q |]. simpl in Heq.
        apply Nat.eqb_eq in Heq as ->. simpl in Hknown. rewrite Hb in Hknown.
        by destruct Hknown.
  - intros Heq. destruct (registry_ok) as (Hback & [name Hname] & [lo Hlo]).
    rewrite Hlo in Heq. destruct proto as [q | lp]; [done |]. simpl in Heq.
    apply Nat.eqb_eq in Heq as ->. rewrite <- Hlo in *.
    destruct Hrec as [[_ ?] | (name' & -> & Hname')]; [by rewrite Hlo in * |].
    by exists name'.
Qed.

(** The encoder on a plain object with a known prototype. *)
Lemma add_with_prototype h l proto kvs fields fuel :
  getNameOfBuiltin host (VRef l) = None ->
  h !! l = Some (mkObject ObjectClass proto (plain_props kvs)) ->
  prototype_known host proto ->
  map fst kvs = map fst fields -> good_keys (map fst fields) ->
  Forall2 (represents host (Some l) [] h) (map snd kvs) (map snd fields) ->
  depth (SObject fields) < fuel ->
  returns (add host fuel (VRef l)) (mkWorld h new_SerializedGraph)
    (fun i w' => i = 0 /\ heap_of w' = h
                 /\ describes_with_prototype host (contentArray (this w')) proto fields).
Proof.
  intros Hnb Hl Hknown Hk [Hnd Hcl] Hch Hfuel.
  destruct fuel as [|[|fuel]]; [lia | simpl in Hfuel; lia |].
  destruct (prototype_gets_index_one h l proto fuel Hnb Hknown) as (c & Hrec & Hadd & HI2).
  remember (S fuel) as f eqn:Hf.
  set (w1 := mkWorld h (mkGraph [(VRef l, 0)] 0 [None])).
  set (w2 := mkWorld h (mkGraph [(VRef l, 0); (proto, 1)] 0 [None; Some c])).
  assert (forall wk, extends w1 wk -> contentArray (this wk) !! 0 = Some None) as Hslot.
  { intros wk (_ & _ & Hca). eapply prefix_lookup_Some; [| exact Hca]. done. }
  assert (extends w1 w2) as He2 by apply (extends_leaf w1 proto c).
  simpl. apply returns_bind, returns_get_this. simpl.
  apply returns_bind, returns_set_contentArray.
  apply returns_bind, returns_indexMap_push. simpl. fold w1.
  apply returns_bind.
  eapply (returns_mono _ _
            (fun c wk => heap_of wk = h
                         /\ describes_with_prototype host
                              (<[0:=Some c]> (contentArray (this wk))) proto fields)).
  2: { intros c0 wk [Hh Hd]. apply returns_bind, returns_get_this.
       apply returns_bind, returns_set_contentArray. by apply returns_ret. }
  unfold serialize. rewrite Hnb.
  apply returns_bind. eapply returns_read; [exact Hl |]. simpl.
  unfold serializeObject. simpl.
  apply returns_bind.
  eapply (returns_intro _ _ 1 w2); [exact Hadd |].
  simpl. apply returns_bind. unfold serializeProperties. simpl.
  eapply returns_mono;
    [apply (foldM_serializeProperty_represents host h (Some l) (Some 0) []
              f kvs fields [] w2);
     [done | done | by rewrite Hk | by rewrite Hk | | done] |].
  - intros s' v' w' Hs' Hrep' HI'.
    apply (add_represents host h (Some l) (Some 0) registry_ok); [done | | done].
    pose proof (depth_field _ _ Hs'). lia.
  - intros rd wk (krefs & -> & Hkk & Hd & (Hh & _) & Hek). apply returns_ret. simpl.
    assert (extends w1 wk) as Hext by (by eapply extends_trans).
    split; [done |]. exists krefs, c.
    assert (filled_alike (contentArray (this wk))
              (<[0:=Some (CObject 1 krefs [])]> (contentArray (this wk)))) as Hfa.
    { apply filled_alike_fill. by apply Hslot. }
    split.
    { apply list_lookup_insert_eq. eapply lookup_lt_Some. by apply Hslot. }
    split.
    { apply Hfa. eapply prefix_lookup_Some; [| apply Hek]. done. }
    split; [done |]. split; [congruence |]. split; [done |].
    eapply Forall2_impl_in; [done |]. intros x y _ Hxy.
    eapply describes_mono; [done | done | done].
Qed.

Lemma DecInv_root_with h data o proto c :
  names_within host h ->
  (forall name, data !! 0 <> Some (Some (CBuiltin name))) ->
  data !! 1 = Some (Some c) ->
  prototype_known host proto -> prototype_record host proto c ->
  DecInv host data (Some (length h)) (Some 0) [] []
    (mkWorld (h ++ [o]) (mkGraph ([(proto, 1)] ++ [(VRef (length h), 0)]) 0 data)).
Proof.
  intros Hn Hnb Hc Hknown Hrec.
  split; [done |]. split; [| split; [| split; [| split; [| split]]]].
  - intros i' e s Hi' _ Hdesc Hs.
    apply find_index_push_inv in Hi' as [Hi' | (_ & -> & ->)].
    + simpl in Hi'. destruct (Nat.eqb_spec i' 1) as [-> |]; [| done].
      injection Hi' as <-.
      destruct (prototype_record_describes proto c data s Hknown Hrec Hc Hdesc)
        as [-> ->].
      by constructor.
    + inversion Hdesc; subst; congruence.
  - intros i' e name Hi' Hname.
    apply find_index_push_inv in Hi' as [Hi' | (_ & -> & ->)].
    + simpl in Hi'. destruct (Nat.eqb_spec i' 1) as [-> |]; [| done].
      injection Hi' as <-. rewrite Hc in Hname. injection Hname as ->.
      destruct Hrec as [[? _] | (name' & [= ->] & Hn')]; [done | done].
    + by apply Hnb in Hname.
  - intros ir [= <-]. exists (length h). split; [done |]. reflexivity.
  - intros l [].
  - intros r [= <-]. simpl. rewrite length_app. simpl. lia.
  - intros l Hl. simpl in Hl. rewrite length_app in Hl.
    eapply names_within_None; [done | lia].
Qed.

(** The decoder on the record of such an object: it reads the prototype,
    creates the object and enters it in the table. *)
Lemma prototype_is_read h data proto c fuel :
  data !! 1 = Some (Some c) -> prototype_record host proto c ->
  get host (S fuel) 1 (mkWorld h (mkGraph [] 0 data))
  = Return proto (mkWorld h (mkGraph [(proto, 1)] 0 data)).
Proof.
  intros H1 Hrec. simpl. unfold bind at 1, get_this. simpl. rewrite H1.
  destruct Hrec as [[-> ->] | (name & -> & Hname)]; [done |]. by rewrite Hname.
Qed.

Lemma Object_create_known proto w :
  prototype_known host proto ->
  Object_create proto w
  = Return (length (heap_of w))
      (mkWorld (heap_of w ++ [mkObject ObjectClass proto []]) (this w)).
Proof. intros Hknown. destruct proto as [[] | lp]; simpl in Hknown; done. Qed.

(** The decoder on these records. *)
Lemma root_with_prototype h data proto fields fuel :
  names_within host h -> prototype_known host proto ->
  describes_with_prototype host data proto fields ->
  depth (SObject fields) < fuel ->
  returns (root host fuel) (mkWorld h (mkGraph [] 0 data))
    (fun v w' =>
       exists r kvs,
         v = VRef r
         /\ heap_of w' !! r = Some (mkObject ObjectClass proto (plain_props kvs))
         /\ map fst kvs = map fst fields
         /\ Forall2 (represents host (Some r) [] (heap_of w')) (map snd kvs)
              (map snd fields)).
Proof.
  intros Hn Hknown (krefs & c & H0 & H1 & Hrec & Hk & [Hnd Hcl] & Hch) Hfuel.
  destruct fuel as [|[|fuel]]; [lia | simpl in Hfuel; lia |].
  pose proof (prototype_is_read h data proto c fuel H1 Hrec) as Hread.
  remember (S fuel) as f eqn:Hf.
  unfold root. apply returns_bind, returns_get_this. simpl.
  apply returns_bind, returns_get_this. simpl. rewrite H0.
  set (w1 := mkWorld h (mkGraph [(proto, 1)] 0 data)).
  apply returns_bind.
  eapply (returns_intro _ _ proto w1); [exact Hread |].
  apply returns_bind.
  set (r := length h).
  set (o := mkObject ObjectClass proto []).
  eapply returns_intro; [exact (Object_create_known proto w1 Hknown) |].
  apply returns_bind, returns_indexMap_push. simpl.
  assert (DecInv host data (Some r) (Some 0) [] []
            (mkWorld (h ++ [o]) (mkGraph ([(proto, 1)] ++ [(VRef r, 0)]) 0 data)))
    as HI1.
  { apply (DecInv_root_with h data o proto c); try done. congruence. }
  apply returns_bind. unfold deserializeProperties. apply returns_bind.
  eapply returns_mono;
    [apply (forM_get_object host data (Some r) (Some 0) [] [] f r
              proto krefs fields _ []);
     [done | | apply HI1 | by right | by rewrite Hk | apply lookup_alloc_here] |].
  - intros s' i' w' Hs' Hdesc' HI'.
    apply (get_represents host data (Some r) (Some 0) registry_ok); [done | | done].
    pose proof (depth_field _ _ Hs'). lia.
  - intros ? wk (new & Hlook & Hkeys & Hnew & HIk & Hrel). simpl in Hlook.
    simpl. apply returns_ret. apply returns_ret. exists r, new.
    split; [done |]. split; [done |]. split; [congruence | done].
Qed.

End Prototype.


(** ** Elements of a decoded array that share a record *)

Lemma registers_first_dec data i : registers_first data i \/ ~ registers_first data i.
Proof.
  unfold registers_first.
  destruct (data !! i) as [[c |] |]; [| by left | by left].
  destruct c as [| | | prototype refs descs | | | |]; try (by left).
  destruct (decide (prototype = i)) as [-> | Hne]; [right; tauto |].
  destruct (data !! prototype) as [[c |] |]; simpl; [| right; tauto | right; tauto].
  destruct c; simpl; try (right; tauto); by left.
Qed.

Lemma get_step_registers host fuel i w :
  spec (get host fuel i) w
    (fun v w' => decode_step w w'
                 /\ (registers_first (contentArray (this w)) i ->
                     find_index (indexMap (this w')) i = Some v))
    (fun _ _ => True).
Proof.
  destruct (registers_first_dec (contentArray (this w)) i) as [Hyes | Hno].
  - eapply spec_mono;
      [apply (spec_conj _ _ _ _ _ _ (get_decode_step host fuel i w)
                (get_registers host fuel i w Hyes)) | | done].
    intros v w' [[Hs _] Hf]. by split.
  - eapply spec_mono; [apply (get_decode_step host fuel i w) | | done].
    intros v w' [Hs _]. by split.
Qed.

Lemma forM_get_shares host fuel data r refs :
  forall dn w,
    contentArray (this w) = data -> built host data r dn w ->
    spec (forM_ (fun ref => let* x := get host fuel ref in array_push r x) refs) w
      (fun _ w' => built host data r (dn ++ refs) w')
      (fun _ _ => True).
Proof.
  induction refs as [|i refs IH]; intros dn w Hdata Hbuilt.
  - simpl. apply spec_ret. by rewrite app_nil_r.
  - destruct Hbuilt as (es & Hr & Hlen & Hshare).
    cbn [forM_]. apply spec_bind. apply spec_bind.
    eapply spec_mono; [apply get_step_registers | | done].
    intros x w1 [Hs1 Hreg]. rewrite Hdata in Hreg.
    pose proof Hs1 as (Hpre & Him & Hc1 & _).
    unfold array_push. apply spec_bind, spec_read; [| done].
    intros o Ho. rewrite (prefix_lookup_Some _ _ _ _ Hr Hpre) in Ho. injection Ho as <-.
    simpl. apply spec_write.
    replace (dn ++ i :: refs) with ((dn ++ [i]) ++ refs) by (by rewrite <- app_assoc).
    apply IH; simpl; [congruence |].
    exists (es ++ [x]). split; [| split].
    + apply list_lookup_insert_eq. eapply lookup_lt_Some.
      by eapply prefix_lookup_Some.
    + rewrite !length_app. simpl. lia.
    + intros p j Hp Hj.
      destruct (decide (p < length dn)) as [Hlt | Hge].
      * rewrite lookup_app_l in Hp by done.
        destruct (Hshare p j Hp Hj) as (y & Hy & Hfy). exists y. split.
        -- rewrite lookup_app_l; [done |]. by eapply lookup_lt_Some.
        -- by eapply find_index_prefix.
      * assert (p = length dn) as ->.
        { apply lookup_lt_Some in Hp. rewrite length_app in Hp. simpl in Hp. lia. }
        rewrite lookup_app_r, Nat.sub_diag in Hp by done. injection Hp as <-.
        exists x. split; [| by apply Hreg].
        rewrite lookup_app_r by lia. by rewrite Hlen, Nat.sub_diag.
Qed.

(** X18.  Sharing between the elements of an array is restored: when [get]
    decodes an array record, it returns a new array with one element for
    each index of the record, and two positions that hold the same index
    hold the same identity, provided the record at this index is one that is
    entered in the table first. *)
Theorem decoded_elements_share (host : Host) (fuel : nat) (i0 : nat) (w : world)
    (refs : list nat) (v : value) (w' : world) :
  find_index (indexMap (this w)) i0 = None ->
  contentArray (this w) !! i0 = Some (Some (CArray refs)) ->
  get host fuel i0 w = Return v w' ->
  exists elements',
    v = VRef (length (heap_of w))
    /\ heap_of w' !! length (heap_of w)
       = Some (mkObject (ArrayClass elements') (ArrayPrototype host) [])
    /\ length elements' = length refs
    /\ forall p q i,
         refs !! p = Some i -> refs !! q = Some i ->
         registers_first (contentArray (this w)) i ->
         elements' !! p = elements' !! q.
Proof.
  intros Hfind Hrec Hget.
  assert (spec (get host fuel i0) w
            (fun v w' => v = VRef (length (heap_of w))
                         /\ built host (contentArray (this w)) (length (heap_of w)) refs w')
            (fun _ _ => True)) as Hspec.
  { destruct fuel as [|fuel]; [done |].
    simpl. apply spec_bind, spec_get_this. rewrite Hfind, Hrec.
    apply spec_bind, spec_alloc. apply spec_bind, spec_indexMap_push. simpl.
    apply spec_bind.
    eapply spec_mono;
      [apply (forM_get_shares host fuel (contentArray (this w)) (length (heap_of w))
                refs []) | | done].
    - done.
    - exists []. split; [apply lookup_alloc_here |]. split; [done |].
      intros p i Hp. by rewrite lookup_nil in Hp.
    - intros ? w1 H1. by apply spec_ret. }
  unfold spec in Hspec. rewrite Hget in Hspec.
  destruct Hspec as (-> & es & Hr & Hlen & Hshare).
  exists es. split; [done |]. split; [done |]. split; [done |].
  intros p q i Hp Hq Hi.
  destruct (Hshare p i Hp Hi) as (x & Hx & Hfx).
  destruct (Hshare q i Hq Hi) as (y & Hy & Hfy). congruence.
Qed.

(** ** Property descriptors *)

Lemma encodes_plain_mono host data data' kp ki :
  filled_alike data data' -> encodes_plain host data kp ki -> encodes_plain host data' kp ki.
Proof.
  intros Hfa (Hk & q & Hp & Hd). split; [done |]. exists q. split; [done |].
  eapply describes_mono; [done | done | done].
Qed.

Lemma encodes_fancy_mono host data data' kp kd :
  filled_alike data data' -> encodes_fancy host data kp kd -> encodes_fancy host data' kp kd.
Proof.
  intros Hfa (Hk & q & w & e & c & i & Hp & Hf & Hd & Hi). split; [done |].
  exists q, w, e, c, i. repeat (split; [done |]).
  eapply describes_mono; [done | done | done].
Qed.

Section Descriptors.
Variable host : Host.
Hypothesis registry_ok : well_behaved host.

(** The loop of [serializeProperties] on properties that hold primitives,
    entry by entry. *)
Lemma foldM_serializeProperty_exact h root fuel props :
  forall pre refs descs w,
    Forall (fun kp => primitive_property (snd kp)) props ->
    ~ In "__closure" (map fst props) ->
    NoDup (map fst refs ++ map fst descs ++ map fst props) ->
    Forall2 (encodes_plain host (contentArray (this w)))
      (List.filter (fun kp => is_plain (snd kp)) pre) refs ->
    Forall2 (encodes_fancy host (contentArray (this w)))
      (List.filter (fun kp => negb (is_plain (snd kp))) pre) descs ->
    EncInv host h root (Some 0) [] w ->
    returns (foldM (serializeProperty (add host (S fuel))) (refs, descs) props) w
      (fun rd w' =>
         NoDup (map fst (fst rd) ++ map fst (snd rd))
         /\ Forall2 (encodes_plain host (contentArray (this w')))
              (List.filter (fun kp => is_plain (snd kp)) (pre ++ props)) (fst rd)
         /\ Forall2 (encodes_fancy host (contentArray (this w')))
              (List.filter (fun kp => negb (is_plain (snd kp))) (pre ++ props)) (snd rd)
         /\ EncInv host h root (Some 0) [] w' /\ extends w w').
Proof.
  induction props as [|[k p] props IH]; intros pre refs descs w Hprops Hcl Hnd Hr Hd HI.
  - simpl. apply returns_ret. simpl in Hnd |- *. rewrite app_nil_r in Hnd.
    rewrite app_nil_r. split; [done |]. split; [done |]. split; [done |].
    split; [done | apply extends_refl].
  - apply Forall_cons in Hprops as [(q & wr & en & co & Hp & Hq) Hprops].
    simpl in Hp. subst p.
    assert (k <> "__closure") as Hk.
    { intros ->. apply Hcl. by left. }
    assert (~ In k (map fst refs) /\ ~ In k (map fst descs)) as [Hkr Hkd].
    { simpl in Hnd. rewrite app_assoc in Hnd.
      apply NoDup_app in Hnd as (_ & H2 & _).
      split; intros Hin; apply (H2 k).
      - apply list_elem_of_In, in_or_app. by left.
      - left.
      - apply list_elem_of_In, in_or_app. by right.
      - left. }
    cbn [foldM]. apply returns_bind. apply serializeProperty_primitive; [done |].
    eapply returns_mono.
    { apply (add_represents host h root (Some 0) registry_ok (SPrim q) (VPrim q) (S fuel) w []);
        [by constructor | simpl; lia | done]. }
    intros i w1 (Hd1 & HI1 & He1).
    assert (filled_alike (contentArray (this w)) (contentArray (this w1))) as Hfa.
    { apply filled_alike_prefix, He1. }
    assert (Forall2 (encodes_plain host (contentArray (this w1)))
              (List.filter (fun kp => is_plain (snd kp)) pre) refs) as Hr1.
    { eapply Forall2_impl; [done |]. intros. by eapply encodes_plain_mono. }
    assert (Forall2 (encodes_fancy host (contentArray (this w1)))
              (List.filter (fun kp => negb (is_plain (snd kp))) pre) descs) as Hd1'.
    { eapply Forall2_impl; [done |]. intros. by eapply encodes_fancy_mono. }
    assert (forall rd,
              returns (foldM (serializeProperty (add host (S fuel))) rd props) w1
                (fun rd' w' =>
                   NoDup (map fst (fst rd') ++ map fst (snd rd'))
                   /\ Forall2 (encodes_plain host (contentArray (this w')))
                        (List.filter (fun kp => is_plain (snd kp))
                           ((pre ++ [(k, Data (VPrim q) wr en co)]) ++ props)) (fst rd')
                   /\ Forall2 (encodes_fancy host (contentArray (this w')))
                        (List.filter (fun kp => negb (is_plain (snd kp)))
                           ((pre ++ [(k, Data (VPrim q) wr en co)]) ++ props)) (snd rd')
                   /\ EncInv host h root (Some 0) [] w' /\ extends w1 w') ->
              returns (foldM (serializeProperty (add host (S fuel))) rd props) w1
                (fun rd' w' =>
                   NoDup (map fst (fst rd') ++ map fst (snd rd'))
                   /\ Forall2 (encodes_plain host (contentArray (this w')))
                        (List.filter (fun kp => is_plain (snd kp))
                           (pre ++ (k, Data (VPrim q) wr en co) :: props)) (fst rd')
                   /\ Forall2 (encodes_fancy host (contentArray (this w')))
                        (List.filter (fun kp => negb (is_plain (snd kp)))
                           (pre ++ (k, Data (VPrim q) wr en co) :: props)) (snd rd')
                   /\ EncInv host h root (Some 0) [] w' /\ extends w w')) as Hwrap.
    { intros rd H. eapply returns_mono; [exact H |].
      intros rd' w' (H1 & H2 & H3 & H4 & H5). rewrite <- app_assoc in H2, H3.
      split; [done |]. split; [done |]. split; [done |].
      split; [done | by eapply extends_trans]. }
    destruct (co && wr && en) eqn:Hplain.
    + rewrite assoc_set_fresh by done. apply Hwrap. apply IH.
      * done.
      * intros Hin. apply Hcl. by right.
      * simpl. rewrite map_app. simpl. rewrite <- app_assoc. simpl.
        simpl in Hnd. eapply NoDup_Permutation_proper; [| exact Hnd].
        apply Permutation_app_head. apply Permutation_middle.
      * rewrite List.filter_app. simpl. rewrite Hplain. apply Forall2_app; [done |].
        constructor; [| constructor]. split; [done |]. exists q. simpl.
        destruct co, wr, en; try done.
      * rewrite List.filter_app. simpl. rewrite Hplain. simpl. by rewrite app_nil_r.
      * done.
    + rewrite assoc_set_fresh by done. apply Hwrap. apply IH.
      * done.
      * intros Hin. apply Hcl. by right.
      * simpl. rewrite map_app. simpl. rewrite <- !app_assoc. simpl. exact Hnd.
      * rewrite List.filter_app. simpl. rewrite Hplain. simpl. by rewrite app_nil_r.
      * rewrite List.filter_app. simpl. rewrite Hplain. simpl. apply Forall2_app; [done |].
        constructor; [| constructor]. split; [done |]. by exists q, wr, en, co, i.
      * done.
Qed.

(** The encoder on an object whose own properties hold primitives. *)
Lemma add_with_properties h l proto props fuel :
  getNameOfBuiltin host (VRef l) = None ->
  h !! l = Some (mkObject ObjectClass proto props) ->
  prototype_known host proto ->
  NoDup (map fst props) -> ~ In "__closure" (map fst props) ->
  Forall (fun kp => primitive_property (snd kp)) props ->
  1 < fuel ->
  returns (add host fuel (VRef l)) (mkWorld h new_SerializedGraph)
    (fun i w' => i = 0 /\ heap_of w' = h
                 /\ describes_properties host (contentArray (this w')) proto props).
Proof.
  intros Hnb Hl Hknown Hnd Hcl Hprops Hfuel.
  destruct fuel as [|[|fuel]]; [lia | lia |].
  destruct (prototype_gets_index_one host registry_ok h l proto fuel Hnb Hknown)
    as (c & Hrec & Hadd & HI2).
  set (w1 := mkWorld h (mkGraph [(VRef l, 0)] 0 [None])).
  set (w2 := mkWorld h (mkGraph [(VRef l, 0); (proto, 1)] 0 [None; Some c])).
  assert (forall wk, extends w1 wk -> contentArray (this wk) !! 0 = Some None) as Hslot.
  { intros wk (_ & _ & Hca). eapply prefix_lookup_Some; [| exact Hca]. done. }
  assert (extends w1 w2) as He2 by apply (extends_leaf w1 proto c).
  remember (S fuel) as f eqn:Hf.
  simpl. apply returns_bind, returns_get_this. simpl.
  apply returns_bind, returns_set_contentArray.
  apply returns_bind, returns_indexMap_push. simpl. fold w1.
  apply returns_bind.
  eapply (returns_mono _ _
            (fun c wk => heap_of wk = h
                         /\ describes_properties host
                              (<[0:=Some c]> (contentArray (this wk))) proto props)).
  2: { intros c0 wk [Hh Hd]. apply returns_bind, returns_get_this.
       apply returns_bind, returns_set_contentArray. by apply returns_ret. }
  unfold serialize. rewrite Hnb.
  apply returns_bind. eapply returns_read; [exact Hl |]. simpl.
  unfold serializeObject. simpl.
  apply returns_bind.
  eapply (returns_intro _ _ 1 w2); [exact Hadd |].
  simpl. apply returns_bind. unfold serializeProperties. simpl. rewrite Hf.
  eapply returns_mono.
  { apply (foldM_serializeProperty_exact h (Some l) fuel props [] [] [] w2);
      [done | done | done | constructor | constructor | done]. }
  intros [refs descs] wk (Hnd' & Hr & Hd & (Hh & _) & Hek). apply returns_ret. simpl in *.
  assert (extends w1 wk) as Hext by (by eapply extends_trans).
  split; [done |]. exists refs, descs, c.
  assert (filled_alike (contentArray (this wk))
            (<[0:=Some (CObject 1 refs descs)]> (contentArray (this wk)))) as Hfa.
  { apply filled_alike_fill. by apply Hslot. }
  split.
  { apply list_lookup_insert_eq. eapply lookup_lt_Some. by apply Hslot. }
  split.
  { apply Hfa. eapply prefix_lookup_Some; [| apply Hek]. done. }
  split; [done |]. split; [done |]. split.
  - eapply Forall2_impl; [done |]. intros. by eapply encodes_plain_mono.
  - eapply Forall2_impl; [done |]. intros. by eapply encodes_fancy_mono.
Qed.

Section Loops.
Variable data : list (option content).
Variable r : loc.
Variable proto : value.

(** While the decoder fills the object [r]: its invariant, and the own
    properties that [r] has so far. *)
Local Abbreviation filling now w :=
  (DecInv host data (Some r) (Some 0) [] [] w
   /\ heap_of w !! r = Some (mkObject ObjectClass proto now)).

Lemma get_primitive_value fuel i q now w :
  describes host (Some 0) [] data i (SPrim q) -> filling now w ->
  returns (get host (S fuel) i) w (fun x w' => x = VPrim q /\ filling now w').
Proof.
  intros Hq [HI Hr].
  eapply returns_mono.
  { apply (get_represents host data (Some r) (Some 0) registry_ok (SPrim q) i (S fuel) w
             [] []); [done | simpl; lia | done]. }
  intros x w' (Hrep & HI' & Hstep). inversion Hrep; subst.
  split; [done |]. split; [done |]. eapply prefix_lookup_Some; [done | apply Hstep].
Qed.

Lemma filling_define now w key p :
  filling now w ->
  filling (now ++ [(key, p)])
    (mkWorld (<[r:=mkObject ObjectClass proto (now ++ [(key, p)])]> (heap_of w)) (this w)).
Proof.
  intros [HI Hr]. split; simpl.
  - apply (DecInv_frame host data (Some r) (Some 0) [] [] w); [done | |].
    + apply agree_insert. by right.
    + by rewrite length_insert.
  - apply list_lookup_insert_eq. by eapply lookup_lt_Some.
Qed.

Lemma forM_deserializeRef_exact fuel refs :
  forall plains now w,
    Forall2 (encodes_plain host data) plains refs ->
    NoDup (map fst now ++ map fst refs) ->
    filling now w ->
    returns (forM_ (deserializeRef (get host (S fuel)) (VRef r)) refs) w
      (fun _ w' => filling (now ++ map decoded_entry plains) w').
Proof.
  induction refs as [|[k i] refs IH]; intros plains now w Hrefs Hnd Hfill.
  - apply Forall2_nil_inv_r in Hrefs as ->. simpl. apply returns_ret.
    by rewrite app_nil_r.
  - apply Forall2_cons_inv_r in Hrefs as ([k' p] & plains' & (Hk & q & Hp & Hq) & Hrefs & ->).
    simpl in Hk, Hp, Hq. subst k' p.
    cbn [forM_]. apply returns_bind. unfold deserializeRef. cbn [fst snd].
    apply returns_bind.
    eapply returns_mono; [by apply get_primitive_value |].
    intros x w1 [-> Hfill1]. pose proof Hfill1 as [_ Hr1].
    eapply returns_put_new; [exact Hr1 | |].
    { simpl. apply NoDup_app in Hnd as (_ & Hnd & _).
      intros Hin. apply (Hnd k); [by apply list_elem_of_In | left]. }
    simpl. eapply returns_mono.
    { apply (IH plains' (now ++ [(k, Data (VPrim q) true true true)])); [done | |].
      - rewrite map_app. simpl. rewrite <- app_assoc. exact Hnd.
      - by apply filling_define. }
    intros ? w2 H2. simpl. by rewrite <- app_assoc in H2.
Qed.

Lemma forM_deserializeDescription_exact fuel descs :
  forall fancies now w,
    Forall2 (encodes_fancy host data) fancies descs ->
    NoDup (map fst now ++ map fst descs) ->
    filling now w ->
    returns (forM_ (deserializeDescription (get host (S fuel)) (VRef r)) descs) w
      (fun _ w' => filling (now ++ map decoded_entry fancies) w').
Proof.
  induction descs as [|[k d] descs IH]; intros fancies now w Hdescs Hnd Hfill.
  - apply Forall2_nil_inv_r in Hdescs as ->. simpl. apply returns_ret.
    by rewrite app_nil_r.
  - apply Forall2_cons_inv_r in Hdescs
      as ([k' p] & fancies' & (Hk & q & wr & en & co & i & Hp & Hf & Hd & Hq) & Hdescs & ->).
    simpl in Hk, Hp, Hd, Hq. subst k' p d.
    cbn [forM_]. apply returns_bind.
    eapply deserializeDescription_primitive; [done | done | done | |].
    { intros ->. inversion Hq; subst; congruence. }
    eapply returns_mono; [by apply get_primitive_value |].
    intros x w1 [-> Hfill1]. pose proof Hfill1 as [_ Hr1].
    eapply returns_defineProperty_new; [exact Hr1 | | done | done |].
    { simpl. apply NoDup_app in Hnd as (_ & Hnd & _).
      intros Hin. apply (Hnd k); [by apply list_elem_of_In | left]. }
    simpl. eapply returns_mono.
    { apply (IH fancies' (now ++ [(k, Data (VPrim q) false en co)])); [done | |].
      - rewrite map_app. simpl. rewrite <- app_assoc. exact Hnd.
      - by apply filling_define. }
    intros ? w2 H2. simpl. unfold decoded_entry at 1. simpl. rewrite Hf.
    by rewrite <- app_assoc in H2.
Qed.
End Loops.

(** The decoder on these records. *)
Lemma root_with_properties h data proto props fuel :
  names_within host h -> prototype_known host proto ->
  describes_properties host data proto props ->
  1 < fuel ->
  returns (root host fuel) (mkWorld h (mkGraph [] 0 data))
    (fun v w' =>
       v = VRef (length h)
       /\ heap_of w' !! length h
          = Some (mkObject ObjectClass proto (decoded_properties props))).
Proof.
  intros Hn Hknown (refs & descs & c & H0 & H1 & Hrec & Hnd & Hr & Hd) Hfuel.
  destruct fuel as [|[|fuel]]; [lia | lia |].
  pose proof (prototype_is_read host h data proto c fuel H1 Hrec) as Hread.
  remember (S fuel) as f eqn:Hf.
  unfold root. apply returns_bind, returns_get_this. simpl.
  apply returns_bind, returns_get_this. simpl. rewrite H0.
  set (w1 := mkWorld h (mkGraph [(proto, 1)] 0 data)).
  apply returns_bind.
  eapply (returns_intro _ _ proto w1); [exact Hread |].
  apply returns_bind.
  set (r := length h).
  set (o := mkObject ObjectClass proto []).
  eapply returns_intro; [exact (Object_create_known host proto w1 Hknown) |].
  apply returns_bind, returns_indexMap_push. simpl.
  assert (DecInv host data (Some r) (Some 0) [] []
            (mkWorld (h ++ [o]) (mkGraph ([(proto, 1)] ++ [(VRef r, 0)]) 0 data)))
    as HI1.
  { apply (DecInv_root_with host h data o proto c); try done. congruence. }
  apply returns_bind. unfold deserializeProperties. rewrite Hf. apply returns_bind.
  eapply returns_mono.
  { apply (forM_deserializeRef_exact data r proto fuel refs
             (List.filter (fun kp => is_plain (snd kp)) props) []); [exact Hr | |].
    - simpl. by apply NoDup_app in Hnd as (? & _).
    - split; [exact HI1 | apply lookup_alloc_here]. }
  intros ? w2 Hfill2. simpl in Hfill2. eapply returns_mono.
  { apply (forM_deserializeDescription_exact data r proto fuel descs
             (List.filter (fun kp => negb (is_plain (snd kp))) props)
             ([] ++ map decoded_entry (List.filter (fun kp => is_plain (snd kp)) props))
             w2);
      [exact Hd | | exact Hfill2].
    simpl.
    replace (map fst (map decoded_entry
                        (List.filter (fun kp => is_plain (snd kp)) props)))
      with (map fst refs); [done |].
    clear -Hr. induction Hr as [|kp ki ? ? [Hk _] _ IH]; simpl; [done |].
    by rewrite Hk, IH. }
  intros ? w3 [_ Hr3]. apply returns_ret. split; [done |].
  rewrite Hr3. unfold decoded_properties. by rewrite map_app.
Qed.

End Descriptors.

Lemma filter_both_Permutation {A} (f : A -> bool) (l : list A) :
  Permutation (List.filter f l ++ List.filter (fun x => negb (f x)) l) l.
Proof.
  induction l as [|x l IH]; simpl; [done |].
  destruct (f x); simpl.
  - by constructor.
  - etrans; [symmetry; apply Permutation_middle |]. by constructor.
Qed.


(** ** The further properties on examples *)

Lemma node_knows_its_names x name :
  getNameOfBuiltin node x = Some name -> is_Some (getBuiltinByName node name).
Proof. intros H. exists x. by apply node_well_behaved. Qed.

Lemma document_is_serialized :
  exists w, SerializedGraph_serialize node 4 (VRef 5) heap_with_document = Return tt w.
Proof. vm_compute. eexists. reflexivity. Qed.

Lemma serialize_graph_is_closed_witness :
  exists w,
    SerializedGraph_serialize node 4 (VRef 5) heap_with_document = Return tt w
    /\ rootIndex (this w) = 0 /\ closed_graph node (this w).
Proof.
  destruct document_is_serialized as [w Hw]. exists w. split; [exact Hw |].
  exact (serialize_graph_is_closed node 4 (VRef 5) heap_with_document w Hw).
Defined.

Lemma own_output_has_no_bad_record_witness :
  exists w,
    SerializedGraph_serialize node 4 (VRef 5) heap_with_document = Return tt w
    /\ match root node 4 (over_the_wire w) with
       | Throw (Error _) _ => False
       | _ => True
       end.
Proof.
  destruct document_is_serialized as [w Hw]. exists w. split; [exact Hw |].
  exact (own_output_has_no_bad_record node 4 (VRef 5) heap_with_document w
           node_knows_its_names Hw 4 (over_the_wire w) eq_refl).
Defined.

(** After [add(0)], [add(-0)] returns the index of [0]. *)
Lemma add_shares_equal_values_witness :
  add node 1 (VPrim (PNumber NegZero))
    (mkWorld realm (mkGraph [(VPrim (PNumber (Num 0)), 0)] 0
                      [Some (CPrimitive (PNumber (Num 0)))]))
  = Return 0
      (mkWorld realm (mkGraph [(VPrim (PNumber (Num 0)), 0)] 0
                        [Some (CPrimitive (PNumber (Num 0)))])).
Proof.
  apply (add_shares_equal_values node 1 (VPrim (PNumber (Num 0)))
           (VPrim (PNumber NegZero)) (mkWorld realm new_SerializedGraph)).
  - reflexivity.
  - reflexivity.
Defined.

Lemma nan_gets_a_record_each_time_witness :
  add node 1 (VPrim (PNumber NaN))
    (mkWorld realm (mkGraph [(VPrim (PNumber NaN), 0)] 0 [Some (CPrimitive (PNumber NaN))]))
  = Return 1
      (mkWorld realm
         (mkGraph [(VPrim (PNumber NaN), 0); (VPrim (PNumber NaN), 1)] 0
            [Some (CPrimitive (PNumber NaN)); Some (CPrimitive (PNumber NaN))])).
Proof.
  apply (nan_gets_a_record_each_time node 0
           (mkWorld realm (mkGraph [(VPrim (PNumber NaN), 0)] 0
                             [Some (CPrimitive (PNumber NaN))]))).
  reflexivity.
Defined.

(** [Array.prototype] itself goes round by name. *)
Lemma builtin_round_trip_witness :
  SerializedGraph_serialize node 1 (VRef 1) realm
  = Return tt (mkWorld realm (mkGraph [(VRef 1, 0)] 0 [Some (CBuiltin "Array.prototype")]))
  /\ roundtrip node 1 (VRef 1) realm
     = Return (VRef 1)
         (mkWorld realm (mkGraph [(VRef 1, 0)] 0 [Some (CBuiltin "Array.prototype")])).
Proof.
  apply (builtin_round_trip node (VRef 1) "Array.prototype" realm 0). reflexivity.
Defined.

Lemma primitive_round_trip_witness :
  roundtrip node 1 (VPrim (PNumber NaN)) realm
  = Return (VPrim (PNumber NaN))
      (mkWorld realm (mkGraph [(VPrim (PNumber NaN), 0)] 0
                        [Some (CPrimitive (PNumber NaN))])).
Proof.
  apply (primitive_round_trip node (PNumber NaN) realm 0). reflexivity.
Defined.




(** The second access to the array of [serialize([])] read from JSON. *)
Lemma get_returns_what_it_registers_witness :
  find_index [(VRef 6, 0)] 0 = Some (VRef 6)
  /\ forall n,
       get node (S n) 0
         (mkWorld (heap_with_empty_array ++ [mkObject (ArrayClass []) (VRef 1) []])
            (mkGraph [(VRef 6, 0)] 0 [Some (CArray [])]))
       = Return (VRef 6)
           (mkWorld (heap_with_empty_array ++ [mkObject (ArrayClass []) (VRef 1) []])
              (mkGraph [(VRef 6, 0)] 0 [Some (CArray [])])).
Proof.
  apply (get_returns_what_it_registers node 1 0 (over_the_wire serialized_empty_array)
           (VRef 6)
           (mkWorld (heap_with_empty_array ++ [mkObject (ArrayClass []) (VRef 1) []])
              (mkGraph [(VRef 6, 0)] 0 [Some (CArray [])]))).
  - exact I.
  - reflexivity.
Defined.





(** The graph of [[o, o]] for an empty object literal [o], read from JSON:
    both elements of the decoded array are one object. *)
Lemma decoded_elements_share_witness :
  exists v w' elements',
    get node 3 0
      (mkWorld realm
         (mkGraph [] 0
            [Some (CArray [1; 1]); Some (CObject 2 [] []);
             Some (CBuiltin "Object.prototype")]))
    = Return v w'
    /\ v = VRef 5
    /\ heap_of w' !! 5 = Some (mkObject (ArrayClass elements') (VRef 1) [])
    /\ length elements' = 2
    /\ elements' !! 0 = elements' !! 1.
Proof.
  set (w := mkWorld realm
              (mkGraph [] 0
                 [Some (CArray [1; 1]); Some (CObject 2 [] []);
                  Some (CBuiltin "Object.prototype")])).
  assert (exists v w', get node 3 0 w = Return v w') as (v & w' & Hg).
  { vm_compute. eexists _, _. reflexivity. }
  destruct (decoded_elements_share node 3 0 w [1; 1] v w' eq_refl eq_refl Hg)
    as (elements' & Hv & Hr & Hlen & Hshare).
  exists v, w', elements'. repeat (split; [done |]).
  apply (Hshare 0 1 1); [reflexivity | reflexivity |].
  unfold registers_first. simpl. split; [lia | exact I].
Defined.

